(** * EMILY tracker: a shallow embedding of [main.cpp]

    The tracker locates one coloured object per video frame.  This file
    embeds the parts of [main.cpp] that decide what is detected and what
    is tracked: the trackbar handler [on_trackbar], the mouse handler
    [onMouse], the pose estimate of [draw_principal_axis] and
    [get_size], and, from [main], the colour threshold, the contour loop
    with its area filter, and the CamShift branch of the main loop.

    [main.cpp] holds two pipelines, chosen when it is compiled: the
    static-threshold pipeline is the text under [#ifndef CAMSHIFT], the
    adaptive one the text under [#else].  Both are embedded.

    Conventions.
    - A C++ [int] is a [Z].  The values are pixel coordinates, kernel
      sizes and counters.  Where the code computes on [int]s that can
      leave the 32 bits (the difference of two pixels in [get_size], the
      product of the sides of the frame), the wrap-around is written
      out ([wrap]).
    - A [float] or [double] of the pose estimate, of the centroid, of
      the frame size and of the histogram bars is a [Float]: a
      rational, an infinity or a NaN.  Every operation on them rounds
      its exact result to the format in which C++ evaluates it, to the
      nearest value with ties to the even significand, and overflows to
      an infinity ([round]); the sign of a zero is not kept.
    - Elsewhere a [double] is the rational [Q] it holds, and the
      arithmetic on it is exact: the areas and moments, which are
      stored and compared (their quotient, the centroid, is taken in
      [double]); the masks joined by [addWeighted],
      whose values 0 and 255 and weights 1 make every operation exact;
      the hue of a histogram bin, a multiple of 180 / 16; and the arms
      of the crosshairs in [draw_object_position], of which only bounds
      are stated, between integers that rounding does not cross.
    - OpenCV primitives whose code is not part of [main.cpp]
      ([moments], [fitEllipse], [findContours], [calcHist], [CamShift])
      are the fields of two interfaces, [Vision] and [Camshift]; every
      definition and theorem holds for any implementation of them.
    - Drawing on [original_frame] is recorded as a list of [Draw]
      commands.

    The definitions come first, the properties after them. *)

From Stdlib Require Import ZArith QArith Qabs Qround Qpower Qreals Reals Rgeom.
From Stdlib Require Import Lia Lra Psatz List Bool Ascii.
From stdpp Require gmap.
From Stdlib Require String DecimalString.
Import ListNotations.

Local Open Scope Z_scope.

(** ** Integer geometry: [cv::Point] and [cv::Rect] *)

Definition Point : Type := (Z * Z)%type.

Record Rect : Type := mkRect { rx : Z; ry : Z; rwidth : Z; rheight : Z }.

(** [Rect::area()] *)
Definition area (r : Rect) : Z := rwidth r * rheight r.

(** [Rect & Rect] of OpenCV: the intersection, and the empty rectangle
    [Rect()] when the two do not overlap. *)
Definition rect_and (a b : Rect) : Rect :=
  let x1 := Z.max (rx a) (rx b) in
  let y1 := Z.max (ry a) (ry b) in
  let w := Z.min (rx a + rwidth a) (rx b + rwidth b) - x1 in
  let h := Z.min (ry a + rheight a) (ry b + rheight b) - y1 in
  if (w <=? 0) || (h <=? 0) then mkRect 0 0 0 0 else mkRect x1 y1 w h.

(** ** Algorithm parameters (the globals behind the trackbars) *)

Record Params : Type := mkParams {
  hue_1_min : Z; hue_1_max : Z;
  hue_2_min : Z; hue_2_max : Z;
  saturation_min : Z; saturation_max : Z;
  value_min : Z; value_max : Z;
  blur_kernel_size : Z;
  erode_size : Z;
  dilate_size : Z
}.

(** The initial values of the globals. *)
Definition default_params : Params :=
  {| hue_1_min := 0; hue_1_max := 10;
     hue_2_min := 160; hue_2_max := 180;
     saturation_min := 120; saturation_max := 255;
     value_min := 100; value_max := 255;
     blur_kernel_size := 21;
     erode_size := 2;
     dilate_size := 16 |}.

Definition set_blur (p : Params) (b : Z) : Params :=
  {| hue_1_min := hue_1_min p; hue_1_max := hue_1_max p;
     hue_2_min := hue_2_min p; hue_2_max := hue_2_max p;
     saturation_min := saturation_min p; saturation_max := saturation_max p;
     value_min := value_min p; value_max := value_max p;
     blur_kernel_size := b;
     erode_size := erode_size p;
     dilate_size := dilate_size p |}.

Definition set_erode (p : Params) (e : Z) : Params :=
  {| hue_1_min := hue_1_min p; hue_1_max := hue_1_max p;
     hue_2_min := hue_2_min p; hue_2_max := hue_2_max p;
     saturation_min := saturation_min p; saturation_max := saturation_max p;
     value_min := value_min p; value_max := value_max p;
     blur_kernel_size := blur_kernel_size p;
     erode_size := e;
     dilate_size := dilate_size p |}.

Definition set_dilate (p : Params) (d : Z) : Params :=
  {| hue_1_min := hue_1_min p; hue_1_max := hue_1_max p;
     hue_2_min := hue_2_min p; hue_2_max := hue_2_max p;
     saturation_min := saturation_min p; saturation_max := saturation_max p;
     value_min := value_min p; value_max := value_max p;
     blur_kernel_size := blur_kernel_size p;
     erode_size := erode_size p;
     dilate_size := d |}.

(** [on_trackbar]: three guarded increments, in the order of the source.
    [%] on [int] truncates towards zero, which is [Z.rem]. *)
Definition on_trackbar (p : Params) : Params :=
  let p1 := if Z.rem (blur_kernel_size p) 2 =? 0
            then set_blur p (blur_kernel_size p + 1) else p in
  let p2 := if erode_size p1 =? 0
            then set_erode p1 (erode_size p1 + 1) else p1 in
  let p3 := if dilate_size p2 =? 0
            then set_dilate p2 (dilate_size p2 + 1) else p2 in
  p3.

(** ** Floating-point values *)

(** [a < b] on rationals, as a boolean. *)
Definition Qltb (a b : Q) : bool :=
  Qnum a * QDen b <? Qnum b * QDen a.

(** The integer part of a rational: truncation towards zero. *)
Definition trunc (q : Q) : Z := Z.quot (Qnum q) (QDen q).

(** [cvRound], which [saturate_cast<int>] applies to a [float]: the
    nearest integer, a tie going to the even neighbour ([lrint] in the
    default rounding mode). *)
Definition cvRound (q : Q) : Z :=
  let f := Qfloor q in
  let d := (q - inject_Z f)%Q in
  if Qltb d (1 # 2) then f
  else if Qltb (1 # 2) d then f + 1
  else if Z.even f then f else f + 1.

(** A [float] or a [double]: a rational, an infinity with its sign, or
    a NaN. *)
Inductive Float : Type :=
| Finite (q : Q)
| Infinity (negative : bool)
| NaN.

(** A binary format of IEEE 754: the number of bits of the significand,
    the exponent of the smallest positive value, and the exponent of the
    power of two at which a value overflows. *)
Record Format : Type := mkFormat {
  precision : Z;
  least_exponent : Z;
  overflow_exponent : Z
}.

(** [float] and [double]. *)
Definition binary32 : Format := mkFormat 24 (-149) 128.
Definition binary64 : Format := mkFormat 53 (-1074) 1024.

Definition pow2 (e : Z) : Q := (2 ^ e)%Q.

(** For [a > 0], the exponent [e] with [2 ^ e <= a < 2 ^ (e + 1)]. *)
Definition ilog2 (a : Q) : Z :=
  let e := Z.log2 (Qnum a) - Z.log2 (QDen a) in
  if Qltb a (pow2 e) then e - 1 else e.

(** The exponent of the last bit of the significand that the format
    gives a value of magnitude [a]. *)
Definition exponent (f : Format) (a : Q) : Z :=
  Z.max (ilog2 a - (precision f - 1)) (least_exponent f).

(** The multiple of [2 ^ u] nearest to [a], a tie going to the even
    multiple. *)
Definition nearest (u : Z) (a : Q) : Q :=
  (inject_Z (cvRound (a / pow2 u)) * pow2 u)%Q.

(** The value of the format nearest to [q], a tie going to the even
    significand, and an infinity when that value is out of range: the
    rounding every operation below ends with. *)
Definition round (f : Format) (q : Q) : Float :=
  let r := nearest (exponent f (Qabs q)) (Qabs q) in
  if Qltb r (pow2 (overflow_exponent f))
  then Finite (Qred (if Qltb q 0 then - r else r))
  else Infinity (Qltb q 0).

Definition f_neg (x : Float) : Float :=
  match x with
  | Finite q => Finite (- q)
  | Infinity s => Infinity (negb s)
  | NaN => NaN
  end.

Definition f_add (f : Format) (x y : Float) : Float :=
  match x, y with
  | Finite a, Finite b => round f (a + b)
  | NaN, _ | _, NaN => NaN
  | Infinity s, Infinity t => if Bool.eqb s t then Infinity s else NaN
  | Infinity s, Finite _ | Finite _, Infinity s => Infinity s
  end.

Definition f_sub (f : Format) (x y : Float) : Float := f_add f x (f_neg y).

Definition f_mul (f : Format) (x y : Float) : Float :=
  match x, y with
  | Finite a, Finite b => round f (a * b)
  | NaN, _ | _, NaN => NaN
  | Infinity s, Infinity t => Infinity (xorb s t)
  | Infinity s, Finite b | Finite b, Infinity s =>
      if Qeq_bool b 0 then NaN else Infinity (xorb s (Qltb b 0))
  end.

(** A zero divisor counts as [+0]. *)
Definition f_div (f : Format) (x y : Float) : Float :=
  match x, y with
  | Finite a, Finite b =>
      if Qeq_bool b 0
      then if Qeq_bool a 0 then NaN else Infinity (Qltb a 0)
      else round f (a / b)
  | NaN, _ | _, NaN => NaN
  | Infinity _, Infinity _ => NaN
  | Infinity s, Finite b => Infinity (xorb s (Qltb b 0))
  | Finite _, Infinity _ => Finite 0
  end.

(** The integer nearest to the square root of [t], a tie going to the
    even one. *)
Definition nearest_root (t : Q) : Z :=
  let s := Z.sqrt (Qfloor t) in
  let tie := (inject_Z (s * s + s) + (1 # 4))%Q in
  if Qltb t tie then s
  else if Qltb tie t then s + 1
  else if Z.even s then s else s + 1.

(** [sqrt]: the value of the format nearest to the square root. *)
Definition f_sqrt (f : Format) (x : Float) : Float :=
  match x with
  | Finite q =>
      if Qltb q 0 then NaN
      else
        let u := Z.max (ilog2 q / 2 - (precision f - 1)) (least_exponent f) in
        Finite (Qred (inject_Z (nearest_root (q / pow2 (2 * u))) * pow2 u))
  | Infinity false => Infinity false
  | Infinity true => NaN
  | NaN => NaN
  end.

(** [x < y]; false when either is a NaN. *)
Definition f_lt (x y : Float) : bool :=
  match x, y with
  | Finite a, Finite b => Qltb a b
  | Finite _, Infinity s => negb s
  | Infinity s, Finite _ => s
  | Infinity s, Infinity t => s && negb t
  | _, _ => false
  end.

(** The conversion of a [double] to [float]. *)
Definition to_float (x : Float) : Float :=
  match x with
  | Finite q => round binary32 q
  | _ => x
  end.

(** [INT_MIN] and [INT_MAX] of [<climits>]. *)
Definition INT_MIN : Z := - 2 ^ 31.
Definition INT_MAX : Z := 2 ^ 31 - 1.

Definition in_int (z : Z) : bool := (INT_MIN <=? z) && (z <=? INT_MAX).

(** The result of an [int] operation whose exact result is [z]: the
    32 bits of two's complement.  C++ leaves the overflow undefined;
    this is what the processor computes. *)
Definition wrap (z : Z) : Z := (z + 2 ^ 31) mod 2 ^ 32 - 2 ^ 31.

(** [saturate_cast<int>] of a [float] is [cvRound]; where the rounded
    value is no [int], and on an infinity or a NaN, the conversion
    instruction answers [INT_MIN]. *)
Definition saturate_int (x : Float) : Z :=
  match x with
  | Finite q => if in_int (cvRound q) then cvRound q else INT_MIN
  | _ => INT_MIN
  end.

(** The conversion of a [double] to [int] truncates, with the same
    answer out of range. *)
Definition double_to_int (x : Float) : Z :=
  match x with
  | Finite q => if in_int (trunc q) then trunc q else INT_MIN
  | _ => INT_MIN
  end.

(** [FLT_MAX] and [DBL_MAX] of [<cfloat>]. *)
Definition FLT_MAX : Q := inject_Z (2 ^ 128 - 2 ^ 104).
Definition DBL_MAX : Q := inject_Z (2 ^ 1024 - 2 ^ 971).

(** ** [cv::Point2f] and [cv::RotatedRect] *)

Definition Point2f : Type := (Float * Float)%type.

(** [a + b] and [a - b] on [Point2f]: each coordinate in [float]. *)
Definition pt_add (a b : Point2f) : Point2f :=
  (f_add binary32 (fst a) (fst b), f_add binary32 (snd a) (snd b)).
Definition pt_sub (a b : Point2f) : Point2f :=
  (f_sub binary32 (fst a) (fst b), f_sub binary32 (snd a) (snd b)).

(** [a * k] for a [double] [k]: the product is taken in [double] and
    converted back ([saturate_cast<float>]). *)
Definition pt_scale (a : Point2f) (k : Q) : Point2f :=
  (to_float (f_mul binary64 (fst a) (Finite k)),
   to_float (f_mul binary64 (snd a) (Finite k))).

(** [norm(pt)]: [sqrt((double) pt.x * pt.x + (double) pt.y * pt.y)]. *)
Definition norm (a : Point2f) : Float :=
  f_sqrt binary64 (f_add binary64 (f_mul binary64 (fst a) (fst a))
                                  (f_mul binary64 (snd a) (snd a))).

(** The conversion [Point2f -> Point] rounds each coordinate
    ([saturate_cast<int>]). *)
Definition to_Point (a : Point2f) : Point :=
  (saturate_int (fst a), saturate_int (snd a)).

(** A rotated rectangle as [get_size] and [draw_principal_axis] see it:
    the four corners that [RotatedRect::points] writes into
    [rectangle_points].  Neither function reads anything else of it. *)
Record RotatedRect : Type := mkRotatedRect {
  pt0 : Point2f; pt1 : Point2f; pt2 : Point2f; pt3 : Point2f
}.

(** [rectangle_points[j]]; every index the code uses is reduced
    modulo 4 first. *)
Definition rectangle_points (r : RotatedRect) (j : Z) : Point2f :=
  match j with
  | 0 => pt0 r
  | 1 => pt1 r
  | 2 => pt2 r
  | _ => pt3 r
  end.

(** Every coordinate of the rectangle is finite, and of magnitude at
    most [bound]. *)
Definition within (bound : Q) (x : Float) : bool :=
  match x with
  | Finite q => Qle_bool (Qabs q) bound
  | _ => false
  end.
Definition point_within (bound : Q) (a : Point2f) : bool :=
  within bound (fst a) && within bound (snd a).
Definition rect_within (bound : Q) (r : RotatedRect) : bool :=
  point_within bound (pt0 r) && point_within bound (pt1 r) &&
  point_within bound (pt2 r) && point_within bound (pt3 r).

(** Every coordinate of the rectangle is a finite [float]. *)
Definition finite_rect (r : RotatedRect) : bool := rect_within FLT_MAX r.

(** ** Pose: the shortest side of the rectangle *)

(** [norm(rectangle_points[j] - rectangle_points[(j + 1) % 4])] *)
Definition line_length (r : RotatedRect) (j : Z) : Float :=
  norm (pt_sub (rectangle_points r j) (rectangle_points r (Z.rem (j + 1) 4))).

(** The two locals of the search.  [shortest_axis_index] is declared
    without an initial value: [None] until the loop assigns it. *)
Record Shortest : Type := mkShortest {
  shortest_axis : Float;
  shortest_axis_index : option Z
}.

(** The body of [for (int j = 0; j < 4; j++)]. *)
Definition shortest_step (r : RotatedRect) (st : Shortest) (j : Z) : Shortest :=
  if f_lt (line_length r j) (shortest_axis st)
  then mkShortest (line_length r j) (Some j)
  else st.

(** The loop, which [draw_principal_axis] and [get_size] both contain
    word for word. *)
Definition shortest_side (r : RotatedRect) : Shortest :=
  fold_left (shortest_step r) [0; 1; 2; 3] (mkShortest (Finite DBL_MAX) None).

(** [(rectangle_points[k] + rectangle_points[(k + 1) % 4]) * 0.5]
    assigned to a [Point]. *)
Definition shortest_axis_midpoint_1 (r : RotatedRect) (k : Z) : Point :=
  to_Point (pt_scale (pt_add (rectangle_points r k)
                             (rectangle_points r (Z.rem (k + 1) 4))) (1 # 2)).

(** [(rectangle_points[(k + 2) % 4] + rectangle_points[(k + 3) % 4]) * 0.5]
    assigned to a [Point]. *)
Definition shortest_axis_midpoint_2 (r : RotatedRect) (k : Z) : Point :=
  to_Point (pt_scale (pt_add (rectangle_points r (Z.rem (k + 2) 4))
                             (rectangle_points r (Z.rem (k + 3) 4))) (1 # 2)).

(** What is drawn on [original_frame]. *)
Inductive Draw : Type :=
| Line (p q : Point)
  (** [line(original_frame, p, q, POSE_LINE_COLOR, 2, 8)] *)
| Crosshairs (x y : Z) (radius : Float)
  (** [draw_object_position(x, y, radius, original_frame)]: the circle,
      the four arms and the coordinate text *)
| NotFoundText.
  (** [putText(original_frame, "EMILY not found!", ...)] *)

(** [draw_principal_axis].  The result is [None] when the function reads
    [shortest_axis_index] without the loop having assigned it. *)
Definition draw_principal_axis (r : RotatedRect) : option (list Draw) :=
  match shortest_axis_index (shortest_side r) with
  | None => None
  | Some k =>
      Some [Line (shortest_axis_midpoint_1 r k) (shortest_axis_midpoint_2 r k)]
  end.

(** [pow(d, 2)] for an [int] [d], which is converted to [double]. *)
Definition pow_2 (d : Z) : Float :=
  f_mul binary64 (Finite (inject_Z d)) (Finite (inject_Z d)).

(** [sqrt(pow(p.x - q.x, 2) + pow(p.y - q.y, 2))] on two [Point]s; the
    differences are taken on [int]. *)
Definition distance (p q : Point) : Float :=
  f_sqrt binary64 (f_add binary64 (pow_2 (wrap (fst p - fst q)))
                                  (pow_2 (wrap (snd p - snd q)))).

(** [get_size], with the same [None] as above. *)
Definition get_size (r : RotatedRect) : option Float :=
  match shortest_axis_index (shortest_side r) with
  | None => None
  | Some k =>
      Some (f_div binary64 (distance (shortest_axis_midpoint_1 r k)
                                     (shortest_axis_midpoint_2 r k))
                           (Finite 2))
  end.

(** ** The static-threshold pipeline ([#ifndef CAMSHIFT]) *)

(** *** Colour threshold *)

(** A pixel of [HSV_frame]: hue, saturation, value, each an 8-bit value. *)
Definition Pixel : Type := (Z * Z * Z)%type.

(** A [cv::Mat] as its rows of elements. *)
Definition Mat (A : Type) : Type := list (list A).

Definition mat_at {A : Type} (m : Mat A) (row col : nat) : option A :=
  match nth_error m row with
  | Some line => nth_error line col
  | None => None
  end.

Definition mat_map {A B : Type} (f : A -> B) (m : Mat A) : Mat B :=
  map (map f) m.

Fixpoint zip_with {A B C : Type} (f : A -> B -> C) (l : list A) (k : list B)
  : list C :=
  match l, k with
  | a :: l', b :: k' => f a b :: zip_with f l' k'
  | _, _ => []
  end.

Definition mat_zip {A B C : Type} (f : A -> B -> C) (m : Mat A) (n : Mat B)
  : Mat C :=
  zip_with (zip_with f) m n.

(** [inRange] on one pixel: 255 when every channel lies between the two
    bounds, both included, and 0 otherwise. *)
Definition inRange (lowerb upperb : Z * Z * Z) (px : Pixel) : Z :=
  let '(h, s, v) := px in
  let '(h_lo, s_lo, v_lo) := lowerb in
  let '(h_hi, s_hi, v_hi) := upperb in
  if (h_lo <=? h) && (h <=? h_hi) &&
     (s_lo <=? s) && (s <=? s_hi) &&
     (v_lo <=? v) && (v <=? v_hi)
  then 255 else 0.

(** [saturate_cast<uchar>] of a [double]. *)
Definition saturate_uchar (q : Q) : Z :=
  let v := cvRound q in
  if v <? 0 then 0 else if 255 <? v then 255 else v.

(** [addWeighted(src1, alpha, src2, beta, gamma, dst)] on one element. *)
Definition addWeighted (src1 : Z) (alpha : Q) (src2 : Z) (beta gamma : Q) : Z :=
  saturate_uchar (inject_Z src1 * alpha + inject_Z src2 * beta + gamma)%Q.

(** The two [inRange] calls and the [addWeighted] that joins them. *)
Definition lower_red_threshold (p : Params) (HSV_frame : Mat Pixel) : Mat Z :=
  mat_map (inRange (hue_1_min p, saturation_min p, value_min p)
                   (hue_1_max p, saturation_max p, value_max p)) HSV_frame.

Definition upper_red_threshold (p : Params) (HSV_frame : Mat Pixel) : Mat Z :=
  mat_map (inRange (hue_2_min p, saturation_min p, value_min p)
                   (hue_2_max p, saturation_max p, value_max p)) HSV_frame.

Definition threshold (p : Params) (HSV_frame : Mat Pixel) : Mat Z :=
  mat_zip (fun a b => addWeighted a 1 b 1 0)
          (lower_red_threshold p HSV_frame) (upper_red_threshold p HSV_frame).

(** *** Frame size and area bounds *)

Definition PROCESSING_VIDEO_HEIGHT_LIMIT : Z := 1080.
Definition MIN_BLOB_AREA : Z := 1 * 1.

(** [resized_video_size] as [(width, height)], from the size of the
    input: [ratio] is a [double], the product [width * ratio] is taken
    in [double] and truncated to [int]. *)
Definition resized_video_size (input_video_size : Z * Z) : Z * Z :=
  let '(width, height) := input_video_size in
  if PROCESSING_VIDEO_HEIGHT_LIMIT <? height then
    let ratio := f_div binary64 (Finite (inject_Z PROCESSING_VIDEO_HEIGHT_LIMIT))
                                (Finite (inject_Z height)) in
    (double_to_int (f_mul binary64 (Finite (inject_Z width)) ratio),
     PROCESSING_VIDEO_HEIGHT_LIMIT)
  else (width, height).

(** [resized_video_size.height * resized_video_size.width], on [int]. *)
Definition MAX_BLOB_AREA (input_video_size : Z * Z) : Z :=
  wrap (snd (resized_video_size input_video_size) *
        fst (resized_video_size input_video_size)).

(** *** Contours and their moments *)

Definition Contour : Type := list Point.

(** One entry of [hierarchy]: next, previous, first child, parent. *)
Definition Vec4i : Type := (Z * Z * Z * Z)%type.

(** [hierarchy[i][0]] *)
Definition next_contour (h : Vec4i) : Z := fst (fst (fst h)).

Record Moments : Type := mkMoments { m00 : Q; m10 : Q; m01 : Q }.

(** The OpenCV calls of the static pipeline.  [findContours] returns the
    contours with their hierarchy, and [findContours_leaves] is what the
    call leaves behind in the image it was given (OpenCV 2 and early 3
    overwrite it).  [minAreaRect] is called too, but its result is never
    read. *)
Class Vision : Type := {
  moments : Contour -> Moments;
  fitEllipse : Contour -> RotatedRect;
  findContours : Mat Z -> list Contour * list Vec4i;
  findContours_leaves : Mat Z -> Mat Z
}.

(** *** The contour loop *)

(** The locals the loop updates.  [max_area_object_x], [_y] and
    [max_area_contour_index] are [double]s in the source; they only ever
    hold the [int]s assigned to them. *)
Record Blob : Type := mkBlob {
  object_found : bool;
  max_area : Q;
  max_area_object_x : Z;
  max_area_object_y : Z;
  max_area_contour_index : Z
}.

(** The values before the loop. *)
Definition no_blob : Blob := mkBlob false 0 0 0 (-1).

(** [area > MIN_BLOB_AREA && area < MAX_BLOB_AREA] *)
Definition area_within_limit (max_blob_area : Z) (area : Q) : bool :=
  Qltb (inject_Z MIN_BLOB_AREA) area && Qltb area (inject_Z max_blob_area).

(** The centroid as the loop stores it in the [int]s [x] and [y]:
    [moment.m10 / area] and [moment.m01 / area], each a division of
    [double]s converted to [int]. *)
Definition centroid (moment : Moments) : Z * Z :=
  (double_to_int (f_div binary64 (Finite (m10 moment)) (Finite (m00 moment))),
   double_to_int (f_div binary64 (Finite (m01 moment)) (Finite (m00 moment)))).

Section StaticPipeline.
Context {cv : Vision}.

(** The body of the loop for contour [i]. *)
Definition blob_step (max_blob_area : Z) (contour : Contour) (i : Z) (b : Blob)
  : Blob :=
  let moment := moments contour in
  let area := m00 moment in
  if area_within_limit max_blob_area area then
    let x := fst (centroid moment) in
    let y := snd (centroid moment) in
    if Qltb (max_area b) area
    then mkBlob true area x y i
    else mkBlob true (max_area b) (max_area_object_x b) (max_area_object_y b)
                (max_area_contour_index b)
  else b.

(** [for (int i = 0; i >= 0; i = hierarchy[i][0])].  The loop follows
    the links of the hierarchy, so it is given fuel; [None] is an index
    outside [contours] or [hierarchy], or fuel running out. *)
Fixpoint blob_loop (fuel : nat) (max_blob_area : Z)
  (contours : list Contour) (hierarchy : list Vec4i) (i : Z) (b : Blob)
  : option Blob :=
  if i <? 0 then Some b
  else
    match fuel with
    | O => None
    | S fuel' =>
        match nth_error contours (Z.to_nat i), nth_error hierarchy (Z.to_nat i) with
        | Some contour, Some h =>
            blob_loop fuel' max_blob_area contours hierarchy (next_contour h)
                      (blob_step max_blob_area contour i b)
        | _, _ => None
        end
    end.

(** What one frame yields: the locals after the loop and what was drawn. *)
Record Tracked : Type := mkTracked { blob : Blob; overlay : list Draw }.

(** The pose and the crosshairs of the selected contour. *)
Definition draw_pose (b : Blob) (contour : Contour) : option (list Draw) :=
  if (4 <? length contour)%nat then
    let min_ellipse := fitEllipse contour in
    match draw_principal_axis min_ellipse, get_size min_ellipse with
    | Some axis, Some object_size =>
        Some (axis ++ [Crosshairs (max_area_object_x b) (max_area_object_y b)
                                  object_size])
    | _, _ => None
    end
  else Some [].

(** The block "Object tracking" of the main loop, after [findContours].
    A chain of links through distinct contours has at most
    [length hierarchy] steps, which is the fuel. *)
Definition track_blobs (max_blob_area : Z)
  (contours : list Contour) (hierarchy : list Vec4i) : option Tracked :=
  if (0 <? length hierarchy)%nat then
    match blob_loop (length hierarchy) max_blob_area contours hierarchy 0 no_blob with
    | None => None
    | Some b =>
        if object_found b then
          match nth_error contours (Z.to_nat (max_area_contour_index b)) with
          | None => None
          | Some contour =>
              match draw_pose b contour with
              | Some drawn => Some (mkTracked b drawn)
              | None => None
              end
          end
        else Some (mkTracked b [])
    end
  else Some (mkTracked no_blob [NotFoundText]).

End StaticPipeline.

(** ** The adaptive pipeline ([#ifdef CAMSHIFT]) *)

(** The OpenCV side of the CamShift branch.  A [Frame] is
    [original_frame] once read and resized.  [calcHist f p sel] is the
    histogram of the hue of [f] inside [sel], masked by the
    saturation/value threshold of [p], after [normalize].
    [CamShift f p hist window] is the back projection of [hist] over
    [f], masked the same way, followed by [CamShift] from [window]: it
    returns the tracking box and the window as [CamShift] leaves it in
    [object_of_interest]. *)
Class Camshift : Type := {
  Frame : Type;
  Histogram : Type;
  empty_histogram : Histogram;
  frame_cols : Frame -> Z;
  frame_rows : Frame -> Z;
  calcHist : Frame -> Params -> Rect -> Histogram;
  CamShift : Frame -> Params -> Histogram -> Rect -> RotatedRect * Rect
}.

(** The mouse events of [highgui]. *)
Inductive MouseEvent : Type :=
| EVENT_MOUSEMOVE
| EVENT_LBUTTONDOWN
| EVENT_RBUTTONDOWN
| EVENT_MBUTTONDOWN
| EVENT_LBUTTONUP
| EVENT_RBUTTONUP
| EVENT_MBUTTONUP
| EVENT_LBUTTONDBLCLK
| EVENT_RBUTTONDBLCLK
| EVENT_MBUTTONDBLCLK.

Section AdaptivePipeline.
Context {cs : Camshift}.

(** The globals and the locals of [main] that survive an iteration.
    [original_frame] is the frame as the capture delivered it, [None]
    for the empty [Mat] before the first frame is read.  The loop also
    draws into that [Mat] (the back projection shown in its place, the
    ellipse, the crosshairs, the principal axis, the inverted
    selection); the drawing changes its pixels, never its size, and is
    not recorded here.  Of the frame so drawn over the code reads the
    size only ([onMouse]): the tracker computes on the frame read at the
    start of an iteration, before anything is drawn into it. *)
Record Tracker : Type := mkTracker {
  back_projection_mode : bool;
  select_object : bool;
  track_object : Z;
  origin : Point;
  selection : Rect;
  original_frame : option Frame;
  object_of_interest : Rect;
  histogram : Histogram;
  paused : bool
}.

(** The state at the start of [main]'s loop. *)
Definition initial_tracker : Tracker :=
  {| back_projection_mode := false;
     select_object := false;
     track_object := 0;
     origin := (0, 0);
     selection := mkRect 0 0 0 0;
     original_frame := None;
     object_of_interest := mkRect 0 0 0 0;
     histogram := empty_histogram;
     paused := false |}.

(** [original_frame.cols] and [original_frame.rows] *)
Definition original_cols (st : Tracker) : Z :=
  match original_frame st with Some f => frame_cols f | None => 0 end.
Definition original_rows (st : Tracker) : Z :=
  match original_frame st with Some f => frame_rows f | None => 0 end.

Definition set_selection (st : Tracker) (s : Rect) : Tracker :=
  {| back_projection_mode := back_projection_mode st;
     select_object := select_object st;
     track_object := track_object st;
     origin := origin st;
     selection := s;
     original_frame := original_frame st;
     object_of_interest := object_of_interest st;
     histogram := histogram st;
     paused := paused st |}.

Definition set_select_object (st : Tracker) (b : bool) : Tracker :=
  {| back_projection_mode := back_projection_mode st;
     select_object := b;
     track_object := track_object st;
     origin := origin st;
     selection := selection st;
     original_frame := original_frame st;
     object_of_interest := object_of_interest st;
     histogram := histogram st;
     paused := paused st |}.

Definition set_track_object (st : Tracker) (t : Z) : Tracker :=
  {| back_projection_mode := back_projection_mode st;
     select_object := select_object st;
     track_object := t;
     origin := origin st;
     selection := selection st;
     original_frame := original_frame st;
     object_of_interest := object_of_interest st;
     histogram := histogram st;
     paused := paused st |}.

Definition set_origin (st : Tracker) (o : Point) : Tracker :=
  {| back_projection_mode := back_projection_mode st;
     select_object := select_object st;
     track_object := track_object st;
     origin := o;
     selection := selection st;
     original_frame := original_frame st;
     object_of_interest := object_of_interest st;
     histogram := histogram st;
     paused := paused st |}.

Definition set_original_frame (st : Tracker) (f : Frame) : Tracker :=
  {| back_projection_mode := back_projection_mode st;
     select_object := select_object st;
     track_object := track_object st;
     origin := origin st;
     selection := selection st;
     original_frame := Some f;
     object_of_interest := object_of_interest st;
     histogram := histogram st;
     paused := paused st |}.

Definition set_object_of_interest (st : Tracker) (w : Rect) : Tracker :=
  {| back_projection_mode := back_projection_mode st;
     select_object := select_object st;
     track_object := track_object st;
     origin := origin st;
     selection := selection st;
     original_frame := original_frame st;
     object_of_interest := w;
     histogram := histogram st;
     paused := paused st |}.

Definition set_histogram (st : Tracker) (h : Histogram) : Tracker :=
  {| back_projection_mode := back_projection_mode st;
     select_object := select_object st;
     track_object := track_object st;
     origin := origin st;
     selection := selection st;
     original_frame := original_frame st;
     object_of_interest := object_of_interest st;
     histogram := h;
     paused := paused st |}.

Definition set_paused (st : Tracker) (b : bool) : Tracker :=
  {| back_projection_mode := back_projection_mode st;
     select_object := select_object st;
     track_object := track_object st;
     origin := origin st;
     selection := selection st;
     original_frame := original_frame st;
     object_of_interest := object_of_interest st;
     histogram := histogram st;
     paused := b |}.

Definition set_back_projection_mode (st : Tracker) (b : bool) : Tracker :=
  {| back_projection_mode := b;
     select_object := select_object st;
     track_object := track_object st;
     origin := origin st;
     selection := selection st;
     original_frame := original_frame st;
     object_of_interest := object_of_interest st;
     histogram := histogram st;
     paused := paused st |}.

(** [onMouse(event, x, y, ...)] *)
Definition onMouse (event : MouseEvent) (x y : Z) (st : Tracker) : Tracker :=
  let st1 :=
    if select_object st then
      set_selection st
        (rect_and (mkRect (Z.min x (fst (origin st))) (Z.min y (snd (origin st)))
                          (Z.abs (x - fst (origin st))) (Z.abs (y - snd (origin st))))
                  (mkRect 0 0 (original_cols st) (original_rows st)))
    else st in
  match event with
  | EVENT_RBUTTONDOWN =>
      set_select_object (set_selection (set_origin st1 (x, y)) (mkRect x y 0 0)) true
  | EVENT_LBUTTONUP =>
      let st2 := set_select_object st1 false in
      if (0 <? rwidth (selection st2)) && (0 <? rheight (selection st2))
      then set_track_object st2 (-1)
      else st2
  | _ => st1
  end.

(** The body of [if (object_of_interest.area() <= 1)]: the new window
    for a frame of [cols] by [rows]. *)
Definition inflate (cols rows : Z) (w : Rect) : Rect :=
  let new_rectangle_size := Z.quot (Z.min cols rows + 5) 6 in
  rect_and (mkRect (rx w - new_rectangle_size) (ry w - new_rectangle_size)
                   (rx w + new_rectangle_size) (ry w + new_rectangle_size))
           (mkRect 0 0 cols rows).

(** [if (track_object < 0) { ... }]: the histogram of the selection. *)
Definition learn (p : Params) (f : Frame) (st : Tracker) : Tracker :=
  set_track_object
    (set_object_of_interest
       (set_histogram st (calcHist f p (selection st)))
       (selection st))
    1.

(** [if (track_object) { ... }] on the frame [f]. *)
Definition track (p : Params) (f : Frame) (st : Tracker) : Tracker :=
  let st1 := if track_object st <? 0 then learn p f st else st in
  let window := snd (CamShift f p (histogram st1) (object_of_interest st1)) in
  set_object_of_interest st1
    (if area window <=? 1
     then inflate (frame_cols f) (frame_rows f) window
     else window).

(** The [#else] branch of the main loop, without its drawing calls.
    These write into the pixels of [original_frame] (lines 979-990, and
    the inversion of the selected region at lines 1001-1005, which runs
    on every iteration, paused or not) and into no other variable of
    [Tracker]. *)
Definition camshift_branch (p : Params) (st : Tracker) : Tracker :=
  if negb (paused st) then
    if track_object st =? 0 then st
    else
      match original_frame st with
      | Some f => track p f st
      | None => st
      end
  else if track_object st <? 0 then set_paused st false
  else st.

(** [switch (character)] after [waitKey(10)]. *)
Definition on_key (character : ascii) (st : Tracker) : Tracker :=
  if Ascii.eqb character "b" then
    set_back_projection_mode st (negb (back_projection_mode st))
  else if Ascii.eqb character "c" then set_track_object st 0
  else if Ascii.eqb character "p" then set_paused st (negb (paused st))
  else st.

(** The part of an iteration that handles a frame: the frame is read
    unless the loop is paused, then the CamShift branch runs. *)
Definition process_frame (p : Params) (f : Frame) (st : Tracker) : Tracker :=
  camshift_branch p (if paused st then st else set_original_frame st f).

(** One iteration of [while (waitKey(1) != 27)]: [next] is the frame the
    capture delivers ([None] when it is empty) and [character] the key
    read by [waitKey(10)].  [None] is a [break]. *)
Definition loop_body (p : Params) (next : option Frame) (character : ascii)
  (st : Tracker) : option Tracker :=
  match next, paused st with
  | None, false => None
  | Some f, _ =>
      if Ascii.eqb character (ascii_of_nat 27) then None
      else Some (on_key character (process_frame p f st))
  | None, true =>
      if Ascii.eqb character (ascii_of_nat 27) then None
      else Some (on_key character (camshift_branch p st))
  end.

(** The states of the tracker, read off the variables. *)
Inductive TrackState : Type :=
| Idle | Selecting | Initializing | Tracking | Paused.

Definition track_state (st : Tracker) : TrackState :=
  if select_object st then Selecting
  else if paused st then Paused
  else if track_object st =? 0 then Idle
  else if track_object st <? 0 then Initializing
  else Tracking.

(** What reaches the tracker between two key presses: a mouse event, or
    a frame of the loop. *)
Inductive Input : Type :=
| Mouse (event : MouseEvent) (x y : Z)
| NextFrame (f : Frame).

Definition step (p : Params) (st : Tracker) (i : Input) : Tracker :=
  match i with
  | Mouse event x y => onMouse event x y st
  | NextFrame f => process_frame p f st
  end.

Definition run (p : Params) (inputs : list Input) (st : Tracker) : Tracker :=
  fold_left (step p) inputs st.

(** An input that can occur while a selection is dragged: any mouse
    event that neither starts nor ends a selection, or a frame. *)
Definition is_update (i : Input) : bool :=
  match i with
  | Mouse EVENT_RBUTTONDOWN _ _ => false
  | Mouse EVENT_LBUTTONUP _ _ => false
  | _ => true
  end.

(** A selection is being dragged, nothing is tracked, the loop is not
    paused and the histogram is [h]. *)
Definition dragging (h : Histogram) (st : Tracker) : Prop :=
  select_object st = true /\ track_object st = 0 /\
  paused st = false /\ histogram st = h.

(** The frame the loop holds after [inputs]: the last one among them,
    or [held] when there is none. *)
Definition last_frame (held : option Frame) (inputs : list Input)
  : option Frame :=
  fold_left (fun o i => match i with
                        | NextFrame f => Some f
                        | Mouse _ _ _ => o
                        end) inputs held.

(** The size of a frame as [(cols, rows)], (0, 0) for the empty [Mat]. *)
Definition frame_size (held : option Frame) : Z * Z :=
  match held with
  | Some f => (frame_cols f, frame_rows f)
  | None => (0, 0)
  end.

End AdaptivePipeline.

(** The window the specification describes for a collapsed search
    window: a square of half-extent [(min(rows, cols) + 5) / 6] centred
    at the window's position, clipped to the frame.  It is here to be
    compared with [inflate]. *)
Definition spec_inflate (cols rows : Z) (w : Rect) : Rect :=
  let half_extent := Z.quot (Z.min cols rows + 5) 6 in
  rect_and (mkRect (rx w - half_extent) (ry w - half_extent)
                   (2 * half_extent) (2 * half_extent))
           (mkRect 0 0 cols rows).

(** ** Image buffers and the contour extraction *)

(** A [cv::Mat] variable is a header that shares a reference-counted
    pixel buffer with every header copied from it.  The store maps the
    address of each live buffer to its pixels; a header is the address
    of its buffer, or [None] for the empty [Mat]. *)
Module MatStore.
Import stdpp.base stdpp.option stdpp.gmap.

Definition Header : Type := option positive.

(** Rows and columns of an image. *)
Definition dims (img : Mat Z) : nat * nat :=
  (length img, length (hd [] img)).

(** [src.copyTo(dst)]: [dst.create(src.size(), src.type())] keeps the
    buffer of [dst] when it already has the size asked for and allocates
    a new one otherwise; then the pixels are copied.  An empty [src]
    releases [dst]. *)
Definition copyTo (src dst : Header) (h : gmap positive (Mat Z))
  : gmap positive (Mat Z) * Header :=
  match src ≫= (h !!.) with
  | None => (h, None)
  | Some img =>
      let reuse :=
        match dst ≫= (h !!.) with
        | Some old => bool_decide (dims old = dims img)
        | None => false
        end in
      match dst, reuse with
      | Some d, true => (<[d := img]> h, Some d)
      | _, _ => let d := fresh (dom h) in (<[d := img]> h, Some d)
      end
  end.

Section Extraction.
Context {cv : Vision}.

(** [findContours(image, contours, hierarchy, ...)]: the contours of the
    image, and the image overwritten in place. *)
Definition find_contours (image : Header) (h : gmap positive (Mat Z))
  : gmap positive (Mat Z) * (list Contour * list Vec4i) :=
  match image with
  | Some a =>
      match h !! a with
      | Some img => (<[a := findContours_leaves img]> h, findContours img)
      | None => (h, ([], []))
      end
  | None => (h, ([], []))
  end.

(** From [Mat contours_frame;] to the end of the block "Object
    tracking", for the mask held by [eroded_dilated_threshold]. *)
Definition object_tracking (max_blob_area : Z)
  (eroded_dilated_threshold : Header) (h : gmap positive (Mat Z))
  : gmap positive (Mat Z) * option Tracked :=
  let contours_frame : Header := None in
  let '(h1, contours_frame) := copyTo eroded_dilated_threshold contours_frame h in
  let '(h2, (contours, hierarchy)) := find_contours contours_frame h1 in
  (h2, track_blobs max_blob_area contours hierarchy).

End Extraction.
End MatStore.

(** ** Geometry the statements refer to *)

(** The rational that a finite coordinate holds. *)
Definition value (x : Float) : Q :=
  match x with
  | Finite q => q
  | _ => 0%Q
  end.

(** The midpoint of a segment, exactly. *)
Definition midpoint (a b : Point2f) : Q * Q :=
  ((value (fst a) + value (fst b)) / 2, (value (snd a) + value (snd b)) / 2)%Q.

(** [p] is a pixel nearest to [a], up to [slack]: off by at most half a
    pixel and [slack] in each coordinate. *)
Definition nearest_pixel (slack : Q) (a : Q * Q) (p : Point) : Prop :=
  (Qabs (fst a - inject_Z (fst p)) <= (1 # 2) + slack)%Q /\
  (Qabs (snd a - inject_Z (snd p)) <= (1 # 2) + slack)%Q.


(** The Euclidean distance between two pixels, a real number. *)
Definition euclidean (p q : Point) : R :=
  sqrt (IZR ((fst p - fst q) ^ 2 + (snd p - snd q) ^ 2)).

(** The length of side [j] of a rectangle, from corner [j] to corner
    [j + 1] modulo 4, a real number. *)
Definition side (r : RotatedRect) (j : Z) : R :=
  let a := rectangle_points r j in
  let b := rectangle_points r ((j + 1) mod 4) in
  sqrt ((Q2R (value (fst a)) - Q2R (value (fst b))) *
        (Q2R (value (fst a)) - Q2R (value (fst b))) +
        (Q2R (value (snd a)) - Q2R (value (snd b))) *
        (Q2R (value (snd a)) - Q2R (value (snd b)))).

(** Rectangles to run the pose estimate on, each with its corners in
    the order and with the [float] values that [RotatedRect::points]
    gives them.  [tilted_square] is the square of side 50 about
    (50.5, 60.5) turned by 75 degrees, corners near (19.88, 42.82),
    (68.18, 29.88), (81.12, 78.18) and (32.82, 91.12).  [tilted_rect]
    is the rectangle of 40 by 16 about the same point turned by 30
    degrees, corners near (29.18, 57.43), (37.18, 43.57), (71.82, 63.57)
    and (63.82, 77.43). *)
Definition tilted_square : RotatedRect :=
  mkRotatedRect
    (Finite (651473 # 32768), Finite (701601 # 16384))
    (Finite (1117023 # 16384), Finite (15666449 # 524288))
    (Finite (2658095 # 32768), Finite (1280863 # 16384))
    (Finite (537761 # 16384), Finite (2985775 # 32768)).

Definition tilted_rect : RotatedRect :=
  mkRotatedRect
    (Finite (7649229 # 262144), Finite (7527229 # 131072))
    (Finite (9746381 # 262144), Finite (11422085 # 262144))
    (Finite (4706829 # 65536), Finite (8332483 # 131072))
    (Finite (16730163 # 262144), Finite (5074335 # 65536)).

(** The rectangle of 1024 by 10 about (3e9, 3e9), not turned.  At this
    distance two neighbouring [float]s are 256 apart: the ordinates
    3e9 - 5 and 3e9 + 5 are both 3e9, and corners 0 and 1 coincide, as
    do corners 2 and 3. *)
Definition distant_rect : RotatedRect :=
  mkRotatedRect
    (Finite 2999999488, Finite 3000000000) (Finite 2999999488, Finite 3000000000)
    (Finite 3000000512, Finite 3000000000) (Finite 3000000512, Finite 3000000000).

(** The rectangle of size [FLT_MAX] by [FLT_MAX] about
    (-2.488e31, 2.558e31) turned by 270 degrees.  Its corners are
    finite: each coordinate is [2 ^ 127 + 2 ^ 104] or
    [2 ^ 127 - 3 * 2 ^ 103], with a sign. *)
Definition far_rect : RotatedRect :=
  let near := inject_Z (2 ^ 127 - 3 * 2 ^ 103) in
  let far := inject_Z (2 ^ 127 + 2 ^ 104) in
  mkRotatedRect (Finite near, Finite far) (Finite (- far), Finite far)
                (Finite (- far), Finite (- near)) (Finite near, Finite (- near)).

(** ** The contours the loop visits *)

(** [visits contours hierarchy i regions]: starting at index [i] and
    following [hierarchy[i][0]] until it is negative, the loop visits
    the contours [regions], each with its index, in this order, and
    never indexes outside [contours] or [hierarchy]. *)
Inductive visits (contours : list Contour) (hierarchy : list Vec4i)
  : Z -> list (Z * Contour) -> Prop :=
| visits_end (i : Z) : i < 0 -> visits contours hierarchy i []
| visits_next (i : Z) (contour : Contour) (h : Vec4i)
    (regions : list (Z * Contour)) :
    0 <= i ->
    nth_error contours (Z.to_nat i) = Some contour ->
    nth_error hierarchy (Z.to_nat i) = Some h ->
    visits contours hierarchy (next_contour h) regions ->
    visits contours hierarchy i ((i, contour) :: regions).

Section Selection.
Context {cv : Vision}.

(** The loop body folded over the regions in the order visited. *)
Definition select (max_blob_area : Z) (regions : list (Z * Contour)) (b : Blob)
  : Blob :=
  fold_left (fun b ic => blob_step max_blob_area (snd ic) (fst ic) b) regions b.

(** The area of a region, [moments(contour).m00]. *)
Definition region_area (ic : Z * Contour) : Q := m00 (moments (snd ic)).

(** The region passes the area filter. *)
Definition qualifies (max_blob_area : Z) (ic : Z * Contour) : bool :=
  area_within_limit max_blob_area (region_area ic).

(** No region passes the area filter. *)
Definition none_qualifies (max_blob_area : Z) (regions : list (Z * Contour))
  : Prop :=
  Forall (fun jc => qualifies max_blob_area jc = false) regions.

(** Among the regions [before ++ ic :: after] that pass the filter,
    [ic] is the first of largest area: strictly larger than those
    visited before it, at least as large as those visited after it. *)
Definition first_largest (max_blob_area : Z) (before : list (Z * Contour))
  (ic : Z * Contour) (after : list (Z * Contour)) : Prop :=
  qualifies max_blob_area ic = true /\
  Forall (fun jc => qualifies max_blob_area jc = true ->
                    (region_area jc < region_area ic)%Q) before /\
  Forall (fun jc => qualifies max_blob_area jc = true ->
                    (region_area jc <= region_area ic)%Q) after.

End Selection.

(** ** An implementation of [Vision] to run the model on *)

(** The sums of Green's formula over the sides of a polygon, from the
    corner [prev] on. *)
Fixpoint green_sums (prev : Point) (contour : list Point) : Z * Z * Z :=
  match contour with
  | [] => (0, 0, 0)
  | p :: rest =>
      let dxy := fst prev * snd p - fst p * snd prev in
      let '(a00, a10, a01) := green_sums p rest in
      (a00 + dxy, a10 + dxy * (fst prev + fst p), a01 + dxy * (snd prev + snd p))
  end.

(** The moments of a polygon as OpenCV computes them for a contour:
    the area is never negative. *)
Definition polygon_moments (contour : Contour) : Moments :=
  let '(a00, a10, a01) := green_sums (last contour (0, 0)) contour in
  let sign := Z.sgn a00 in
  mkMoments (inject_Z (sign * a00) / 2)
            (inject_Z (sign * a10) / 6)
            (inject_Z (sign * a01) / 6).

(** The upright bounding box of a contour, as a rotated rectangle. *)
Definition bounding_box (contour : Contour) : RotatedRect :=
  let xs := map fst contour in
  let ys := map snd contour in
  let x_lo := Finite (inject_Z (fold_right Z.min (hd 0 xs) xs)) in
  let x_hi := Finite (inject_Z (fold_right Z.max (hd 0 xs) xs)) in
  let y_lo := Finite (inject_Z (fold_right Z.min (hd 0 ys) ys)) in
  let y_hi := Finite (inject_Z (fold_right Z.max (hd 0 ys) ys)) in
  mkRotatedRect (x_lo, y_hi) (x_lo, y_lo) (x_hi, y_lo) (x_hi, y_hi).

(** [fitEllipse] is played by the bounding box; [findContours] finds
    nothing and blanks the image. *)
Definition sample_vision : Vision :=
  {| moments := polygon_moments;
     fitEllipse := bounding_box;
     findContours := fun _ => ([], []);
     findContours_leaves := mat_map (fun _ => 0) |}.

(** Three contours: a square of side 10 given by its four corners, the
    same square given by eight points, and a 20 by 5 box given by six
    points. *)
Definition square_4 : Contour := [(10, 10); (10, 20); (20, 20); (20, 10)].
Definition square_8 : Contour :=
  [(40, 10); (40, 15); (40, 20); (45, 20); (50, 20); (50, 15); (50, 10); (45, 10)].
Definition box_6 : Contour :=
  [(100, 100); (100, 105); (110, 105); (120, 105); (120, 100); (110, 100)].

(** A hierarchy of one contour, and one of three contours linked
    0, 1, 2. *)
Definition alone : list Vec4i := [(-1, -1, -1, -1)].
Definition three_linked : list Vec4i :=
  [(1, -1, -1, -1); (2, 0, -1, -1); (-1, 1, -1, -1)].

(** ** An implementation of [Camshift] to run the model on *)

(** A frame is its size, [(cols, rows)]; a histogram is the rectangle
    it was learned from; [CamShift] loses the target at once: the window
    it leaves has the position of the window it was given and no
    extent. *)
Definition losing_camshift : Camshift :=
  {| Frame := (Z * Z)%type;
     Histogram := option Rect;
     empty_histogram := None;
     frame_cols := fst;
     frame_rows := snd;
     calcHist := fun _ _ sel => Some sel;
     CamShift := fun _ _ _ w =>
       (mkRotatedRect (Finite 0, Finite 0) (Finite 0, Finite 0)
                      (Finite 0, Finite 0) (Finite 0, Finite 0),
        mkRect (rx w) (ry w) 0 0) |}.

(** A tracker of [losing_camshift] that tracks a 50 by 50 window at
    (100, 100) on frames of 640 by 480. *)
Definition tracking_at_100_100 : @Tracker losing_camshift :=
  @mkTracker losing_camshift
    false                          (* back_projection_mode *)
    false                          (* select_object *)
    1                              (* track_object *)
    (100, 100)                     (* origin *)
    (mkRect 100 100 50 50)         (* selection *)
    (Some (640, 480))              (* original_frame *)
    (mkRect 100 100 50 50)         (* object_of_interest *)
    (Some (mkRect 100 100 50 50))  (* histogram *)
    false.                         (* paused *)

(** A store with one buffer, a 2 by 2 mask at address 1. *)
Definition checker_mask : Mat Z := [[0; 255]; [255; 0]].

(** ** Further parts of [main.cpp] *)

(** *** Rectangles *)

(** [Rect::contains]: the pixel [p] belongs to [r]. *)
Definition contains (r : Rect) (p : Point) : Prop :=
  rx r <= fst p < rx r + rwidth r /\ ry r <= snd p < ry r + rheight r.

(** [r] has no negative side and lies within a frame of [cols] columns
    and [rows] rows. *)
Definition inside (cols rows : Z) (r : Rect) : Prop :=
  0 <= rx r /\ 0 <= ry r /\ 0 <= rwidth r /\ 0 <= rheight r /\
  rx r + rwidth r <= cols /\ ry r + rheight r <= rows.

(** *** The saturation/value mask of the adaptive pipeline *)

(** [inRange(HSV_frame, Scalar(0, saturation_min, value_min),
    Scalar(180, saturation_max, value_max), saturation_value_threshold)] *)
Definition saturation_value_threshold (p : Params) (HSV_frame : Mat Pixel)
  : Mat Z :=
  mat_map (inRange (0, saturation_min p, value_min p)
                   (180, saturation_max p, value_max p)) HSV_frame.

(** The combined mask of the static pipeline, on one pixel. *)
Definition threshold_pixel (p : Params) (px : Pixel) : Z :=
  addWeighted
    (inRange (hue_1_min p, saturation_min p, value_min p)
             (hue_1_max p, saturation_max p, value_max p) px) 1
    (inRange (hue_2_min p, saturation_min p, value_min p)
             (hue_2_max p, saturation_max p, value_max p) px) 1 0.

(** *** [int_to_string] and [draw_object_position] *)

(** [int_to_string]: what [stringStream << number] writes for an [int],
    its decimal digits after a minus sign when it is negative. *)
Definition int_to_string (number : Z) : String.string :=
  DecimalString.NilZero.string_of_int (Z.to_int number).

(** What [draw_object_position] draws, in the order of its calls. *)
Inductive Shape : Type :=
| Circle (center : Point) (radius : Z)
  (** [circle(frame, center, radius, LOCATION_COLOR, LOCATION_THICKNESS)] *)
| Segment (p q : Point)
  (** [line(frame, p, q, LOCATION_COLOR, LOCATION_THICKNESS)] *)
| Text (text : String.string) (org : Point).
  (** [putText(frame, text, org, 1, 1, LOCATION_COLOR, 1, 8)] *)

(** The string ["[" + int_to_string(x) + "," + int_to_string(y) + "]"]. *)
Definition coordinates_text (x y : Z) : String.string :=
  String.String "["
    (String.append (int_to_string x)
       (String.String ","
          (String.append (int_to_string y)
             (String.String "]" String.EmptyString)))).

(** [draw_object_position(x, y, radius, frame)].  [with_circle] is
    true where [CAMSHIFT] is not defined; [video_size] is
    [resized_video_size] as [(width, height)].  A [double] passed where
    [Point] or [circle] takes an [int] is truncated. *)
Definition draw_object_position (with_circle : bool) (video_size : Z * Z)
  (x y : Z) (radius : Q) : list Shape :=
  let width := fst video_size in
  let height := snd video_size in
  (if with_circle then [Circle (x, y) (trunc radius)] else []) ++
  [ Segment (x, y)
      (if Qltb 0 (inject_Z y - radius)
       then (x, trunc (inject_Z y - radius)) else (x, 0));
    Segment (x, y)
      (if Qltb (inject_Z y + radius) (inject_Z height)
       then (x, trunc (inject_Z y + radius)) else (x, height));
    Segment (x, y)
      (if Qltb 0 (inject_Z x - radius)
       then (trunc (inject_Z x - radius), y) else (0, y));
    Segment (x, y)
      (if Qltb (inject_Z x + radius) (inject_Z width)
       then (trunc (inject_Z x + radius), y) else (width, y));
    Text (coordinates_text x y) (x, trunc (inject_Z y + radius + 20)) ].

(** The far end of every [Segment] of a drawing. *)
Definition arm_ends (shapes : list Shape) : list Point :=
  flat_map (fun s => match s with Segment _ q => [q] | _ => [] end) shapes.

(** *** The panels of the main window *)

(** The output frame of the four frame mode, as [(cols, rows)], from
    the sizes [(width, height)] of the blurred frame, the threshold and
    the eroded and dilated threshold. *)
Definition four_frame_output (blured threshold eroded : Z * Z) : Z * Z :=
  (fst blured + fst threshold, snd blured + snd eroded).

(** The four regions of [output] the frames are copied to:
    [blured_frame_new], [threshold_new], [eroded_dilated_threshold_new]
    and [original_frame_new]. *)
Definition four_frame_panels (blured threshold eroded original : Z * Z)
  : list Rect :=
  [ mkRect 0 0 (fst blured) (snd blured);
    mkRect (fst blured) 0 (fst threshold) (snd threshold);
    mkRect 0 (snd blured) (fst eroded) (snd eroded);
    mkRect (fst eroded) (snd blured) (fst original) (snd original) ].

(** The same for the two frame mode. *)
Definition two_frame_output (threshold original : Z * Z) : Z * Z :=
  (fst threshold + fst original, snd threshold).

Definition two_frame_panels (threshold original : Z * Z) : list Rect :=
  [ mkRect 0 0 (fst threshold) (snd threshold);
    mkRect (fst threshold) 0 (fst original) (snd original) ].

(** Two rectangles share no pixel. *)
Definition disjoint (a b : Rect) : Prop :=
  forall p : Point, ~ (contains a p /\ contains b p).

(** *** The states the adaptive loop can reach *)

Section Reachable.
Context {cs : Camshift}.

(** The states reached from the start of [main] by mouse events and
    iterations of the loop, when every frame the capture delivers has
    [cols] columns and [rows] rows.  The parameters may change between
    iterations. *)
Inductive reachable (cols rows : Z) : Tracker -> Prop :=
| reach_start : reachable cols rows initial_tracker
| reach_mouse (st : Tracker) (event : MouseEvent) (x y : Z) :
    reachable cols rows st ->
    reachable cols rows (onMouse event x y st)
| reach_iteration (st st' : Tracker) (p : Params) (next : option Frame)
    (character : ascii) :
    reachable cols rows st ->
    (forall f, next = Some f -> frame_cols f = cols /\ frame_rows f = rows) ->
    loop_body p next character st = Some st' ->
    reachable cols rows st'.

(** The selection is empty, or it is a rectangle of positive width and
    height within the frame. *)
Definition selection_ok (cols rows : Z) (r : Rect) : Prop :=
  (rwidth r = 0 /\ rheight r = 0) \/
  (0 < rwidth r /\ 0 < rheight r /\ inside cols rows r).

(** What holds in every state the loop can reach: [track_object] is
    -1, 0 or 1; the selection is empty or within the frame; and a
    non-empty selection or a tracking mode means a frame has been
    read. *)
Definition tracker_ok (cols rows : Z) (st : Tracker) : Prop :=
  (track_object st = -1 \/ track_object st = 0 \/ track_object st = 1) /\
  selection_ok cols rows (selection st) /\
  (forall f, original_frame st = Some f ->
     frame_cols f = cols /\ frame_rows f = rows) /\
  (0 < rwidth (selection st) -> original_frame st <> None) /\
  (track_object st <> 0 -> original_frame st <> None).

End Reachable.

(** A tracker of [losing_camshift] whose window sits on the top border
    of a 640 by 480 frame. *)
Definition tracking_at_top_border : @Tracker losing_camshift :=
  @mkTracker losing_camshift
    false                          (* back_projection_mode *)
    false                          (* select_object *)
    1                              (* track_object *)
    (100, 0)                       (* origin *)
    (mkRect 100 0 50 50)           (* selection *)
    (Some (640, 480))              (* original_frame *)
    (mkRect 100 0 50 50)           (* object_of_interest *)
    (Some (mkRect 100 0 50 50))    (* histogram *)
    false.                         (* paused *)

(** *** The histogram window *)

(** [histogram_size], and the size of [histogram_image] as
    [(cols, rows)]. *)
Definition histogram_size : Z := 16.
Definition histogram_image_size : Z * Z := (320, 200).

(** One [rectangle(histogram_image, from, to, colour, -1, 8)], with the
    hue of its colour. *)
Record Bar : Type := mkBar { bar_from : Point; bar_to : Point; bar_hue : Z }.

(** [saturate_cast<uchar>(i * 180. / histogram_size)] *)
Definition bin_hue (i : Z) : Z :=
  saturate_uchar (inject_Z i * 180 / inject_Z histogram_size).

(** The bar of bin [i] for the value [h] of [histogram.at<float>(i)].
    [h * histogram_image.rows / 255] is computed in [float], the two
    [int]s being converted first. *)
Definition histogram_bar (i : Z) (h : Q) : Bar :=
  let bins_width := Z.quot (fst histogram_image_size) histogram_size in
  let rows := snd histogram_image_size in
  let val := saturate_int
               (f_div binary32
                  (f_mul binary32 (Finite h) (Finite (inject_Z rows)))
                  (Finite 255)) in
  mkBar (i * bins_width, rows) ((i + 1) * bins_width, rows - val) (bin_hue i).

(** The loop over the bins; [histogram] holds the values of the
    normalised histogram. *)
Definition histogram_bars (histogram : list Q) : list Bar :=
  map (fun i => histogram_bar (Z.of_nat i) (nth i histogram 0%Q))
      (seq 0 (Z.to_nat histogram_size)).

(** * Properties *)

(** ** Trackbar handler *)

Lemma rem2_even (z : Z) : (Z.rem z 2 =? 0) = Z.even z.
Proof.
  destruct (Z.even z) eqn:E.
  - apply Z.even_spec in E. destruct E as [k ->].
    apply Z.eqb_eq. rewrite Z.mul_comm. apply Z.rem_mul. lia.
  - apply Z.eqb_neq. intros H.
    apply Z.rem_divide in H; [|lia]. destruct H as [k ->].
    rewrite Z.even_mul in E. rewrite orb_true_r in E. discriminate.
Qed.

Lemma on_trackbar_blur (p : Params) :
  blur_kernel_size (on_trackbar p) =
  if Z.even (blur_kernel_size p) then blur_kernel_size p + 1 else blur_kernel_size p.
Proof.
  unfold on_trackbar. rewrite rem2_even.
  destruct (Z.even (blur_kernel_size p));
    repeat (match goal with |- context [if ?c then _ else _] => destruct c end);
    reflexivity.
Qed.

Lemma on_trackbar_erode (p : Params) :
  erode_size (on_trackbar p) = if erode_size p =? 0 then 1 else erode_size p.
Proof.
  unfold on_trackbar.
  destruct (Z.rem (blur_kernel_size p) 2 =? 0); cbn [erode_size set_blur];
    destruct (erode_size p =? 0) eqn:E; cbn;
    try (apply Z.eqb_eq in E; rewrite E);
    repeat (match goal with |- context [if ?c then _ else _] => destruct c end);
    reflexivity.
Qed.

Lemma on_trackbar_dilate (p : Params) :
  dilate_size (on_trackbar p) = if dilate_size p =? 0 then 1 else dilate_size p.
Proof.
  unfold on_trackbar.
  destruct (Z.rem (blur_kernel_size p) 2 =? 0); cbn [erode_size set_blur];
    destruct (erode_size p =? 0); cbn;
    destruct (dilate_size p =? 0) eqn:E; cbn;
    try (apply Z.eqb_eq in E; rewrite E); reflexivity.
Qed.

(** The handler leaves the colour thresholds alone. *)
Lemma on_trackbar_thresholds (p : Params) :
  hue_1_min (on_trackbar p) = hue_1_min p /\
  hue_1_max (on_trackbar p) = hue_1_max p /\
  hue_2_min (on_trackbar p) = hue_2_min p /\
  hue_2_max (on_trackbar p) = hue_2_max p /\
  saturation_min (on_trackbar p) = saturation_min p /\
  saturation_max (on_trackbar p) = saturation_max p /\
  value_min (on_trackbar p) = value_min p /\
  value_max (on_trackbar p) = value_max p.
Proof.
  unfold on_trackbar.
  destruct (Z.rem (blur_kernel_size p) 2 =? 0); cbn;
    destruct (erode_size p =? 0); cbn;
    destruct (dilate_size p =? 0); cbn; repeat split; reflexivity.
Qed.

(** C7.  Whenever [on_trackbar] runs, the settings are corrected, not
    rejected: an even blur kernel size becomes the next odd value (20
    becomes 21), an erode size of 0 becomes 1, a dilate size of 0
    becomes 1, and an odd blur size and non-zero erode and dilate sizes
    come out as they went in. *)
Theorem on_trackbar_normalizes (p : Params) :
  (Z.Even (blur_kernel_size p) ->
     blur_kernel_size (on_trackbar p) = blur_kernel_size p + 1 /\
     Z.Odd (blur_kernel_size (on_trackbar p))) /\
  (Z.Odd (blur_kernel_size p) ->
     blur_kernel_size (on_trackbar p) = blur_kernel_size p) /\
  blur_kernel_size (on_trackbar (set_blur p 20)) = 21 /\
  (erode_size p = 0 -> erode_size (on_trackbar p) = 1) /\
  (erode_size p <> 0 -> erode_size (on_trackbar p) = erode_size p) /\
  (dilate_size p = 0 -> dilate_size (on_trackbar p) = 1) /\
  (dilate_size p <> 0 -> dilate_size (on_trackbar p) = dilate_size p).
Proof.
  rewrite !on_trackbar_blur, on_trackbar_erode, on_trackbar_dilate.
  split; [|split; [|split; [|split; [|split; [|split]]]]].
  - intros H. pose proof H as E. apply Z.even_spec in E. rewrite E.
    split; [reflexivity|]. destruct H as [k Hk]. exists k. lia.
  - intros H. apply Z.odd_spec in H. rewrite <- Z.negb_odd, H. reflexivity.
  - reflexivity.
  - intros ->. reflexivity.
  - intros H. apply Z.eqb_neq in H. rewrite H. reflexivity.
  - intros ->. reflexivity.
  - intros H. apply Z.eqb_neq in H. rewrite H. reflexivity.
Qed.

(** ** Colour threshold *)

Lemma nth_error_zip_with {A B C : Type} (f : A -> B -> C) (l : list A)
  (k : list B) (n : nat) :
  nth_error (zip_with f l k) n =
  match nth_error l n, nth_error k n with
  | Some a, Some b => Some (f a b)
  | _, _ => None
  end.
Proof.
  revert k n. induction l as [|a l IH]; intros [|b k] [|n]; cbn; try reflexivity.
  - destruct (nth_error l n); reflexivity.
  - apply IH.
Qed.

Lemma mat_at_map {A B : Type} (f : A -> B) (m : Mat A) (row col : nat) :
  mat_at (mat_map f m) row col = option_map f (mat_at m row col).
Proof.
  unfold mat_at, mat_map. rewrite nth_error_map.
  destruct (nth_error m row); cbn; [apply nth_error_map | reflexivity].
Qed.

Lemma mat_at_zip {A B C : Type} (f : A -> B -> C) (m : Mat A) (n : Mat B)
  (row col : nat) (a : A) (b : B) :
  mat_at m row col = Some a -> mat_at n row col = Some b ->
  mat_at (mat_zip f m n) row col = Some (f a b).
Proof.
  unfold mat_at, mat_zip. rewrite nth_error_zip_with.
  destruct (nth_error m row) as [lm|]; [|discriminate].
  destruct (nth_error n row) as [ln|]; [|discriminate].
  intros Ha Hb. rewrite nth_error_zip_with, Ha, Hb. reflexivity.
Qed.

(** [inRange] answers 255 exactly on the pixels inside the box. *)
Lemma inRange_spec (h_lo s_lo v_lo h_hi s_hi v_hi h s v : Z) :
  (inRange (h_lo, s_lo, v_lo) (h_hi, s_hi, v_hi) (h, s, v) = 255 /\
   h_lo <= h <= h_hi /\ s_lo <= s <= s_hi /\ v_lo <= v <= v_hi) \/
  (inRange (h_lo, s_lo, v_lo) (h_hi, s_hi, v_hi) (h, s, v) = 0 /\
   ~ (h_lo <= h <= h_hi /\ s_lo <= s <= s_hi /\ v_lo <= v <= v_hi)).
Proof.
  unfold inRange.
  destruct (h_lo <=? h) eqn:E1, (h <=? h_hi) eqn:E2, (s_lo <=? s) eqn:E3,
    (s <=? s_hi) eqn:E4, (v_lo <=? v) eqn:E5, (v <=? v_hi) eqn:E6; cbn;
    rewrite ?Z.leb_le, ?Z.leb_gt in *;
    first [left; split; [reflexivity | lia] | right; split; [reflexivity | lia]].
Qed.

(** Adding two masks with weights 1 and 1 saturates at 255: the sum is
    the union of the two masks. *)
Lemma addWeighted_union (a b : Z) :
  (a = 0 \/ a = 255) -> (b = 0 \/ b = 255) ->
  addWeighted a 1 b 1 0 = if (a =? 0) && (b =? 0) then 0 else 255.
Proof. intros [-> | ->] [-> | ->]; reflexivity. Qed.

(** C8.  A pixel of the combined mask is foreground (255, the only
    non-zero value) if and only if its hue lies in [hue_1_min,
    hue_1_max] or in [hue_2_min, hue_2_max], its saturation in
    [saturation_min, saturation_max] and its value in [value_min,
    value_max]. *)
Theorem threshold_foreground_iff (p : Params) (HSV_frame : Mat Pixel)
  (row col : nat) (h s v : Z) :
  mat_at HSV_frame row col = Some (h, s, v) ->
  exists t : Z,
    mat_at (threshold p HSV_frame) row col = Some t /\
    (t = 0 \/ t = 255) /\
    (t <> 0 <->
     (hue_1_min p <= h <= hue_1_max p \/ hue_2_min p <= h <= hue_2_max p) /\
     saturation_min p <= s <= saturation_max p /\
     value_min p <= v <= value_max p).
Proof.
  intros Hpx. unfold threshold.
  eexists. split.
  - apply mat_at_zip.
    + unfold lower_red_threshold. rewrite mat_at_map, Hpx. reflexivity.
    + unfold upper_red_threshold. rewrite mat_at_map, Hpx. reflexivity.
  - destruct (inRange_spec (hue_1_min p) (saturation_min p) (value_min p)
                (hue_1_max p) (saturation_max p) (value_max p) h s v)
      as [[-> H1] | [-> H1]];
    destruct (inRange_spec (hue_2_min p) (saturation_min p) (value_min p)
                (hue_2_max p) (saturation_max p) (value_max p) h s v)
      as [[-> H2] | [-> H2]];
    rewrite addWeighted_union by auto; cbn; split; auto; split; try lia.
Qed.

(** The theorem at the first pixel of a two-pixel frame, with the
    initial thresholds. *)
Lemma threshold_foreground_iff_witness :
  exists t : Z,
    mat_at (threshold default_params [[(5, 200, 150); (90, 200, 150)]]) 0 0
      = Some t /\
    (t = 0 \/ t = 255) /\
    (t <> 0 <->
     (hue_1_min default_params <= 5 <= hue_1_max default_params \/
      hue_2_min default_params <= 5 <= hue_2_max default_params) /\
     saturation_min default_params <= 200 <= saturation_max default_params /\
     value_min default_params <= 150 <= value_max default_params).
Proof.
  apply (threshold_foreground_iff default_params
           [[(5, 200, 150); (90, 200, 150)]] 0 0 5 200 150).
  reflexivity.
Defined.
(** ** Floating-point arithmetic *)

Lemma Qltb_lt (a b : Q) : Qltb a b = true <-> (a < b)%Q.
Proof. unfold Qltb, Qlt. apply Z.ltb_lt. Qed.

Lemma Qltb_ge (a b : Q) : Qltb a b = false <-> (b <= a)%Q.
Proof. unfold Qltb, Qle. apply Z.ltb_ge. Qed.

(** ** Powers of two *)

Lemma pow2_pos (e : Z) : (0 < pow2 e)%Q.
Proof. apply Qpower_0_lt. reflexivity. Qed.

Lemma pow2_add (a b : Z) : (pow2 (a + b) == pow2 a * pow2 b)%Q.
Proof. apply Qpower_plus. discriminate. Qed.

Lemma pow2_sub (a b : Z) : (pow2 (a - b) == pow2 a / pow2 b)%Q.
Proof. apply Qpower_minus. discriminate. Qed.

Lemma pow2_le (a b : Z) : a <= b -> (pow2 a <= pow2 b)%Q.
Proof. intros H. apply Qpower_le_compat_l; [exact H | discriminate]. Qed.

Lemma pow2_lt (a b : Z) : a < b -> (pow2 a < pow2 b)%Q.
Proof. intros H. apply Qpower_lt_compat_l; [exact H | reflexivity]. Qed.

Lemma pow2_le_inv (a b : Z) : (pow2 a <= pow2 b)%Q -> a <= b.
Proof. intros H. apply (Qpower_le_compat_l_inv 2); [exact H | reflexivity]. Qed.

Lemma pow2_lt_inv (a b : Z) : (pow2 a < pow2 b)%Q -> a < b.
Proof. intros H. apply (Qpower_lt_compat_l_inv 2); [exact H | reflexivity]. Qed.

Lemma pow2_Z (e : Z) : 0 <= e -> (pow2 e == inject_Z (2 ^ e))%Q.
Proof. intros H. unfold pow2. rewrite Zpower_Qpower by exact H. reflexivity. Qed.

Lemma pow2_succ (e : Z) : (pow2 (e + 1) == 2 * pow2 e)%Q.
Proof. rewrite pow2_add. change (pow2 1) with 2%Q. ring. Qed.

(** ** Rounding to an integer *)

Lemma cvRound_near (q : Q) : (Qabs (q - inject_Z (cvRound q)) <= 1 # 2)%Q.
Proof.
  unfold cvRound.
  pose proof (Qfloor_le q) as Hlo. pose proof (Qlt_floor q) as Hhi.
  rewrite inject_Z_plus in Hhi. change (inject_Z 1) with 1%Q in Hhi.
  apply Qabs_Qle_condition.
  destruct (Qltb (q - inject_Z (Qfloor q)) (1 # 2)) eqn:E1.
  - apply Qltb_lt in E1. lra.
  - apply Qltb_ge in E1.
    destruct (Qltb (1 # 2) (q - inject_Z (Qfloor q))) eqn:E2.
    + rewrite inject_Z_plus. change (inject_Z 1) with 1%Q. lra.
    + apply Qltb_ge in E2. destruct (Z.even (Qfloor q)).
      * lra.
      * rewrite inject_Z_plus. change (inject_Z 1) with 1%Q. lra.
Qed.

Lemma cvRound_le (b : Z) (q : Q) : (q <= inject_Z b)%Q -> cvRound q <= b.
Proof.
  intros Hb. pose proof (cvRound_near q) as H.
  apply Qabs_Qle_condition in H. set (z := cvRound q) in *.
  assert (z < b + 1); [|lia].
  rewrite Zlt_Qlt, inject_Z_plus. change (inject_Z 1) with 1%Q. lra.
Qed.

Lemma cvRound_ge (a : Z) (q : Q) : (inject_Z a <= q)%Q -> a <= cvRound q.
Proof.
  intros Ha. pose proof (cvRound_near q) as H.
  apply Qabs_Qle_condition in H. set (z := cvRound q) in *.
  assert (a < z + 1); [|lia].
  rewrite Zlt_Qlt, inject_Z_plus. change (inject_Z 1) with 1%Q. lra.
Qed.

(** ** The exponent of a rational *)

Lemma ilog2_spec (a : Q) :
  (0 < a)%Q -> (pow2 (ilog2 a) <= a)%Q /\ (a < pow2 (ilog2 a + 1))%Q.
Proof.
  intros Ha. unfold ilog2.
  set (e := Z.log2 (Qnum a) - Z.log2 (QDen a)).
  assert (Hn : 0 < Qnum a).
  { unfold Qlt in Ha. cbn in Ha. lia. }
  assert (Hd : 0 < QDen a) by lia.
  pose proof (Z.log2_spec _ Hn) as [Hn1 Hn2].
  pose proof (Z.log2_spec _ Hd) as [Hd1 Hd2].
  pose proof (Z.log2_nonneg (Qnum a)) as Hln.
  pose proof (Z.log2_nonneg (QDen a)) as Hld.
  set (ln := Z.log2 (Qnum a)) in *. set (ld := Z.log2 (QDen a)) in *.
  assert (Ea : (a == inject_Z (Qnum a) / inject_Z (QDen a))%Q).
  { rewrite <- (Qmake_Qdiv (Qnum a) (Qden a)). destruct a; reflexivity. }
  assert (Hd0 : (0 < inject_Z (QDen a))%Q) by (rewrite <- (Zlt_Qlt 0); exact Hd).
  assert (Hbounds : (pow2 (e - 1) < a)%Q /\ (a < pow2 (e + 1))%Q).
  { unfold e. split.
    - replace (ln - ld - 1) with (ln - (ld + 1)) by lia.
      rewrite pow2_sub, !pow2_Z by lia.
      assert (H2 : (0 < inject_Z (2 ^ (ld + 1)))%Q)
        by (rewrite <- (Zlt_Qlt 0); lia).
      rewrite Ea. apply Qlt_shift_div_l; [exact Hd0|].
      unfold Qdiv. rewrite <- Qmult_assoc, (Qmult_comm (/ _)), Qmult_assoc.
      apply Qlt_shift_div_r; [exact H2|].
      rewrite <- !inject_Z_mult, <- Zlt_Qlt.
      fold ln ld in Hn1, Hd2. replace (Z.succ ld) with (ld + 1) in Hd2 by lia. nia.
    - replace (ln - ld + 1) with (ln + 1 - ld) by lia.
      rewrite pow2_sub, !pow2_Z by lia.
      assert (H2 : (0 < inject_Z (2 ^ ld))%Q)
        by (rewrite <- (Zlt_Qlt 0); lia).
      rewrite Ea. apply Qlt_shift_div_r; [exact Hd0|].
      unfold Qdiv. rewrite <- Qmult_assoc, (Qmult_comm (/ _)), Qmult_assoc.
      apply Qlt_shift_div_l; [exact H2|].
      rewrite <- !inject_Z_mult, <- Zlt_Qlt.
      replace (Z.succ ln) with (ln + 1) in Hn2 by lia. nia. }
  destruct Hbounds as [Hlo Hhi].
  destruct (Qltb a (pow2 e)) eqn:E.
  - apply Qltb_lt in E. replace (e - 1 + 1) with e by lia.
    split; [apply Qlt_le_weak, Hlo | exact E].
  - apply Qltb_ge in E. split; [exact E | exact Hhi].
Qed.

Lemma ilog2_le (a : Q) (k : Z) : (0 < a)%Q -> (a <= pow2 k)%Q -> ilog2 a <= k.
Proof.
  intros Ha Hk. destruct (ilog2_spec a Ha) as [H _].
  apply pow2_le_inv. lra.
Qed.

Lemma ilog2_lt (a : Q) (k : Z) : (0 < a)%Q -> (a < pow2 k)%Q -> ilog2 a < k.
Proof.
  intros Ha Hk. destruct (ilog2_spec a Ha) as [H _].
  apply pow2_lt_inv. lra.
Qed.

(** ** Rounding to a multiple of a power of two *)

Lemma nearest_error (u : Z) (a : Q) : (Qabs (nearest u a - a) <= pow2 (u - 1))%Q.
Proof.
  unfold nearest. pose proof (cvRound_near (a / pow2 u)) as H.
  pose proof (pow2_pos u) as Hu.
  assert (E : (pow2 (u - 1) == (1 # 2) * pow2 u)%Q).
  { rewrite pow2_sub. change (pow2 1) with 2%Q. field. }
  rewrite E.
  assert (Ea : (inject_Z (cvRound (a / pow2 u)) * pow2 u - a
                == - (a / pow2 u - inject_Z (cvRound (a / pow2 u))) * pow2 u)%Q).
  { field. lra. }
  rewrite Ea, Qabs_Qmult, Qabs_opp, (Qabs_pos (pow2 u)) by lra.
  apply Qmult_le_compat_r; [exact H | lra].
Qed.

Lemma grid_coarser (u u' b : Z) :
  u <= u' -> (inject_Z b * pow2 u' == inject_Z (b * 2 ^ (u' - u)) * pow2 u)%Q.
Proof.
  intros H. rewrite inject_Z_mult, <- pow2_Z by lia.
  rewrite <- Qmult_assoc, <- pow2_add. replace (u' - u + u) with u' by lia.
  reflexivity.
Qed.

Lemma nearest_le (u u' b : Z) (a : Q) :
  u <= u' -> (a <= inject_Z b * pow2 u')%Q ->
  (nearest u a <= inject_Z b * pow2 u')%Q.
Proof.
  intros H Ha. rewrite grid_coarser by exact H. rewrite grid_coarser in Ha by exact H.
  pose proof (pow2_pos u) as Hu.
  unfold nearest. apply Qmult_le_compat_r; [|lra].
  rewrite <- Zle_Qle. apply cvRound_le.
  apply Qle_shift_div_r; [exact Hu | exact Ha].
Qed.

Lemma nearest_ge (u u' b : Z) (a : Q) :
  u <= u' -> (inject_Z b * pow2 u' <= a)%Q ->
  (inject_Z b * pow2 u' <= nearest u a)%Q.
Proof.
  intros H Ha. rewrite grid_coarser by exact H. rewrite grid_coarser in Ha by exact H.
  pose proof (pow2_pos u) as Hu.
  unfold nearest. apply Qmult_le_compat_r; [|lra].
  rewrite <- Zle_Qle. apply cvRound_ge.
  apply Qle_shift_div_l; [exact Hu | exact Ha].
Qed.

Lemma nearest_nonneg (u : Z) (a : Q) : (0 <= a)%Q -> (0 <= nearest u a)%Q.
Proof.
  intros H. pose proof (nearest_ge u u 0 a ltac:(lia)) as H0.
  rewrite Qmult_0_l in H0. auto.
Qed.

(** ** Rounding to a format *)

Lemma exponent_le (f : Format) (a : Q) (k : Z) :
  (0 < a)%Q -> (a < pow2 (k + precision f))%Q -> least_exponent f <= k ->
  exponent f a <= k.
Proof.
  intros Ha Hk Hl. unfold exponent.
  pose proof (ilog2_lt a _ Ha Hk). lia.
Qed.

Lemma round_eq (f : Format) (q : Q) :
  round f q =
  if Qltb (nearest (exponent f (Qabs q)) (Qabs q)) (pow2 (overflow_exponent f))
  then Finite (Qred (if Qltb q 0
                     then - nearest (exponent f (Qabs q)) (Qabs q)
                     else nearest (exponent f (Qabs q)) (Qabs q)))
  else Infinity (Qltb q 0).
Proof. reflexivity. Qed.

(** A value between two points of a grid that the format contains is
    rounded to a value between them. *)
Lemma round_grid (f : Format) (q : Q) (k lo hi : Z) :
  least_exponent f <= k ->
  (Qabs q < pow2 (k + precision f))%Q ->
  (inject_Z lo * pow2 k <= q)%Q -> (q <= inject_Z hi * pow2 k)%Q ->
  (inject_Z (- lo) * pow2 k < pow2 (overflow_exponent f))%Q ->
  (inject_Z hi * pow2 k < pow2 (overflow_exponent f))%Q ->
  exists r : Q,
    round f q = Finite r /\
    (inject_Z lo * pow2 k <= r)%Q /\ (r <= inject_Z hi * pow2 k)%Q.
Proof.
  intros Hl Hq Hlo Hhi Hlo' Hhi'. rewrite round_eq.
  pose proof (pow2_pos k) as Hk.
  pose proof (Qabs_nonneg q) as Ha0.
  set (a := Qabs q) in *.
  assert (Hu : (a == 0)%Q \/ exponent f a <= k).
  { destruct (Qlt_le_dec 0 a) as [Hpos | Hneg].
    - right. apply exponent_le; assumption.
    - left. lra. }
  assert (Hgrid : forall b : Z, (a <= inject_Z b * pow2 k)%Q ->
            (nearest (exponent f a) a <= inject_Z b * pow2 k)%Q).
  { intros b Hb. destruct Hu as [E | Hu].
    - unfold nearest. unfold Qdiv.
      assert (E' : forall x : Q, (a * x == inject_Z 0)%Q)
        by (intros x; rewrite E; ring).
      pose proof (cvRound_le 0 (a * / pow2 (exponent f a))
                    ltac:(rewrite E'; apply Qle_refl)) as H1.
      pose proof (cvRound_ge 0 (a * / pow2 (exponent f a))
                    ltac:(rewrite E'; apply Qle_refl)) as H2.
      replace (cvRound (a * / pow2 (exponent f a))) with 0 by lia.
      rewrite Qmult_0_l. lra.
    - apply nearest_le; assumption. }
  assert (Hgrid' : forall b : Z, (inject_Z b * pow2 k <= a)%Q ->
            (inject_Z b * pow2 k <= nearest (exponent f a) a)%Q).
  { intros b Hb. destruct Hu as [E | Hu].
    - pose proof (nearest_nonneg (exponent f a) a Ha0). lra.
    - apply nearest_ge; assumption. }
  pose proof (nearest_nonneg (exponent f a) a Ha0) as Hr0.
  set (r := nearest (exponent f a) a) in *.
  destruct (Qltb q 0) eqn:Es.
  - apply Qltb_lt in Es.
    assert (Ea : (a == - q)%Q) by (unfold a; rewrite Qabs_neg; lra).
    assert (Hr : (r <= inject_Z (- lo) * pow2 k)%Q).
    { apply Hgrid. rewrite inject_Z_opp. lra. }
    replace (Qltb r (pow2 (overflow_exponent f))) with true
      by (symmetry; apply Qltb_lt; lra).
    eexists. split; [reflexivity|]. rewrite Qred_correct.
    rewrite inject_Z_opp in Hr. split; [lra|].
    assert (Hr' : (inject_Z (- hi) * pow2 k <= r)%Q).
    { apply Hgrid'. rewrite inject_Z_opp. lra. }
    rewrite inject_Z_opp in Hr'. lra.
  - apply Qltb_ge in Es.
    assert (Ea : (a == q)%Q) by (unfold a; rewrite Qabs_pos; lra).
    assert (Hr : (r <= inject_Z hi * pow2 k)%Q).
    { apply Hgrid. lra. }
    replace (Qltb r (pow2 (overflow_exponent f))) with true
      by (symmetry; apply Qltb_lt; lra).
    eexists. split; [reflexivity|]. rewrite Qred_correct.
    split; [|lra].
    assert (Hr' : (inject_Z lo * pow2 k <= r)%Q).
    { apply Hgrid'. lra. }
    lra.
Qed.

(** The error of rounding a value of magnitude at most [2 ^ k]. *)
Lemma round_error (f : Format) (q r : Q) (k : Z) :
  (Qabs q <= pow2 k)%Q -> round f q = Finite r ->
  (Qabs (r - q) <= pow2 (Z.max (k - precision f) (least_exponent f - 1)))%Q.
Proof.
  intros Hq. rewrite round_eq.
  pose proof (Qabs_nonneg q) as Ha0.
  set (a := Qabs q) in *.
  destruct (Qltb _ (pow2 (overflow_exponent f))); [|discriminate].
  intros H. injection H as <-. rewrite Qred_correct.
  assert (Herr : (Qabs (nearest (exponent f a) a - a)
                  <= pow2 (Z.max (k - precision f) (least_exponent f - 1)))%Q).
  { destruct (Qlt_le_dec 0 a) as [Hpos | Hneg].
    - eapply Qle_trans; [apply nearest_error|]. apply pow2_le.
      unfold exponent. pose proof (ilog2_le a k Hpos Hq). lia.
    - assert (E : (a == 0)%Q) by lra.
      pose proof (nearest_nonneg (exponent f a) a Ha0) as H0.
      pose proof (nearest_le (exponent f a) (exponent f a) 0 a ltac:(lia)) as H1.
      rewrite Qmult_0_l in H1. specialize (H1 Hneg).
      assert (E' : (nearest (exponent f a) a - a == 0)%Q) by lra.
      rewrite E'. cbn. apply Qlt_le_weak, pow2_pos. }
  destruct (Qltb q 0) eqn:Es.
  - apply Qltb_lt in Es.
    assert (Ea : (a == - q)%Q) by (unfold a; rewrite Qabs_neg; lra).
    set (n := nearest (exponent f a) a) in *.
    assert (E : (- n - q == - (n - a))%Q) by lra.
    rewrite E, Qabs_opp. exact Herr.
  - apply Qltb_ge in Es.
    assert (Ea : (a == q)%Q) by (unfold a; rewrite Qabs_pos; lra).
    set (n := nearest (exponent f a) a) in *.
    assert (E : (n - q == n - a)%Q) by lra.
    rewrite E. exact Herr.
Qed.

(** A value of magnitude at most [2 ^ k], below the overflow threshold,
    is rounded to a finite value of magnitude at most [2 ^ k]. *)
Lemma round_finite (f : Format) (q : Q) (k : Z) :
  1 <= precision f -> least_exponent f <= k -> k < overflow_exponent f ->
  (Qabs q <= pow2 k)%Q ->
  exists r : Q,
    round f q = Finite r /\
    (Qabs r <= pow2 k)%Q /\
    (Qabs (r - q) <= pow2 (Z.max (k - precision f) (least_exponent f - 1)))%Q /\
    ((0 <= q)%Q -> (0 <= r)%Q).
Proof.
  intros Hp Hl Ho Hq.
  pose proof (pow2_pos k) as Hk.
  pose proof (pow2_lt k (k + precision f) ltac:(lia)) as Hkp.
  pose proof (pow2_lt k (overflow_exponent f) Ho) as Hko.
  apply Qabs_Qle_condition in Hq.
  assert (Hq' : (Qabs q < pow2 (k + precision f))%Q).
  { apply Qabs_case; intros; lra. }
  destruct (round_grid f q k (-1) 1 Hl Hq') as (r & Hr & Hlo & Hhi).
  { change (inject_Z (-1)) with (-1)%Q. lra. }
  { change (inject_Z 1) with 1%Q. lra. }
  { change (inject_Z (- -1)) with 1%Q. lra. }
  { change (inject_Z 1) with 1%Q. lra. }
  change (inject_Z (-1)) with (-1)%Q in Hlo. change (inject_Z 1) with 1%Q in Hhi.
  exists r. split; [exact Hr|]. split.
  { apply Qabs_Qle_condition. lra. }
  split.
  { apply (round_error f q r k); [apply Qabs_Qle_condition; lra | exact Hr]. }
  intros H0.
  destruct (round_grid f q k 0 1 Hl Hq') as (r' & Hr' & Hlo' & _).
  { change (inject_Z 0) with 0%Q. lra. }
  { change (inject_Z 1) with 1%Q. lra. }
  { change (inject_Z (- 0)) with 0%Q. lra. }
  { change (inject_Z 1) with 1%Q. lra. }
  rewrite Hr in Hr'. injection Hr' as <-.
  change (inject_Z 0) with 0%Q in Hlo'. lra.
Qed.

(** An integer that the format contains bounds the rounded value as it
    bounds the value. *)
Lemma round_between (f : Format) (q : Q) (lo hi : Z) :
  least_exponent f <= 0 -> 0 <= precision f < overflow_exponent f ->
  - 2 ^ precision f < lo -> hi < 2 ^ precision f ->
  (inject_Z lo <= q)%Q -> (q <= inject_Z hi)%Q ->
  exists r : Q,
    round f q = Finite r /\ (inject_Z lo <= r)%Q /\ (r <= inject_Z hi)%Q.
Proof.
  intros Hl Hp Hlo Hhi Hq1 Hq2.
  assert (Hpow : (pow2 (precision f) == inject_Z (2 ^ precision f))%Q)
    by (apply pow2_Z; lia).
  assert (Hover : (pow2 (precision f) < pow2 (overflow_exponent f))%Q)
    by (apply pow2_lt; lia).
  assert (Hlo' : (- inject_Z (2 ^ precision f) < inject_Z lo)%Q)
    by (rewrite <- inject_Z_opp, <- Zlt_Qlt; exact Hlo).
  assert (Hhi' : (inject_Z hi < inject_Z (2 ^ precision f))%Q)
    by (rewrite <- Zlt_Qlt; exact Hhi).
  destruct (round_grid f q 0 lo hi Hl) as (r & Hr & H1 & H2).
  - replace (0 + precision f) with (precision f) by lia.
    apply Qabs_case; intros; lra.
  - change (pow2 0) with 1%Q. lra.
  - change (pow2 0) with 1%Q. lra.
  - change (pow2 0) with 1%Q. rewrite inject_Z_opp. lra.
  - change (pow2 0) with 1%Q. lra.
  - change (pow2 0) with 1%Q in H1, H2. exists r. split; [exact Hr|]. lra.
Qed.

(** An integer that the format contains is rounded to itself. *)
Lemma round_integer (f : Format) (n : Z) :
  least_exponent f <= 0 -> 0 <= precision f < overflow_exponent f ->
  - 2 ^ precision f < n < 2 ^ precision f ->
  exists r : Q, round f (inject_Z n) = Finite r /\ (r == inject_Z n)%Q.
Proof.
  intros Hl Hp Hn.
  destruct (round_between f (inject_Z n) n n Hl Hp) as (r & Hr & H1 & H2);
    try lia; try apply Qle_refl.
  exists r. split; [exact Hr | lra].
Qed.

(** ** Square roots *)

Lemma Q2R_inject_Z (n : Z) : Q2R (inject_Z n) = IZR n.
Proof. unfold Q2R. cbn. field. Qed.

Lemma Q2R_0 : Q2R 0 = 0%R.
Proof. unfold Q2R. cbn. field. Qed.

Lemma Q2R_pow2_pos (e : Z) : (0 < Q2R (pow2 e))%R.
Proof. rewrite <- Q2R_0. apply Qlt_Rlt, pow2_pos. Qed.

Lemma nearest_root_spec (t : Q) :
  (0 <= t)%Q ->
  0 <= nearest_root t /\
  (t <= inject_Z (nearest_root t * nearest_root t + nearest_root t) + (1 # 4))%Q /\
  (1 <= nearest_root t ->
   (inject_Z (nearest_root t * nearest_root t - nearest_root t) + (1 # 4) <= t)%Q).
Proof.
  intros Ht. unfold nearest_root.
  assert (Hf : 0 <= Qfloor t).
  { rewrite <- (Qfloor_Z 0). apply Qfloor_resp_le. exact Ht. }
  pose proof (Z.sqrt_spec _ Hf) as [Hs1 Hs2].
  pose proof (Z.sqrt_nonneg (Qfloor t)) as Hs0.
  pose proof (Qfloor_le t) as Hlo. pose proof (Qlt_floor t) as Hhi.
  set (s := Z.sqrt (Qfloor t)) in *.
  assert (H1 : (inject_Z (s * s) <= t)%Q).
  { eapply Qle_trans; [|exact Hlo]. rewrite <- Zle_Qle. exact Hs1. }
  assert (H2 : (t < inject_Z ((s + 1) * (s + 1)))%Q).
  { eapply Qlt_le_trans; [exact Hhi|]. rewrite <- Zle_Qle. lia. }
  assert (E1 : forall m : Z,
            (inject_Z (m * m + m) == inject_Z m * inject_Z m + inject_Z m)%Q).
  { intros m. rewrite inject_Z_plus, inject_Z_mult. reflexivity. }
  assert (E2 : forall m : Z,
            (inject_Z (m * m - m) == inject_Z m * inject_Z m - inject_Z m)%Q).
  { intros m. unfold Z.sub. rewrite inject_Z_plus, inject_Z_mult, inject_Z_opp.
    reflexivity. }
  assert (E3 : (inject_Z (s + 1) == inject_Z s + 1)%Q).
  { rewrite inject_Z_plus. reflexivity. }
  assert (Hs0' : (0 <= inject_Z s)%Q) by (rewrite <- (Zle_Qle 0); exact Hs0).
  rewrite inject_Z_mult in H1. rewrite inject_Z_mult, E3 in H2.
  assert (Case_s : (t <= inject_Z (s * s + s) + (1 # 4))%Q ->
            0 <= s /\ (t <= inject_Z (s * s + s) + (1 # 4))%Q /\
            (1 <= s -> (inject_Z (s * s - s) + (1 # 4) <= t)%Q)).
  { intros H. split; [exact Hs0|]. split; [exact H|].
    intros Hs. rewrite E2.
    assert ((1 <= inject_Z s)%Q) by (rewrite <- (Zle_Qle 1); exact Hs). nra. }
  assert (Case_s1 : (inject_Z (s * s + s) + (1 # 4) <= t)%Q ->
            0 <= s + 1 /\
            (t <= inject_Z ((s + 1) * (s + 1) + (s + 1)) + (1 # 4))%Q /\
            (1 <= s + 1 ->
             (inject_Z ((s + 1) * (s + 1) - (s + 1)) + (1 # 4) <= t)%Q)).
  { intros H. split; [lia|]. rewrite E1, E2, E3. rewrite E1 in H.
    split; [nra|]. intros _. nra. }
  destruct (Qltb t (inject_Z (s * s + s) + (1 # 4))) eqn:Ea.
  - apply Qltb_lt in Ea. apply Case_s. lra.
  - apply Qltb_ge in Ea.
    destruct (Qltb (inject_Z (s * s + s) + (1 # 4)) t) eqn:Eb.
    + apply Case_s1. exact Ea.
    + apply Qltb_ge in Eb. destruct (Z.even s).
      * apply Case_s. exact Eb.
      * apply Case_s1. exact Ea.
Qed.

Lemma nearest_root_le (t : Q) (M : Z) :
  (0 <= t)%Q -> 0 <= M -> (t <= inject_Z (M * M))%Q -> nearest_root t <= M.
Proof.
  intros Ht HM Hle.
  destruct (nearest_root_spec t Ht) as (H0 & _ & Hlow).
  destruct (Z_le_gt_dec (nearest_root t) M) as [H | H]; [exact H|].
  specialize (Hlow ltac:(lia)).
  set (m := nearest_root t) in *.
  assert (Hz : M * M < m * m - m + 1) by nia.
  assert (Hq : (inject_Z (m * m - m) + (1 # 4) <= inject_Z (M * M))%Q) by lra.
  assert (Hq' : (inject_Z (m * m - m) < inject_Z (M * M))%Q) by lra.
  rewrite <- Zlt_Qlt in Hq'. lia.
Qed.

Lemma nearest_root_near (t : Q) :
  (0 <= t)%Q -> (Rabs (IZR (nearest_root t) - sqrt (Q2R t)) <= 1 / 2)%R.
Proof.
  intros Ht.
  destruct (nearest_root_spec t Ht) as (H0 & Hup & Hlow).
  set (m := nearest_root t) in *.
  assert (Ht' : (0 <= Q2R t)%R) by (rewrite <- Q2R_0; apply Qle_Rle, Ht).
  assert (Hm : (0 <= IZR m)%R) by (apply IZR_le; exact H0).
  apply Qle_Rle in Hup. rewrite Q2R_plus, Q2R_inject_Z in Hup.
  rewrite plus_IZR, mult_IZR in Hup.
  replace (Q2R (1 # 4)) with (1 / 4)%R in Hup by (unfold Q2R; cbn; field).
  assert (Hhi : (sqrt (Q2R t) <= IZR m + 1 / 2)%R).
  { rewrite <- (sqrt_square (IZR m + 1 / 2)) by lra.
    apply sqrt_le_1_alt. lra. }
  pose proof (sqrt_pos (Q2R t)) as Hs.
  apply Rabs_le. split; [lra|].
  destruct (Z_le_gt_dec 1 m) as [H1 | H1].
  - specialize (Hlow H1). apply Qle_Rle in Hlow.
    rewrite Q2R_plus, Q2R_inject_Z, minus_IZR, mult_IZR in Hlow.
    replace (Q2R (1 # 4)) with (1 / 4)%R in Hlow by (unfold Q2R; cbn; field).
    assert (H1' : (1 <= IZR m)%R) by (apply IZR_le; exact H1).
    assert (Hlo : (IZR m - 1 / 2 <= sqrt (Q2R t))%R).
    { rewrite <- (sqrt_square (IZR m - 1 / 2)) by lra.
      apply sqrt_le_1_alt. lra. }
    lra.
  - assert (E : m = 0) by lia. rewrite E. lra.
Qed.

(** The square root of a value of at most [4 ^ k]. *)
Lemma f_sqrt_finite (f : Format) (q : Q) (k : Z) :
  1 <= precision f -> least_exponent f <= k ->
  (0 <= q)%Q -> (q <= pow2 (2 * k))%Q ->
  exists s : Q,
    f_sqrt f (Finite q) = Finite s /\
    (0 <= s)%Q /\ (s <= pow2 k)%Q /\
    (Rabs (Q2R s - sqrt (Q2R q))
     <= Q2R (pow2 (Z.max (k - precision f) (least_exponent f - 1))))%R.
Proof.
  intros Hp Hl Hq0 Hqk. unfold f_sqrt.
  replace (Qltb q 0) with false by (symmetry; apply Qltb_ge; exact Hq0).
  set (u := Z.max (ilog2 q / 2 - (precision f - 1)) (least_exponent f)).
  pose proof (pow2_pos u) as Hu. pose proof (pow2_pos (2 * u)) as Hu2.
  assert (E2u : (pow2 (2 * u) == pow2 u * pow2 u)%Q).
  { replace (2 * u) with (u + u) by lia. apply pow2_add. }
  set (t := (q / pow2 (2 * u))%Q).
  assert (Ht : (0 <= t)%Q).
  { unfold t. apply Qle_shift_div_l; [exact Hu2 | lra]. }
  assert (Eq : (q == t * (pow2 u * pow2 u))%Q).
  { unfold t. rewrite <- E2u. field. lra. }
  assert (Huk : (q == 0)%Q \/ u <= Z.max (k - precision f + 1) (least_exponent f)).
  { destruct (Qlt_le_dec 0 q) as [Hpos | Hneg]; [right | left; lra].
    pose proof (ilog2_le q (2 * k) Hpos Hqk) as He.
    assert (ilog2 q / 2 <= k) by (apply Z.div_le_upper_bound; lia).
    unfold u. lia. }
  exists (Qred (inject_Z (nearest_root t) * pow2 u)).
  split; [reflexivity|]. rewrite !Qred_correct.
  destruct (nearest_root_spec t Ht) as (Hm0 & _ & _).
  assert (Hm0' : (0 <= inject_Z (nearest_root t))%Q)
    by (rewrite <- (Zle_Qle 0); exact Hm0).
  split; [nra|].
  split.
  { destruct Huk as [E0 | Huk].
    - assert (Et : (t == 0)%Q) by (unfold t; rewrite E0; field; lra).
      assert (Hm : nearest_root t <= 0).
      { apply nearest_root_le; [exact Ht | lia | rewrite Et; apply Qle_refl]. }
      replace (nearest_root t) with 0 by lia. rewrite Qmult_0_l.
      apply Qlt_le_weak, pow2_pos.
    - assert (Hku : u <= k) by lia.
      assert (Hm : nearest_root t <= 2 ^ (k - u)).
      { apply nearest_root_le; [exact Ht | lia |].
        rewrite inject_Z_mult, <- pow2_Z by lia.
        unfold t. apply Qle_shift_div_r; [exact Hu2|].
        rewrite <- pow2_add, <- pow2_add.
        replace (k - u + (k - u) + 2 * u) with (2 * k) by lia. exact Hqk. }
      apply (Qle_trans _ (inject_Z (2 ^ (k - u)) * pow2 u)).
      + apply Qmult_le_compat_r; [|lra]. rewrite <- Zle_Qle. exact Hm.
      + rewrite <- pow2_Z, <- pow2_add by lia.
        replace (k - u + u) with k by lia. apply Qle_refl. }
  assert (Hroot : sqrt (Q2R q) = (sqrt (Q2R t) * Q2R (pow2 u))%R).
  { rewrite (Qeq_eqR _ _ Eq), !Q2R_mult.
    pose proof (Q2R_pow2_pos u).
    rewrite sqrt_mult_alt by (rewrite <- Q2R_0; apply Qle_Rle, Ht).
    rewrite sqrt_square by lra. reflexivity. }
  rewrite Hroot, Q2R_mult, Q2R_inject_Z.
  pose proof (nearest_root_near t Ht) as Hnear.
  pose proof (Q2R_pow2_pos u) as HP.
  replace (IZR (nearest_root t) * Q2R (pow2 u) - sqrt (Q2R t) * Q2R (pow2 u))%R
    with ((IZR (nearest_root t) - sqrt (Q2R t)) * Q2R (pow2 u))%R by ring.
  rewrite Rabs_mult, (Rabs_pos_eq (Q2R (pow2 u))) by lra.
  destruct Huk as [E0 | Huk].
  - assert (Et : (t == 0)%Q) by (unfold t; rewrite E0; field; lra).
    assert (Hm : nearest_root t <= 0).
    { apply nearest_root_le; [exact Ht | lia | rewrite Et; apply Qle_refl]. }
    replace (nearest_root t) with 0 by lia.
    rewrite (Qeq_eqR _ _ Et), Q2R_0, sqrt_0.
    replace (0 - 0)%R with 0%R by ring. rewrite Rabs_R0, Rmult_0_l.
    apply Rlt_le, Q2R_pow2_pos.
  - apply (Rle_trans _ (1 / 2 * Q2R (pow2 u))%R).
    + apply Rmult_le_compat_r; [lra | exact Hnear].
    + assert (E : (pow2 (u - 1) == (1 # 2) * pow2 u)%Q).
      { rewrite pow2_sub. change (pow2 1) with 2%Q. field. }
      replace (1 / 2 * Q2R (pow2 u))%R with (Q2R (pow2 (u - 1))).
      * apply Qle_Rle, pow2_le. lia.
      * rewrite (Qeq_eqR _ _ E), Q2R_mult. unfold Q2R at 1. cbn. field.
Qed.

(** ** Operations on finite values *)

Lemma pow2_double (k : Z) : (pow2 k + pow2 k == pow2 (k + 1))%Q.
Proof. rewrite pow2_succ. ring. Qed.

Lemma f_add_finite (f : Format) (a b : Q) (k : Z) :
  1 <= precision f -> least_exponent f <= k + 1 -> k + 1 < overflow_exponent f ->
  (Qabs a <= pow2 k)%Q -> (Qabs b <= pow2 k)%Q ->
  exists r : Q,
    f_add f (Finite a) (Finite b) = Finite r /\
    (Qabs r <= pow2 (k + 1))%Q /\
    (Qabs (r - (a + b))
     <= pow2 (Z.max (k + 1 - precision f) (least_exponent f - 1)))%Q /\
    ((0 <= a + b)%Q -> (0 <= r)%Q).
Proof.
  intros Hp Hl Ho Ha Hb. cbn [f_add].
  apply round_finite; try assumption.
  eapply Qle_trans; [apply Qabs_triangle|]. rewrite <- pow2_double.
  apply Qplus_le_compat; assumption.
Qed.

Lemma f_sub_finite (f : Format) (a b : Q) (k : Z) :
  1 <= precision f -> least_exponent f <= k + 1 -> k + 1 < overflow_exponent f ->
  (Qabs a <= pow2 k)%Q -> (Qabs b <= pow2 k)%Q ->
  exists r : Q,
    f_sub f (Finite a) (Finite b) = Finite r /\
    (Qabs r <= pow2 (k + 1))%Q /\
    (Qabs (r - (a - b))
     <= pow2 (Z.max (k + 1 - precision f) (least_exponent f - 1)))%Q.
Proof.
  intros Hp Hl Ho Ha Hb. unfold f_sub. cbn [f_neg].
  destruct (f_add_finite f a (- b) k Hp Hl Ho Ha) as (r & Hr & H1 & H2 & _).
  { rewrite Qabs_opp. exact Hb. }
  exists r. split; [exact Hr|]. split; [exact H1|]. exact H2.
Qed.

Lemma f_mul_finite (f : Format) (a b : Q) (ka kb : Z) :
  1 <= precision f -> least_exponent f <= ka + kb ->
  ka + kb < overflow_exponent f ->
  (Qabs a <= pow2 ka)%Q -> (Qabs b <= pow2 kb)%Q ->
  exists r : Q,
    f_mul f (Finite a) (Finite b) = Finite r /\
    (Qabs r <= pow2 (ka + kb))%Q /\
    (Qabs (r - a * b)
     <= pow2 (Z.max (ka + kb - precision f) (least_exponent f - 1)))%Q /\
    ((0 <= a * b)%Q -> (0 <= r)%Q).
Proof.
  intros Hp Hl Ho Ha Hb. cbn [f_mul].
  apply round_finite; try assumption.
  rewrite Qabs_Qmult, pow2_add.
  pose proof (Qabs_nonneg a). pose proof (Qabs_nonneg b).
  pose proof (pow2_pos ka). pose proof (pow2_pos kb).
  apply (Qle_trans _ (pow2 ka * Qabs b)).
  - apply Qmult_le_compat_r; assumption.
  - apply Qmult_le_l; assumption.
Qed.

(** ** Real numbers *)

Lemma Q2R_abs (q : Q) : Q2R (Qabs q) = Rabs (Q2R q).
Proof.
  apply Qabs_case; intros H.
  - rewrite Rabs_pos_eq; [reflexivity|]. rewrite <- Q2R_0. apply Qle_Rle, H.
  - rewrite Q2R_opp, Rabs_left1; [reflexivity|]. rewrite <- Q2R_0. apply Qle_Rle, H.
Qed.

Lemma Qabs_Rabs (q b : Q) : (Qabs q <= b)%Q -> (Rabs (Q2R q) <= Q2R b)%R.
Proof. intros H. rewrite <- Q2R_abs. apply Qle_Rle, H. Qed.

Lemma Rabs_bound (a b : R) : (Rabs a <= b)%R -> (- b <= a <= b)%R.
Proof. unfold Rabs. destruct (Rcase_abs a); lra. Qed.

(** Two square roots are as close as the root of the distance of
    their arguments. *)
Lemma sqrt_close (a b e : R) :
  (0 <= a)%R -> (0 <= b)%R -> (0 <= e)%R -> (Rabs (a - b) <= e * e)%R ->
  (Rabs (sqrt a - sqrt b) <= e)%R.
Proof.
  intros Ha Hb He H. apply Rabs_bound in H.
  assert (Hstep : forall x y : R, (0 <= x)%R -> (0 <= y)%R -> (y - x <= e * e)%R ->
            (sqrt y <= sqrt x + e)%R).
  { intros x y Hx Hy Hxy. pose proof (sqrt_pos x) as Hsx.
    rewrite <- (sqrt_square (sqrt x + e)) by lra.
    apply sqrt_le_1_alt.
    pose proof (sqrt_sqrt x Hx). nra. }
  pose proof (Hstep a b Ha Hb ltac:(lra)).
  pose proof (Hstep b a Hb Ha ltac:(lra)).
  apply Rabs_le. lra.
Qed.

Lemma sqrt_2_bound : (sqrt 2 <= 142 / 100)%R.
Proof.
  rewrite <- (sqrt_square (142 / 100)) by lra.
  apply sqrt_le_1_alt. lra.
Qed.

(** Moving a vector by at most [e] in each coordinate changes its
    length by at most [sqrt 2 * e]. *)
Lemma length_perturbed (x y x' y' e : R) :
  (Rabs (x' - x) <= e)%R -> (Rabs (y' - y) <= e)%R ->
  (Rabs (sqrt (x' * x' + y' * y') - sqrt (x * x + y * y)) <= sqrt 2 * e)%R.
Proof.
  intros Hx Hy.
  assert (He : (0 <= e)%R) by (pose proof (Rabs_pos (x' - x)); lra).
  apply Rabs_bound in Hx, Hy.
  assert (Hd : (dist_euc x' y' x y <= sqrt 2 * e)%R).
  { unfold dist_euc, Rsqr.
    replace (sqrt 2 * e)%R with (sqrt (2 * (e * e))).
    - apply sqrt_le_1_alt. nra.
    - rewrite sqrt_mult by nra. rewrite sqrt_square by lra. reflexivity. }
  pose proof (triangle x' y' 0 0 x y) as T1.
  pose proof (triangle x y 0 0 x' y') as T2.
  rewrite (distance_symm x y x' y') in T2.
  assert (E : forall u v : R, dist_euc u v 0 0 = sqrt (u * u + v * v)).
  { intros u v. unfold dist_euc, Rsqr. rewrite !Rminus_0_r. reflexivity. }
  rewrite !E in T1, T2. apply Rabs_le. lra.
Qed.
(** ** The length of a vector *)

(** Settles the side conditions on the format. *)
Ltac format_side :=
  cbn [precision least_exponent overflow_exponent binary32 binary64]; lia.

(** [norm] of a finite vector: the result is finite, and off the exact
    length by the rounding of the sum of squares and of the root. *)
Lemma norm_spec (dx dy : Q) (k : Z) :
  -500 <= k <= 500 ->
  (Qabs dx <= pow2 k)%Q -> (Qabs dy <= pow2 k)%Q ->
  exists L : Q,
    norm (Finite dx, Finite dy) = Finite L /\
    (0 <= L)%Q /\ (L <= pow2 (k + 1))%Q /\
    (Rabs (Q2R L - sqrt (Q2R dx * Q2R dx + Q2R dy * Q2R dy))
     <= Q2R (pow2 (k - 25)) + Q2R (pow2 (k - 52)))%R.
Proof.
  intros Hk Hx Hy. unfold norm. cbn [fst snd].
  destruct (f_mul_finite binary64 dx dx k k) as (sx & Esx & Bsx & Rsx & Psx);
    try assumption; try format_side.
  destruct (f_mul_finite binary64 dy dy k k) as (sy & Esy & Bsy & Rsy & Psy);
    try assumption; try format_side.
  cbn [precision least_exponent binary32 binary64] in Rsx, Rsy.
  replace (Z.max (k + k - 53) (-1074 - 1)) with (2 * k - 53) in Rsx, Rsy by lia.
  specialize (Psx ltac:(nra)). specialize (Psy ltac:(nra)).
  rewrite Esx, Esy.
  destruct (f_add_finite binary64 sx sy (k + k)) as (S & ES & BS & RS & PS);
    try assumption; try format_side.
  cbn [precision least_exponent binary32 binary64] in RS.
  replace (Z.max (k + k + 1 - 53) (-1074 - 1)) with (2 * k - 52) in RS by lia.
  specialize (PS ltac:(lra)). rewrite ES.
  destruct (f_sqrt_finite binary64 S (k + 1)) as (L & EL & L0 & LB & RL);
    try format_side; try assumption.
  { apply Qabs_Qle_condition in BS. destruct BS as [_ BS].
    eapply Qle_trans; [exact BS|]. apply pow2_le. lia. }
  cbn [precision least_exponent binary32 binary64] in RL.
  replace (Z.max (k + 1 - 53) (-1074 - 1)) with (k - 52) in RL by lia.
  exists L. split; [exact EL|]. split; [exact L0|]. split; [exact LB|].
  (* the sum of squares, as computed and exactly *)
  assert (HS : (Qabs (S - (dx * dx + dy * dy)) <= pow2 (2 * k - 51))%Q).
  { assert (E : (S - (dx * dx + dy * dy)
                 == (S - (sx + sy)) + ((sx - dx * dx) + (sy - dy * dy)))%Q) by ring.
    rewrite E.
    eapply Qle_trans; [apply Qabs_triangle|].
    assert (Hin : (Qabs ((sx - dx * dx) + (sy - dy * dy))
                   <= pow2 (2 * k - 52))%Q).
    { eapply Qle_trans; [apply Qabs_triangle|].
      replace (2 * k - 52) with (2 * k - 53 + 1) by lia.
      rewrite <- pow2_double. apply Qplus_le_compat; assumption. }
    replace (2 * k - 51) with (2 * k - 52 + 1) by lia.
    rewrite <- pow2_double. apply Qplus_le_compat; assumption. }
  apply Qabs_Rabs in HS.
  rewrite Q2R_minus, Q2R_plus, !Q2R_mult in HS.
  assert (Hroot : (Rabs (sqrt (Q2R S)
                         - sqrt (Q2R dx * Q2R dx + Q2R dy * Q2R dy))
                   <= Q2R (pow2 (k - 25)))%R).
  { apply sqrt_close.
    - rewrite <- Q2R_0. apply Qle_Rle, PS.
    - nra.
    - apply Rlt_le, Q2R_pow2_pos.
    - eapply Rle_trans; [exact HS|].
      rewrite <- Q2R_mult. apply Qle_Rle. rewrite <- pow2_add.
      apply pow2_le. lia. }
  apply Rabs_bound in RL, Hroot. apply Rabs_le. lra.
Qed.

(** ** Rectangles of bounded coordinates *)

Lemma within_bound (bound : Q) (x : Float) :
  within bound x = true -> exists q : Q, x = Finite q /\ (Qabs q <= bound)%Q.
Proof.
  destruct x as [q | s |]; cbn; try discriminate.
  intros H. exists q. split; [reflexivity|]. apply Qle_bool_iff, H.
Qed.

Lemma point_within_bound (bound : Q) (a : Point2f) :
  point_within bound a = true ->
  exists x y : Q,
    a = (Finite x, Finite y) /\ (Qabs x <= bound)%Q /\ (Qabs y <= bound)%Q.
Proof.
  unfold point_within. intros H. apply andb_true_iff in H. destruct H as [Hx Hy].
  apply within_bound in Hx, Hy.
  destruct Hx as (x & Ex & Hx), Hy as (y & Ey & Hy).
  exists x, y. destruct a as [u v]. cbn in Ex, Ey. subst. auto.
Qed.

Lemma rect_within_point (bound : Q) (r : RotatedRect) (j : Z) :
  rect_within bound r = true -> point_within bound (rectangle_points r j) = true.
Proof.
  unfold rect_within. intros H.
  do 3 (apply andb_true_iff in H; destruct H as [H ?]).
  unfold rectangle_points.
  destruct j as [|[p|[p|p|]|]|]; assumption.
Qed.

Lemma rem_mod_4 (k i : Z) : 0 <= k -> 0 <= i -> Z.rem (k + i) 4 = (k + i) mod 4.
Proof. intros Hk Hi. apply Z.rem_mod_nonneg; lia. Qed.

(** The length of a side between corners of magnitude at most
    [2 ^ k]: no overflow up to [k = 126]. *)
Lemma line_length_finite (r : RotatedRect) (j k : Z) :
  -100 <= k <= 126 ->
  rect_within (pow2 k) r = true ->
  exists L : Q,
    line_length r j = Finite L /\ (0 <= L)%Q /\ (L <= pow2 (k + 2))%Q.
Proof.
  intros Hk Hr. unfold line_length.
  destruct (point_within_bound _ _ (rect_within_point _ r j Hr))
    as (ax & ay & -> & Hax & Hay).
  destruct (point_within_bound _ _ (rect_within_point _ r (Z.rem (j + 1) 4) Hr))
    as (bx & by' & -> & Hbx & Hby).
  unfold pt_sub. cbn [fst snd].
  destruct (f_sub_finite binary32 ax bx k) as (dx & -> & Hdx & _);
    try format_side; try assumption.
  destruct (f_sub_finite binary32 ay by' k) as (dy & -> & Hdy & _);
    try format_side; try assumption.
  destruct (norm_spec dx dy (k + 1)) as (L & EL & L0 & LB & _);
    try lia; try assumption.
  exists L. replace (k + 2) with (k + 1 + 1) by lia. auto.
Qed.
(** ** The pose estimate on coordinates of at most 32768 *)

Lemma Q2R_literal (n : Z) (d : positive) : Q2R (n # d) = (IZR n / IZR (Z.pos d))%R.
Proof. reflexivity. Qed.

(** Evaluates the powers of two with a closed exponent in [H]. *)
Ltac eval_pow2 H :=
  repeat match type of H with
  | context [pow2 ?e] =>
      let v := eval vm_compute in (pow2 e) in change (pow2 e) with v in H
  end.

(** The computed length of a segment is within 1/128 of its length. *)
Lemma segment_length_accurate (a b : Point2f) :
  point_within 32768 a = true -> point_within 32768 b = true ->
  exists L : Q,
    norm (pt_sub a b) = Finite L /\ (0 <= L)%Q /\ (L <= 131072)%Q /\
    (Rabs (Q2R L
           - sqrt ((Q2R (value (fst a)) - Q2R (value (fst b))) *
                   (Q2R (value (fst a)) - Q2R (value (fst b))) +
                   (Q2R (value (snd a)) - Q2R (value (snd b))) *
                   (Q2R (value (snd a)) - Q2R (value (snd b)))))
     <= 1 / 128)%R.
Proof.
  intros Ha Hb.
  destruct (point_within_bound _ _ Ha) as (ax & ay & -> & Hax & Hay).
  destruct (point_within_bound _ _ Hb) as (bx & by' & -> & Hbx & Hby).
  change 32768%Q with (pow2 15) in Hax, Hay, Hbx, Hby.
  unfold pt_sub. cbn [fst snd value].
  destruct (f_sub_finite binary32 ax bx 15) as (dx & -> & Hdx & Rdx);
    try format_side; try assumption.
  destruct (f_sub_finite binary32 ay by' 15) as (dy & -> & Hdy & Rdy);
    try format_side; try assumption.
  destruct (norm_spec dx dy 16) as (L & EL & L0 & LB & RL);
    try lia; try assumption.
  exists L. split; [exact EL|]. split; [exact L0|].
  eval_pow2 LB. split; [exact LB|].
  eval_pow2 Rdx. eval_pow2 Rdy. eval_pow2 RL.
  apply Qabs_Rabs in Rdx, Rdy. rewrite !Q2R_minus in Rdx, Rdy.
  rewrite !Q2R_literal in Rdx, Rdy, RL.
  pose proof (length_perturbed (Q2R ax - Q2R bx) (Q2R ay - Q2R by')
                (Q2R dx) (Q2R dy) _ Rdx Rdy) as Hp.
  pose proof sqrt_2_bound as H2.
  apply Rabs_bound in RL, Hp. apply Rabs_le. lra.
Qed.

(** The midpoint that the code rounds to a pixel is within 1/128 of
    the exact one. *)
Lemma half_sum_accurate (x y : Q) :
  (Qabs x <= 32768)%Q -> (Qabs y <= 32768)%Q ->
  exists z : Z,
    saturate_int (to_float (f_mul binary64 (f_add binary32 (Finite x) (Finite y))
                                           (Finite (1 # 2)))) = z /\
    -32768 <= z <= 32768 /\
    (Qabs ((x + y) / 2 - inject_Z z) <= (1 # 2) + (1 # 128))%Q.
Proof.
  intros Hx Hy. change 32768%Q with (pow2 15) in Hx, Hy.
  destruct (f_add_finite binary32 x y 15) as (s & -> & Hs & Rs & _);
    try format_side; try assumption.
  destruct (f_mul_finite binary64 s (1 # 2) 16 (-1)) as (h & -> & Hh & Rh & _);
    try format_side; try assumption.
  { vm_compute. discriminate. }
  cbn [to_float].
  destruct (round_finite binary32 h 15) as (m & -> & Hm & Rm & _);
    try format_side; try assumption.
  cbn [saturate_int].
  eval_pow2 Hm. eval_pow2 Rs. eval_pow2 Rh. eval_pow2 Rm.
  apply Qabs_Qle_condition in Hm, Rs, Rh, Rm.
  pose proof (cvRound_near m) as Hn. apply Qabs_Qle_condition in Hn.
  assert (Hz : -32768 <= cvRound m <= 32768).
  { split; [apply cvRound_ge | apply cvRound_le]; unfold inject_Z; lra. }
  replace (in_int (cvRound m)) with true.
  - exists (cvRound m). split; [reflexivity|]. split; [exact Hz|].
    apply Qabs_Qle_condition.
    assert (E : ((x + y) / 2 == (x + y) * (1 # 2))%Q) by field.
    rewrite E. lra.
  - symmetry. unfold in_int, INT_MIN, INT_MAX.
    apply andb_true_iff. split; apply Z.leb_le; lia.
Qed.

Lemma midpoint_accurate (a b : Point2f) :
  point_within 32768 a = true -> point_within 32768 b = true ->
  nearest_pixel (1 # 128) (midpoint a b)
                (to_Point (pt_scale (pt_add a b) (1 # 2))) /\
  -32768 <= fst (to_Point (pt_scale (pt_add a b) (1 # 2))) <= 32768 /\
  -32768 <= snd (to_Point (pt_scale (pt_add a b) (1 # 2))) <= 32768.
Proof.
  intros Ha Hb.
  destruct (point_within_bound _ _ Ha) as (ax & ay & -> & Hax & Hay).
  destruct (point_within_bound _ _ Hb) as (bx & by' & -> & Hbx & Hby).
  unfold nearest_pixel, midpoint, to_Point, pt_scale, pt_add.
  cbn [fst snd value].
  destruct (half_sum_accurate ax bx Hax Hbx) as (zx & -> & Hzx & Rzx).
  destruct (half_sum_accurate ay by' Hay Hby) as (zy & -> & Hzy & Rzy).
  auto.
Qed.

Lemma wrap_small (z : Z) : - 2 ^ 31 <= z < 2 ^ 31 -> wrap z = z.
Proof.
  intros H. unfold wrap. rewrite Z.mod_small by lia. lia.
Qed.

(** [pow(d, 2)] is exact on the difference of two pixels. *)
Lemma pow_2_exact (d : Z) :
  -65536 <= d <= 65536 ->
  exists s : Q, pow_2 d = Finite s /\ (s == inject_Z (d * d))%Q.
Proof.
  intros Hd. unfold pow_2. cbn [f_mul].
  destruct (round_between binary64 (inject_Z d * inject_Z d) (d * d) (d * d))
    as (s & Hs & H1 & H2); try format_side.
  - cbn [precision binary64]. nia.
  - cbn [precision binary64]. nia.
  - rewrite inject_Z_mult. apply Qle_refl.
  - rewrite inject_Z_mult. apply Qle_refl.
  - exists s. split; [exact Hs | lra].
Qed.

(** The size is half the distance between the two pixels, up to the
    rounding of the root. *)
Lemma half_distance_accurate (p q : Point) :
  -32768 <= fst p <= 32768 -> -32768 <= snd p <= 32768 ->
  -32768 <= fst q <= 32768 -> -32768 <= snd q <= 32768 ->
  exists D : Q,
    f_div binary64 (distance p q) (Finite 2) = Finite D /\
    (0 <= D)%Q /\
    (Rabs (Q2R D - euclidean p q / 2) <= 1 / 68719476736)%R.
Proof.
  intros Hpx Hpy Hqx Hqy. unfold distance.
  rewrite !wrap_small by lia.
  set (dx := fst p - fst q). set (dy := snd p - snd q).
  destruct (pow_2_exact dx ltac:(unfold dx; lia)) as (sx & -> & Esx).
  destruct (pow_2_exact dy ltac:(unfold dy; lia)) as (sy & -> & Esy).
  cbn [f_add].
  destruct (round_between binary64 (sx + sy) (dx * dx + dy * dy)
              (dx * dx + dy * dy)) as (S & -> & H1 & H2); try format_side.
  { cbn [precision binary64]. unfold dx, dy. nia. }
  { cbn [precision binary64]. unfold dx, dy. nia. }
  { rewrite inject_Z_plus. lra. }
  { rewrite inject_Z_plus. lra. }
  assert (ES : (S == inject_Z (dx * dx + dy * dy))%Q) by lra.
  destruct (f_sqrt_finite binary64 S 17) as (D0 & -> & D00 & D0B & RD0);
    try format_side.
  { rewrite ES. rewrite <- (Zle_Qle 0). nia. }
  { rewrite ES. rewrite pow2_Z by lia. rewrite <- Zle_Qle.
    unfold dx, dy. nia. }
  cbn [f_div]. change (Qeq_bool 2 0) with false. cbv iota.
  destruct (round_finite binary64 (D0 / 2) 16) as (D & -> & DB & RD & PD);
    try format_side.
  { eval_pow2 D0B. apply Qabs_Qle_condition.
    change (pow2 16) with 65536%Q.
    assert (E : (D0 / 2 == D0 * (1 # 2))%Q) by field. rewrite E. lra. }
  exists D. split; [reflexivity|]. split.
  { apply PD. apply Qle_shift_div_l; [reflexivity | lra]. }
  eval_pow2 RD0. eval_pow2 RD. apply Qabs_Rabs in RD.
  rewrite Q2R_minus, Q2R_div in RD by discriminate.
  rewrite !Q2R_literal in RD0, RD.
  replace (Q2R 2) with 2%R in RD by (rewrite Q2R_literal; field).
  assert (Eeuc : sqrt (Q2R S) = euclidean p q).
  { unfold euclidean. rewrite (Qeq_eqR _ _ ES), Q2R_inject_Z.
    fold dx dy. rewrite !Z.pow_2_r. reflexivity. }
  rewrite Eeuc in RD0.
  apply Rabs_bound in RD0, RD. apply Rabs_le. lra.
Qed.
(** ** The shortest side *)

(** Turns the boolean comparisons in the context into inequalities. *)
Ltac comparisons :=
  repeat match goal with
  | H : Qltb _ _ = true |- _ => apply Qltb_lt in H
  | H : Qltb _ _ = false |- _ => apply Qltb_ge in H
  end.

(** The loop, unrolled, when the four computed lengths are finite and
    the first is below [DBL_MAX]: side 0 beats the initial value, and a
    later side replaces the current one only when its computed length
    is strictly smaller. *)
Lemma shortest_side_spec (r : RotatedRect) :
  (forall j, 0 <= j < 4 -> exists l : Q, line_length r j = Finite l) ->
  (value (line_length r 0) < DBL_MAX)%Q ->
  exists k : Z,
    shortest_axis_index (shortest_side r) = Some k /\
    0 <= k < 4 /\
    (forall j, 0 <= j < 4 ->
       (value (line_length r k) <= value (line_length r j))%Q) /\
    (forall j, 0 <= j < k ->
       (value (line_length r k) < value (line_length r j))%Q).
Proof.
  intros Hfin Hfirst.
  destruct (Hfin 0 ltac:(lia)) as (l0 & E0).
  destruct (Hfin 1 ltac:(lia)) as (l1 & E1).
  destruct (Hfin 2 ltac:(lia)) as (l2 & E2).
  destruct (Hfin 3 ltac:(lia)) as (l3 & E3).
  rewrite E0 in Hfirst. cbn [value] in Hfirst. apply Qltb_lt in Hfirst.
  unfold shortest_side. cbn [fold_left].
  unfold shortest_step at 4. cbn [shortest_axis]. rewrite E0.
  cbn [f_lt]. rewrite Hfirst.
  unfold shortest_step at 3. cbn [shortest_axis]. rewrite E1. cbn [f_lt].
  destruct (Qltb l1 l0) eqn:C1;
    unfold shortest_step at 2; cbn [shortest_axis]; rewrite E2; cbn [f_lt];
    match goal with
    | |- context [Qltb l2 ?a] => destruct (Qltb l2 a) eqn:C2
    end;
    unfold shortest_step; cbn [shortest_axis]; rewrite E3; cbn [f_lt];
    match goal with
    | |- context [Qltb l3 ?a] => destruct (Qltb l3 a) eqn:C3
    end;
    cbn [shortest_axis_index]; comparisons;
    eexists; (split; [reflexivity|]); (split; [lia|]);
    (split; intros j Hj;
     assert (Hc : j = 0 \/ j = 1 \/ j = 2 \/ j = 3) by lia;
     destruct Hc as [-> | [-> | [-> | ->]]]; rewrite ?E0, ?E1, ?E2, ?E3;
     cbn [value]; try lia; lra).
Qed.

Lemma side_segment (r : RotatedRect) (j : Z) :
  0 <= j ->
  side r j =
  sqrt ((Q2R (value (fst (rectangle_points r j)))
         - Q2R (value (fst (rectangle_points r (Z.rem (j + 1) 4))))) *
        (Q2R (value (fst (rectangle_points r j)))
         - Q2R (value (fst (rectangle_points r (Z.rem (j + 1) 4))))) +
        (Q2R (value (snd (rectangle_points r j)))
         - Q2R (value (snd (rectangle_points r (Z.rem (j + 1) 4))))) *
        (Q2R (value (snd (rectangle_points r j)))
         - Q2R (value (snd (rectangle_points r (Z.rem (j + 1) 4)))))).
Proof. intros Hj. unfold side. rewrite rem_mod_4 by lia. reflexivity. Qed.

(** On coordinates of at most 32768 every computed length is finite
    and within 1/128 of the length of the side. *)
Lemma line_length_accurate (r : RotatedRect) (j : Z) :
  rect_within 32768 r = true -> 0 <= j ->
  exists l : Q,
    line_length r j = Finite l /\ (0 <= l)%Q /\ (l <= 131072)%Q /\
    (Rabs (Q2R l - side r j) <= 1 / 128)%R.
Proof.
  intros Hr Hj. rewrite side_segment by exact Hj. unfold line_length.
  apply segment_length_accurate; apply rect_within_point, Hr.
Qed.

(** C5, as stated, fails.  On the square [tilted_square] the loop ends
    with index 0, and side 0 is not a shortest side: side 1 is strictly
    shorter; the axis drawn joins the midpoints of sides 0 and 2.  On
    [distant_rect], whose corners are finite, the loop ends with index
    0, the midpoints of sides 0 and 2 are 1024 apart, yet both are
    converted to the pixel ([INT_MIN], [INT_MIN]) and the size is 0. *)
Lemma shortest_side_counterexample :
  (shortest_axis_index (shortest_side tilted_square) = Some 0 /\
   (side tilted_square 1 < side tilted_square 0)%R /\
   draw_principal_axis tilted_square = Some [Line (44, 36) (57, 85)]) /\
  (finite_rect distant_rect = true /\
   shortest_axis_index (shortest_side distant_rect) = Some 0 /\
   (fst (midpoint (pt2 distant_rect) (pt3 distant_rect))
    - fst (midpoint (pt0 distant_rect) (pt1 distant_rect)) == 1024)%Q /\
   draw_principal_axis distant_rect
     = Some [Line (INT_MIN, INT_MIN) (INT_MIN, INT_MIN)] /\
   get_size distant_rect = Some (Finite 0)).
Proof.
  split.
  - split; [vm_compute; reflexivity|]. split; [|vm_compute; reflexivity].
    unfold side, tilted_square.
    change ((1 + 1) mod 4) with 2. change ((0 + 1) mod 4) with 1.
    cbn [rectangle_points pt0 pt1 pt2 pt3 fst snd value].
    rewrite !Q2R_literal. apply sqrt_lt_1_alt. lra.
  - repeat split; vm_compute; reflexivity.
Qed.

(** C5, amended.  For a rotated rectangle whose corners have coordinates
    of magnitude at most 32768, the pose estimate finds the first index
    [k] of smallest computed length among the sides from corner [j] to
    corner [j + 1 mod 4]; side [k] is a shortest side up to 1/64 of a
    pixel.  It takes the midpoint of side [k] and the midpoint of the
    opposite side, from corner [k + 2 mod 4] to corner [k + 3 mod 4],
    each rounded to a pixel, which lies within 1/2 + 1/128 of the
    midpoint in each coordinate; the segment between the two pixels is
    drawn as the principal axis, and the size is half the Euclidean
    distance between the two pixels, up to [2 ^ -36]. *)
Theorem principal_axis_and_size (r : RotatedRect) :
  rect_within 32768 r = true ->
  exists (k : Z) (m1 m2 : Point) (size : Q),
    shortest_axis_index (shortest_side r) = Some k /\
    0 <= k < 4 /\
    (forall j, 0 <= j < 4 ->
       (value (line_length r k) <= value (line_length r j))%Q) /\
    (forall j, 0 <= j < k ->
       (value (line_length r k) < value (line_length r j))%Q) /\
    (forall j, 0 <= j < 4 -> (side r k <= side r j + 1 / 64)%R) /\
    nearest_pixel (1 # 128)
      (midpoint (rectangle_points r k) (rectangle_points r ((k + 1) mod 4))) m1 /\
    nearest_pixel (1 # 128)
      (midpoint (rectangle_points r ((k + 2) mod 4))
                (rectangle_points r ((k + 3) mod 4))) m2 /\
    draw_principal_axis r = Some [Line m1 m2] /\
    get_size r = Some (Finite size) /\
    (Rabs (Q2R size - euclidean m1 m2 / 2) <= 1 / 68719476736)%R.
Proof.
  intros Hr.
  assert (Hfin : forall j, 0 <= j < 4 -> exists l : Q, line_length r j = Finite l).
  { intros j Hj. destruct (line_length_accurate r j Hr ltac:(lia)) as (l & El & _).
    exists l. exact El. }
  assert (Hfirst : (value (line_length r 0) < DBL_MAX)%Q).
  { destruct (line_length_accurate r 0 Hr ltac:(lia)) as (l & -> & _ & Hl & _).
    cbn [value]. eapply Qle_lt_trans; [exact Hl|]. reflexivity. }
  destruct (shortest_side_spec r Hfin Hfirst) as (k & Hk & Hrange & Hmin & Hstrict).
  pose proof (midpoint_accurate (rectangle_points r k)
                (rectangle_points r (Z.rem (k + 1) 4))
                (rect_within_point _ r _ Hr) (rect_within_point _ r _ Hr))
    as (Hm1 & Hm1x & Hm1y).
  pose proof (midpoint_accurate (rectangle_points r (Z.rem (k + 2) 4))
                (rectangle_points r (Z.rem (k + 3) 4))
                (rect_within_point _ r _ Hr) (rect_within_point _ r _ Hr))
    as (Hm2 & Hm2x & Hm2y).
  fold (shortest_axis_midpoint_1 r k) in Hm1, Hm1x, Hm1y.
  fold (shortest_axis_midpoint_2 r k) in Hm2, Hm2x, Hm2y.
  destruct (half_distance_accurate (shortest_axis_midpoint_1 r k)
              (shortest_axis_midpoint_2 r k) Hm1x Hm1y Hm2x Hm2y)
    as (size & Hsize & _ & Hacc).
  exists k, (shortest_axis_midpoint_1 r k), (shortest_axis_midpoint_2 r k), size.
  rewrite (rem_mod_4 k 1) in Hm1 by lia.
  rewrite (rem_mod_4 k 2), (rem_mod_4 k 3) in Hm2 by lia.
  split; [exact Hk|]. split; [exact Hrange|].
  split; [exact Hmin|]. split; [exact Hstrict|].
  split.
  { intros j Hj. specialize (Hmin j Hj).
    destruct (line_length_accurate r k Hr ltac:(lia)) as (lk & Ek & _ & _ & Ak).
    destruct (line_length_accurate r j Hr ltac:(lia)) as (lj & Ej & _ & _ & Aj).
    rewrite Ek, Ej in Hmin. cbn [value] in Hmin. apply Qle_Rle in Hmin.
    apply Rabs_bound in Ak, Aj. lra. }
  split; [exact Hm1|]. split; [exact Hm2|].
  split; [unfold draw_principal_axis; rewrite Hk; reflexivity|].
  split; [unfold get_size; rewrite Hk, Hsize; reflexivity|].
  exact Hacc.
Qed.

(** The theorem on [tilted_rect]. *)
Lemma principal_axis_and_size_witness :
  exists (k : Z) (m1 m2 : Point) (size : Q),
    shortest_axis_index (shortest_side tilted_rect) = Some k /\
    0 <= k < 4 /\
    (forall j, 0 <= j < 4 ->
       (value (line_length tilted_rect k) <= value (line_length tilted_rect j))%Q) /\
    (forall j, 0 <= j < k ->
       (value (line_length tilted_rect k) < value (line_length tilted_rect j))%Q) /\
    (forall j, 0 <= j < 4 -> (side tilted_rect k <= side tilted_rect j + 1 / 64)%R) /\
    nearest_pixel (1 # 128)
      (midpoint (rectangle_points tilted_rect k)
                (rectangle_points tilted_rect ((k + 1) mod 4))) m1 /\
    nearest_pixel (1 # 128)
      (midpoint (rectangle_points tilted_rect ((k + 2) mod 4))
                (rectangle_points tilted_rect ((k + 3) mod 4))) m2 /\
    draw_principal_axis tilted_rect = Some [Line m1 m2] /\
    get_size tilted_rect = Some (Finite size) /\
    (Rabs (Q2R size - euclidean m1 m2 / 2) <= 1 / 68719476736)%R.
Proof. apply (principal_axis_and_size tilted_rect). vm_compute. reflexivity. Defined.

(** On [tilted_rect] the shortest side is side 0, the axis runs from
    pixel (33, 50) to pixel (68, 70), and the size is the [double]
    nearest to half the root of 1625, about 20.1556.  The midpoint of
    the far side has an ordinate just above 70.5, nearer to 71; the sum
    of the two corners, rounded to [float], is 141, its half 70.5, and
    [cvRound] takes the tie to 70. *)
Example pose_of_tilted_rect :
  shortest_axis_index (shortest_side tilted_rect) = Some 0 /\
  draw_principal_axis tilted_rect = Some [Line (33, 50) (68, 70)] /\
  get_size tilted_rect = Some (Finite (1418327382461025 # 70368744177664)) /\
  (141 # 2
   < snd (midpoint (rectangle_points tilted_rect 2) (rectangle_points tilted_rect 3)))%Q.
Proof. repeat split; vm_compute; reflexivity. Qed.

(** C10, at [far_rect].  Its corners are finite, yet on every side the
    difference of the two corners, taken in [float], overflows: the
    abscissas or the ordinates differ by [2 ^ 128 - 2 ^ 103], which
    rounds to an infinity.  Every computed length is [+inf], none is
    below [DBL_MAX], the loop ends without having assigned
    [shortest_axis_index], and [draw_principal_axis] and [get_size] go
    on to read it. *)
Theorem far_rect_leaves_index_unassigned :
  finite_rect far_rect = true /\
  (value (fst (pt0 far_rect)) - value (fst (pt1 far_rect))
   == inject_Z (2 ^ 128 - 2 ^ 103))%Q /\
  round binary32 (inject_Z (2 ^ 128 - 2 ^ 103)) = Infinity false /\
  (forall j, 0 <= j < 4 -> line_length far_rect j = Infinity false) /\
  (forall j, 0 <= j < 4 ->
     f_lt (line_length far_rect j) (Finite DBL_MAX) = false) /\
  shortest_axis_index (shortest_side far_rect) = None /\
  draw_principal_axis far_rect = None /\
  get_size far_rect = None.
Proof.
  split; [vm_compute; reflexivity|].
  split; [vm_compute; reflexivity|].
  split; [vm_compute; reflexivity|].
  split.
  { intros j Hj.
    assert (Hc : j = 0 \/ j = 1 \/ j = 2 \/ j = 3) by lia.
    destruct Hc as [-> | [-> | [-> | ->]]]; vm_compute; reflexivity. }
  split.
  { intros j Hj.
    assert (Hc : j = 0 \/ j = 1 \/ j = 2 \/ j = 3) by lia.
    destruct Hc as [-> | [-> | [-> | ->]]]; vm_compute; reflexivity. }
  repeat split; vm_compute; reflexivity.
Qed.

(** On coordinates of at most [2 ^ 126] the loop assigns the index. *)
Lemma pose_drawn (r : RotatedRect) :
  rect_within (pow2 126) r = true ->
  exists k : Z, shortest_axis_index (shortest_side r) = Some k.
Proof.
  intros Hr.
  assert (Hfin : forall j, 0 <= j < 4 -> exists l : Q, line_length r j = Finite l).
  { intros j Hj. destruct (line_length_finite r j 126 ltac:(lia) Hr) as (l & El & _).
    exists l. exact El. }
  assert (Hfirst : (value (line_length r 0) < DBL_MAX)%Q).
  { destruct (line_length_finite r 0 126 ltac:(lia) Hr) as (l & -> & _ & Hl).
    cbn [value]. eapply Qle_lt_trans; [exact Hl|]. vm_compute. reflexivity. }
  destruct (shortest_side_spec r Hfin Hfirst) as (k & Hk & _).
  exists k. exact Hk.
Qed.

(** ** The contour loop *)

Section VisitsFacts.
Variables (contours : list Contour) (hierarchy : list Vec4i).

Lemma visits_det (i : Z) (l1 l2 : list (Z * Contour)) :
  visits contours hierarchy i l1 -> visits contours hierarchy i l2 -> l1 = l2.
Proof.
  intros H1. revert l2.
  induction H1 as [i Hi | i c h l Hi Hc Hh Hl IH]; intros l2 H2.
  - inversion H2; subst; [reflexivity | lia].
  - inversion H2 as [| i' c' h' l' Hi' Hc' Hh' Hl']; subst; [lia|].
    rewrite Hc in Hc'. rewrite Hh in Hh'.
    injection Hc' as <-. injection Hh' as <-.
    f_equal. apply IH, Hl'.
Qed.

Lemma visits_suffix (i j : Z) (c : Contour) (l1 l2 : list (Z * Contour)) :
  visits contours hierarchy i (l1 ++ (j, c) :: l2) ->
  visits contours hierarchy j ((j, c) :: l2).
Proof.
  revert i. induction l1 as [|x l1 IH]; intros i H; cbn in H.
  - inversion H; subst. exact H.
  - inversion H; subst. eapply IH. eassumption.
Qed.

Lemma visits_NoDup (i : Z) (l : list (Z * Contour)) :
  visits contours hierarchy i l -> NoDup (map fst l).
Proof.
  induction 1 as [i Hi | i c h l Hi Hc Hh Hl IH]; cbn; constructor; [|exact IH].
  intros Hin. apply in_map_iff in Hin. destruct Hin as [[j c'] [Hj Hin]].
  cbn in Hj. subst j.
  apply in_split in Hin. destruct Hin as (l1 & l2 & ->).
  assert (Hwhole : visits contours hierarchy i ((i, c) :: l1 ++ (i, c') :: l2))
    by (econstructor; eassumption).
  pose proof (visits_suffix _ _ _ _ _ Hl) as Hsuf.
  pose proof (visits_det _ _ _ Hwhole Hsuf) as E.
  apply (f_equal (@length _)) in E. cbn in E.
  rewrite length_app in E. cbn in E. lia.
Qed.

Lemma visits_lookup (i : Z) (l : list (Z * Contour)) :
  visits contours hierarchy i l ->
  forall j c, In (j, c) l ->
    0 <= j /\ nth_error contours (Z.to_nat j) = Some c /\
    (Z.to_nat j < length hierarchy)%nat.
Proof.
  induction 1 as [i Hi | i c h l Hi Hc Hh Hl IH]; intros j c' Hin.
  - destruct Hin.
  - destruct Hin as [E | Hin]; [|apply IH, Hin].
    injection E as <- <-. repeat split; auto.
    apply nth_error_Some. rewrite Hh. discriminate.
Qed.

(** A chain of links that ends visits no contour twice, so it is no
    longer than the hierarchy. *)
Lemma visits_length (i : Z) (l : list (Z * Contour)) :
  visits contours hierarchy i l -> (length l <= length hierarchy)%nat.
Proof.
  intros H.
  assert (Hnd : NoDup (map (fun ic => Z.to_nat (fst ic)) l)).
  { pose proof (visits_NoDup _ _ H) as Hnd.
    rewrite <- (map_map fst Z.to_nat).
    apply Finite.Injective_map_NoDup_in; [|exact Hnd].
    intros a b Ha Hb E.
    apply in_map_iff in Ha. destruct Ha as [[a' ca] [<- Ha]].
    apply in_map_iff in Hb. destruct Hb as [[b' cb] [<- Hb]].
    apply (visits_lookup _ _ H) in Ha, Hb. cbn in *. lia. }
  assert (Hincl : incl (map (fun ic => Z.to_nat (fst ic)) l)
                       (seq 0 (length hierarchy))).
  { intros n Hn. apply in_map_iff in Hn. destruct Hn as [[j c] [<- Hin]].
    apply (visits_lookup _ _ H) in Hin. apply in_seq. cbn. lia. }
  pose proof (NoDup_incl_length Hnd Hincl) as Hlen.
  rewrite length_map, length_seq in Hlen. exact Hlen.
Qed.

End VisitsFacts.

Section SelectionFacts.
Context {cv : Vision}.
Variable max_blob_area : Z.

(** With fuel for every region of the chain, the loop is the fold of
    its body over the regions. *)
Lemma blob_loop_visits (contours : list Contour) (hierarchy : list Vec4i)
  (i : Z) (regions : list (Z * Contour)) :
  visits contours hierarchy i regions ->
  forall (fuel : nat) (b : Blob),
    (length regions <= fuel)%nat ->
    blob_loop fuel max_blob_area contours hierarchy i b =
    Some (select max_blob_area regions b).
Proof.
  induction 1 as [i Hi | i c h l Hi Hc Hh Hl IH]; intros fuel b Hfuel.
  - apply Z.ltb_lt in Hi. destruct fuel; cbn; rewrite Hi; reflexivity.
  - destruct fuel as [|fuel]; [cbn in Hfuel; lia|].
    cbn [blob_loop]. apply Z.ltb_ge in Hi. rewrite Hi, Hc, Hh.
    apply IH. cbn in Hfuel. lia.
Qed.

Lemma select_app (l1 l2 : list (Z * Contour)) (b : Blob) :
  select max_blob_area (l1 ++ l2) b =
  select max_blob_area l2 (select max_blob_area l1 b).
Proof. apply fold_left_app. Qed.

Lemma qualifies_area (ic : Z * Contour) :
  qualifies max_blob_area ic = true ->
  (inject_Z MIN_BLOB_AREA < region_area ic)%Q /\
  (region_area ic < inject_Z max_blob_area)%Q.
Proof.
  unfold qualifies, area_within_limit. intros H.
  apply andb_true_iff in H. destruct H as [H1 H2].
  apply Qltb_lt in H1, H2. auto.
Qed.

(** What the loop has selected once it has gone through [regions]. *)
Lemma select_spec (regions : list (Z * Contour)) :
  (none_qualifies max_blob_area regions /\
   select max_blob_area regions no_blob = no_blob) \/
  (exists before i c after,
     regions = before ++ (i, c) :: after /\
     first_largest max_blob_area before (i, c) after /\
     select max_blob_area regions no_blob =
     mkBlob true (m00 (moments c)) (fst (centroid (moments c)))
            (snd (centroid (moments c))) i).
Proof.
  induction regions as [|[j cj] regions IH] using rev_ind.
  - left. split; [constructor | reflexivity].
  - rewrite select_app. cbn [select fold_left fst snd]. fold (select max_blob_area).
    unfold blob_step.
    change (area_within_limit max_blob_area (m00 (moments cj)))
      with (qualifies max_blob_area (j, cj)).
    destruct (qualifies max_blob_area (j, cj)) eqn:Hq.
    + pose proof (qualifies_area _ Hq) as [Hlo _].
      unfold region_area in Hlo. cbn [snd] in Hlo.
      change (inject_Z MIN_BLOB_AREA) with 1%Q in Hlo.
      destruct IH as [[Hnone ->] | (before & i & c & after & -> & Hfl & ->)].
      * right. exists regions, j, cj, []. split; [reflexivity|].
        cbn [max_area no_blob].
        replace (Qltb 0 (m00 (moments cj))) with true
          by (symmetry; apply Qltb_lt; lra).
        split; [|reflexivity].
        split; [exact Hq|]. split; [|constructor].
        eapply Forall_impl; [|exact Hnone]. cbn. intros a Ha Hb. congruence.
      * destruct Hfl as (Hqi & Hbefore & Hafter). cbn [max_area].
        destruct (Qltb (m00 (moments c)) (m00 (moments cj))) eqn:Hlt.
        -- apply Qltb_lt in Hlt.
           right. exists (before ++ (i, c) :: after), j, cj, [].
           split; [reflexivity|]. split; [|reflexivity].
           split; [exact Hq|]. split; [|constructor].
           apply Forall_app. split; [|constructor].
           ++ eapply Forall_impl; [|exact Hbefore]. cbn. intros a Ha Hb.
              specialize (Ha Hb). unfold region_area in *. cbn [snd] in *. lra.
           ++ intros _. unfold region_area. cbn [snd]. exact Hlt.
           ++ eapply Forall_impl; [|exact Hafter]. cbn. intros a Ha Hb.
              specialize (Ha Hb). unfold region_area in *. cbn [snd] in *. lra.
        -- apply Qltb_ge in Hlt.
           right. exists before, i, c, (after ++ [(j, cj)]).
           split; [rewrite <- app_assoc; reflexivity|].
           split; [|reflexivity].
           split; [exact Hqi|]. split; [exact Hbefore|].
           apply Forall_app. split; [exact Hafter|].
           constructor; [|constructor]. intros _.
           unfold region_area. cbn [snd]. exact Hlt.
    + destruct IH as [[Hnone ->] | (before & i & c & after & -> & Hfl & ->)].
      * left. split; [|reflexivity].
        apply Forall_app. split; [exact Hnone|]. constructor; [exact Hq|constructor].
      * right. exists before, i, c, (after ++ [(j, cj)]).
        split; [rewrite <- app_assoc; reflexivity|].
        split; [|reflexivity].
        destruct Hfl as (Hqi & Hbefore & Hafter).
        split; [exact Hqi|]. split; [exact Hbefore|].
        apply Forall_app. split; [exact Hafter|].
        constructor; [|constructor]. intros Hq'. congruence.
Qed.

(** The loop of [track_blobs] ends, with the selection of [select]. *)
Lemma blob_loop_returns (contours : list Contour) (hierarchy : list Vec4i)
  (regions : list (Z * Contour)) :
  visits contours hierarchy 0 regions ->
  blob_loop (length hierarchy) max_blob_area contours hierarchy 0 no_blob =
  Some (select max_blob_area regions no_blob) /\
  (0 <? length hierarchy)%nat = true.
Proof.
  intros H. split.
  - apply (blob_loop_visits _ _ _ _ H). eapply visits_length, H.
  - inversion H as [| i c h l Hi Hc Hh Hl]; subst; [lia|].
    apply Nat.ltb_lt. apply (nth_error_Some hierarchy (Z.to_nat 0)).
    rewrite Hh. discriminate.
Qed.

End SelectionFacts.

(** ** Blob selection *)

Lemma trunc_floor (q : Q) : (0 <= q)%Q -> trunc q = Qfloor q.
Proof.
  intros H. unfold trunc. destruct q as [n d]. cbn.
  apply Z.quot_div_nonneg; [|lia].
  unfold Qle in H. cbn in H. lia.
Qed.


(** The conversion of a [double] to [int] stays between two integers
    that bound the [double]. *)
Lemma trunc_between (lo hi : Z) (q : Q) :
  (inject_Z lo <= q)%Q -> (q <= inject_Z hi)%Q -> lo <= trunc q <= hi.
Proof.
  unfold trunc. destruct q as [n d]. unfold Qle. cbn. intros Hlo Hhi.
  pose proof (Z.quot_rem' n (Z.pos d)) as E.
  destruct (Z_le_gt_dec 0 n) as [Hn | Hn].
  - pose proof (Z.rem_bound_pos n (Z.pos d) Hn ltac:(lia)). nia.
  - pose proof (Z.rem_bound_pos_neg n (Z.pos d) ltac:(lia) ltac:(lia)). nia.
Qed.





(** Three regions of area 100: the first one visited is selected.  With
    the square of eight points first, its centroid (45, 15) is drawn
    after the axis of its bounding box, from (40, 15) to (50, 15), with
    the size 5. *)
Example tie_goes_to_the_first :
  track_blobs (cv := sample_vision) 307200
    [square_8; square_4; box_6] three_linked
  = Some (mkTracked (mkBlob true (200 # 2) 45 15 0)
            [Line (40, 15) (50, 15); Crosshairs 45 15 (Finite 5)]) /\
  track_blobs (cv := sample_vision) 307200
    [square_4; square_8; box_6] three_linked
  = Some (mkTracked (mkBlob true (200 # 2) 15 15 0) []).
Proof. split; vm_compute; reflexivity. Qed.

(** C4.  The area filter is strict at both ends: a region is kept if
    and only if [MIN_BLOB_AREA < area < MAX_BLOB_AREA]; an area of
    exactly [MIN_BLOB_AREA], or of exactly the upper bound, is left
    out, and an area of [MIN_BLOB_AREA + 1] is kept (the upper bound
    being above it).  A region left out does not change the state of
    the loop; a region kept sets [object_found]. *)
Theorem area_filter_exclusive {cv : Vision} (max_blob_area : Z) :
  (forall area : Q,
     area_within_limit max_blob_area area = true <->
     (inject_Z MIN_BLOB_AREA < area /\ area < inject_Z max_blob_area)%Q) /\
  area_within_limit max_blob_area (inject_Z MIN_BLOB_AREA) = false /\
  area_within_limit max_blob_area (inject_Z max_blob_area) = false /\
  (MIN_BLOB_AREA + 1 < max_blob_area ->
   area_within_limit max_blob_area (inject_Z (MIN_BLOB_AREA + 1)) = true) /\
  (forall (contour : Contour) (i : Z) (b : Blob),
     area_within_limit max_blob_area (m00 (moments contour)) = false ->
     blob_step max_blob_area contour i b = b) /\
  (forall (contour : Contour) (i : Z) (b : Blob),
     area_within_limit max_blob_area (m00 (moments contour)) = true ->
     object_found (blob_step max_blob_area contour i b) = true).
Proof.
  assert (Hiff : forall area : Q,
     area_within_limit max_blob_area area = true <->
     (inject_Z MIN_BLOB_AREA < area /\ area < inject_Z max_blob_area)%Q).
  { intros area. unfold area_within_limit.
    rewrite andb_true_iff, !Qltb_lt. reflexivity. }
  split; [exact Hiff|].
  split.
  { apply not_true_iff_false. rewrite Hiff. intros [H _].
    apply Qlt_irrefl in H. exact H. }
  split.
  { apply not_true_iff_false. rewrite Hiff. intros [_ H].
    apply Qlt_irrefl in H. exact H. }
  split.
  { intros H. apply Hiff. rewrite <- !Zlt_Qlt. unfold MIN_BLOB_AREA in *. lia. }
  split.
  - intros contour i b H. unfold blob_step. rewrite H. reflexivity.
  - intros contour i b H. unfold blob_step. rewrite H.
    destruct (Qltb (max_area b) (m00 (moments contour))); reflexivity.
Qed.

(** ** Pose is drawn together with the position *)

(** C1, as stated, fails: a qualifying region whose boundary has four
    points is found, but its position is not drawn. *)
Lemma position_needs_pose_counterexample :
  exists t : Tracked,
    track_blobs (cv := sample_vision) 307200 [square_4] alone = Some t /\
    object_found (blob t) = true /\
    nth_error [square_4] (Z.to_nat (max_area_contour_index (blob t)))
      = Some square_4 /\
    (length square_4 <= 4)%nat /\
    ~ (exists radius : Float,
         In (Crosshairs (max_area_object_x (blob t)) (max_area_object_y (blob t))
                        radius)
            (overlay t)).
Proof.
  eexists. split; [vm_compute; reflexivity|].
  split; [reflexivity|]. split; [reflexivity|]. split; [cbn; lia|].
  intros [radius H]. destruct H.
Qed.

(** C1, amended.  If the boundary of the selected region has 4 or fewer
    points, nothing is drawn for that frame: the principal axis, the
    size and the position crosshairs are all left out.  [object_found]
    stays true and [max_area_object_x], [max_area_object_y] hold the
    centroid of the selected region. *)
Theorem small_boundary_draws_nothing {cv : Vision} (max_blob_area : Z)
  (contours : list Contour) (hierarchy : list Vec4i)
  (regions : list (Z * Contour)) (contour : Contour) :
  visits contours hierarchy 0 regions ->
  object_found (select max_blob_area regions no_blob) = true ->
  nth_error contours
    (Z.to_nat (max_area_contour_index (select max_blob_area regions no_blob)))
    = Some contour ->
  (length contour <= 4)%nat ->
  track_blobs max_blob_area contours hierarchy
    = Some (mkTracked (select max_blob_area regions no_blob) []) /\
  (max_area_object_x (select max_blob_area regions no_blob),
   max_area_object_y (select max_blob_area regions no_blob))
    = centroid (moments contour).
Proof.
  intros Hvisits Hfound Hnth Hlen.
  destruct (blob_loop_returns max_blob_area _ _ _ Hvisits) as [Hloop Hsize].
  split.
  - unfold track_blobs. rewrite Hsize, Hloop, Hfound, Hnth.
    unfold draw_pose.
    replace (4 <? length contour)%nat with false
      by (symmetry; apply Nat.ltb_ge; exact Hlen).
    reflexivity.
  - destruct (select_spec max_blob_area regions)
      as [[Hnone Hsel] | (before & i & c & after & Hreg & Hfl & Hsel)].
    + rewrite Hsel in Hfound. discriminate.
    + rewrite Hsel in Hnth |- *. cbn in Hnth |- *.
      assert (Hc : nth_error contours (Z.to_nat i) = Some c).
      { eapply (visits_lookup _ _ _ _ Hvisits). rewrite Hreg. apply in_elt. }
      rewrite Hc in Hnth. injection Hnth as <-.
      symmetry. apply surjective_pairing.
Qed.

(** The amended statement on the square given by four points. *)
Lemma small_boundary_draws_nothing_witness :
  track_blobs (cv := sample_vision) 307200 [square_4] alone
    = Some (mkTracked (select (cv := sample_vision) 307200 [(0, square_4)] no_blob) []) /\
  (max_area_object_x (select (cv := sample_vision) 307200 [(0, square_4)] no_blob),
   max_area_object_y (select (cv := sample_vision) 307200 [(0, square_4)] no_blob))
    = centroid (moments (Vision := sample_vision) square_4).
Proof.
  apply (small_boundary_draws_nothing (cv := sample_vision) 307200
           [square_4] alone [(0, square_4)] square_4).
  - eapply visits_next; [lia | reflexivity | reflexivity |].
    apply visits_end. cbn. lia.
  - reflexivity.
  - reflexivity.
  - cbn. lia.
Defined.

(** ** The collapsed search window *)

(** Away from the borders of the frame the new window is not clipped:
    it starts at [(x - s, y - s)] and is [x + s] wide and [y + s] high,
    because the last two arguments of [Rect] are a width and a height. *)
Lemma inflate_unclipped (cols rows : Z) (w : Rect) :
  let s := Z.quot (Z.min cols rows + 5) 6 in
  0 < s -> s <= rx w -> s <= ry w -> 2 * rx w <= cols -> 2 * ry w <= rows ->
  inflate cols rows w = mkRect (rx w - s) (ry w - s) (rx w + s) (ry w + s).
Proof.
  intros s Hs Hx Hy Hc Hr. unfold inflate. fold s. unfold rect_and.
  cbn [rx ry rwidth rheight].
  replace (Z.max (rx w - s) 0) with (rx w - s) by lia.
  replace (Z.max (ry w - s) 0) with (ry w - s) by lia.
  replace (Z.min (rx w - s + (rx w + s)) (0 + cols)) with (2 * rx w) by lia.
  replace (Z.min (ry w - s + (ry w + s)) (0 + rows)) with (2 * ry w) by lia.
  replace (2 * rx w - (rx w - s) <=? 0) with false by (symmetry; apply Z.leb_gt; lia).
  replace (2 * ry w - (ry w - s) <=? 0) with false by (symmetry; apply Z.leb_gt; lia).
  cbn. f_equal; lia.
Qed.

(** C2, at a window collapsed at (100, 100) on a frame of 480 rows and
    640 columns.  The half-extent is (480 + 5) / 6 = 80, as the claim
    says, and the claim's window is the square from (20, 20) to
    (180, 180).  The code passes the corners [x + 80] and [y + 80] where
    [Rect] takes a width and a height: its window is 180 wide and 180
    high, from (20, 20) to (200, 200), neither of half-extent 80 nor
    centred at (100, 100). *)
Theorem inflate_window_at_100_100 :
  Z.quot (Z.min 640 480 + 5) 6 = 80 /\
  spec_inflate 640 480 (mkRect 100 100 0 0) = mkRect 20 20 160 160 /\
  inflate 640 480 (mkRect 100 100 0 0) = mkRect 20 20 180 180 /\
  object_of_interest (process_frame (cs := losing_camshift) default_params (640, 480)
                        tracking_at_100_100)
    = mkRect 20 20 180 180.
Proof. repeat split; vm_compute; reflexivity. Qed.

(** ** The tracker as a state machine *)

Section TrackerFacts.
Context {cs : Camshift}.
Variable p : Params.

Lemma track_state_Idle (st : Tracker) :
  track_state st = Idle ->
  select_object st = false /\ paused st = false /\ track_object st = 0.
Proof.
  unfold track_state.
  destruct (select_object st); [discriminate|].
  destruct (paused st); [discriminate|].
  destruct (track_object st =? 0) eqn:E.
  - apply Z.eqb_eq in E. auto.
  - destruct (track_object st <? 0); discriminate.
Qed.

(** A frame when nothing is tracked: only [original_frame] changes. *)
Lemma process_frame_idle (f : Frame) (st : Tracker) :
  paused st = false -> track_object st = 0 ->
  process_frame p f st = set_original_frame st f.
Proof.
  intros Hp Ht. unfold process_frame. rewrite Hp. unfold camshift_branch.
  cbn [paused set_original_frame track_object]. rewrite Hp, Ht. reflexivity.
Qed.

(** A frame right after a selection: the histogram is learned and
    [track_object] becomes 1. *)
Lemma process_frame_learns (f : Frame) (st : Tracker) :
  paused st = false -> track_object st = -1 ->
  track_object (process_frame p f st) = 1 /\
  histogram (process_frame p f st) = calcHist f p (selection st) /\
  select_object (process_frame p f st) = select_object st /\
  paused (process_frame p f st) = false.
Proof.
  intros Hp Ht. unfold process_frame. rewrite Hp. unfold camshift_branch.
  cbn [paused set_original_frame track_object original_frame].
  rewrite Hp, Ht. cbn [negb Z.eqb]. unfold track.
  cbn [track_object set_original_frame]. rewrite Ht. cbn [Z.ltb Z.compare].
  cbn. auto.
Qed.

(** While a selection is dragged and nothing is tracked, mouse moves and
    frames change neither the mode nor the histogram. *)
Lemma step_dragging (h : Histogram) (st : Tracker) (i : Input) :
  is_update i = true -> dragging h st -> dragging h (step p st i).
Proof.
  intros Hi (Hsel & Htrack & Hpaused & Hhist). unfold dragging.
  destruct i as [event x y | f]; cbn [step].
  - unfold onMouse. rewrite Hsel.
    destruct event; try discriminate Hi; cbn; auto.
  - rewrite process_frame_idle by assumption. cbn. auto.
Qed.

Lemma run_dragging (h : Histogram) (updates : list Input) (st : Tracker) :
  forallb is_update updates = true -> dragging h st ->
  dragging h (run p updates st).
Proof.
  revert st. induction updates as [|i updates IH]; intros st Hall Hst.
  - exact Hst.
  - cbn in Hall. apply andb_true_iff in Hall. destruct Hall as [Hi Hall].
    cbn. apply IH; [exact Hall|]. apply step_dragging; assumption.
Qed.

Lemma run_app (l1 l2 : list Input) (st : Tracker) :
  run p (l1 ++ l2) st = run p l2 (run p l1 st).
Proof. apply fold_left_app. Qed.

(** The sides of an intersection are never negative. *)
Lemma rect_and_nonneg (a b : Rect) :
  0 <= rwidth (rect_and a b) /\ 0 <= rheight (rect_and a b).
Proof.
  unfold rect_and.
  match goal with |- context [if ?c then _ else _] => destruct c eqn:E end;
    cbn; [lia|].
  apply orb_false_iff in E. destruct E as [E1 E2].
  apply Z.leb_gt in E1, E2. lia.
Qed.

(** The end of a selection, from the dragging state. *)
Lemma end_selection (h : Histogram) (st : Tracker) (x y : Z) :
  dragging h st ->
  let st' := onMouse EVENT_LBUTTONUP x y st in
  select_object st' = false /\ paused st' = false /\ histogram st' = h /\
  0 <= rwidth (selection st') /\ 0 <= rheight (selection st') /\
  track_object st' =
    if (0 <? rwidth (selection st')) && (0 <? rheight (selection st'))
    then -1 else 0.
Proof.
  intros (Hsel & Htrack & Hpaused & Hhist). unfold onMouse. rewrite Hsel.
  cbn [selection set_select_object set_selection].
  match goal with |- context [rect_and ?a ?b] =>
    pose proof (rect_and_nonneg a b) as [Hw Hh]; set (sel := rect_and a b) in *
  end.
  destruct ((0 <? rwidth sel) && (0 <? rheight sel)) eqn:E; cbn;
    fold sel; rewrite ?E; auto 10.
Qed.

(** While a selection is dragged and nothing is tracked, mouse moves and
    frames leave the origin where the press put it, and the frame held
    is the last one read. *)
Lemma step_origin (h : Histogram) (st : Tracker) (i : Input) :
  is_update i = true -> dragging h st ->
  origin (step p st i) = origin st /\
  original_frame (step p st i) = last_frame (original_frame st) [i].
Proof.
  intros Hi (Hsel & Htrack & Hpaused & Hhist).
  destruct i as [event x y | f]; cbn [step last_frame fold_left].
  - unfold onMouse. rewrite Hsel.
    destruct event; try discriminate Hi; cbn; auto.
  - rewrite process_frame_idle by assumption. cbn. auto.
Qed.

Lemma last_frame_app (held : option Frame) (l1 l2 : list Input) :
  last_frame held (l1 ++ l2) = last_frame (last_frame held l1) l2.
Proof. apply fold_left_app. Qed.

Lemma run_origin (h : Histogram) (updates : list Input) (st : Tracker) :
  forallb is_update updates = true -> dragging h st ->
  origin (run p updates st) = origin st /\
  original_frame (run p updates st) = last_frame (original_frame st) updates.
Proof.
  revert st. induction updates as [|i updates IH]; intros st Hall Hst.
  - auto.
  - cbn in Hall. apply andb_true_iff in Hall. destruct Hall as [Hi Hall].
    destruct (step_origin h st i Hi Hst) as [Ho Hf].
    destruct (IH (step p st i) Hall (step_dragging h st i Hi Hst)) as [Ho' Hf'].
    cbn [run fold_left]. change (fold_left (step p) ?l ?s) with (run p l s).
    rewrite Ho', Hf', Ho, Hf.
    change (i :: updates) with ([i] ++ updates). rewrite last_frame_app. auto.
Qed.

(** The box between the two mouse positions, clipped to the frame. *)
Lemma dragged_box (x0 y0 x y cols rows : Z) :
  rect_and (mkRect (Z.min x x0) (Z.min y y0) (Z.abs (x - x0)) (Z.abs (y - y0)))
           (mkRect 0 0 cols rows) =
  if (Z.min (Z.max x0 x) cols - Z.max (Z.min x0 x) 0 <=? 0) ||
     (Z.min (Z.max y0 y) rows - Z.max (Z.min y0 y) 0 <=? 0)
  then mkRect 0 0 0 0
  else mkRect (Z.max (Z.min x0 x) 0) (Z.max (Z.min y0 y) 0)
              (Z.min (Z.max x0 x) cols - Z.max (Z.min x0 x) 0)
              (Z.min (Z.max y0 y) rows - Z.max (Z.min y0 y) 0).
Proof.
  unfold rect_and. cbn [rx ry rwidth rheight].
  replace (Z.max (Z.min x x0) 0) with (Z.max (Z.min x0 x) 0) by lia.
  replace (Z.max (Z.min y y0) 0) with (Z.max (Z.min y0 y) 0) by lia.
  replace (Z.min (Z.min x x0 + Z.abs (x - x0)) (0 + cols))
    with (Z.min (Z.max x0 x) cols) by lia.
  replace (Z.min (Z.min y y0 + Z.abs (y - y0)) (0 + rows))
    with (Z.min (Z.max y0 y) rows) by lia.
  reflexivity.
Qed.

(** The release of the button, from the dragging state. *)
Lemma release (h : Histogram) (st : Tracker) (x y : Z) :
  dragging h st ->
  let box := rect_and (mkRect (Z.min x (fst (origin st))) (Z.min y (snd (origin st)))
                              (Z.abs (x - fst (origin st)))
                              (Z.abs (y - snd (origin st))))
                      (mkRect 0 0 (original_cols st) (original_rows st)) in
  let st' := onMouse EVENT_LBUTTONUP x y st in
  selection st' = box /\
  select_object st' = false /\ paused st' = false /\ histogram st' = h /\
  track_object st' = if (0 <? rwidth box) && (0 <? rheight box) then -1 else 0.
Proof.
  intros (Hsel & Htrack & Hpaused & Hhist) box. unfold onMouse. rewrite Hsel.
  cbn [selection set_select_object set_selection]. fold box.
  destruct ((0 <? rwidth box) && (0 <? rheight box)); cbn; auto.
Qed.

End TrackerFacts.

(** C6.  From Idle, a press at [(x0, y0)], any number of updates and a
    release at [(x, y)] leave as final rectangle the box between the
    two positions, clipped to the frame the loop holds at the release.
    If the clipped box has a width and a height (the two positions
    differ in both coordinates and the box meets the frame), the final
    rectangle is that box, the tracker is Initializing, and after the
    next processed frame it is Tracking, with the histogram of the box
    learned on that frame.  Otherwise the final rectangle is empty and
    the tracker is back in Idle with the histogram it had, and the next
    frame leaves it there.  The final rectangle has non-zero width and
    height exactly in the first case. *)
Theorem selection_starts_tracking {cs : Camshift} (p : Params) (st : Tracker)
  (x0 y0 x y : Z) (updates : list Input) (f : Frame) :
  track_state st = Idle ->
  forallb is_update updates = true ->
  let st' := run p (Mouse EVENT_RBUTTONDOWN x0 y0 :: updates
                    ++ [Mouse EVENT_LBUTTONUP x y]) st in
  let cols := fst (frame_size (last_frame (original_frame st) updates)) in
  let rows := snd (frame_size (last_frame (original_frame st) updates)) in
  let left := Z.max (Z.min x0 x) 0 in
  let right := Z.min (Z.max x0 x) cols in
  let top := Z.max (Z.min y0 y) 0 in
  let bottom := Z.min (Z.max y0 y) rows in
  (left < right /\ top < bottom ->
   selection st' = mkRect left top (right - left) (bottom - top) /\
   track_state st' = Initializing /\
   track_state (process_frame p f st') = Tracking /\
   histogram (process_frame p f st')
     = calcHist f p (mkRect left top (right - left) (bottom - top))) /\
  (right <= left \/ bottom <= top ->
   selection st' = mkRect 0 0 0 0 /\
   track_state st' = Idle /\ histogram st' = histogram st /\
   track_state (process_frame p f st') = Idle /\
   histogram (process_frame p f st') = histogram st) /\
  (rwidth (selection st') <> 0 /\ rheight (selection st') <> 0 <->
   left < right /\ top < bottom).
Proof.
  intros Hidle Hupdates st' cols rows left right top bottom.
  apply track_state_Idle in Hidle. destruct Hidle as (Hsel & Hpaused & Htrack).
  set (pressed := onMouse EVENT_RBUTTONDOWN x0 y0 st).
  assert (Hpressed : dragging (histogram st) pressed /\ origin pressed = (x0, y0) /\
                     original_frame pressed = original_frame st).
  { unfold pressed, dragging, onMouse. rewrite Hsel. cbn. auto 10. }
  destruct Hpressed as (Hdrag0 & Horigin0 & Hframe0).
  pose proof (run_dragging p (histogram st) updates pressed Hupdates Hdrag0) as Hdrag.
  destruct (run_origin p (histogram st) updates pressed Hupdates Hdrag0)
    as [Horigin Hframe].
  rewrite Horigin0 in Horigin. rewrite Hframe0 in Hframe.
  assert (Hst' : st' = onMouse EVENT_LBUTTONUP x y (run p updates pressed)).
  { unfold st', pressed. cbn [run fold_left step].
    change (fold_left (step p) ?l ?s) with (run p l s).
    rewrite run_app. reflexivity. }
  clearbody st'.
  pose proof (release (histogram st) _ x y Hdrag) as Hend.
  cbv zeta in Hend. rewrite <- Hst' in Hend.
  rewrite Horigin in Hend. cbn [fst snd] in Hend.
  assert (Hcols : original_cols (run p updates pressed) = cols).
  { unfold original_cols, cols, frame_size. rewrite Hframe.
    destruct (last_frame (original_frame st) updates); reflexivity. }
  assert (Hrows : original_rows (run p updates pressed) = rows).
  { unfold original_rows, rows, frame_size. rewrite Hframe.
    destruct (last_frame (original_frame st) updates); reflexivity. }
  rewrite Hcols, Hrows, dragged_box in Hend.
  fold left right top bottom in Hend.
  destruct Hend as (Hbox & Hsel' & Hpaused' & Hhist' & Htrack').
  destruct ((right - left <=? 0) || (bottom - top <=? 0)) eqn:E.
  - (* the clipped box is empty *)
    apply orb_true_iff in E. rewrite !Z.leb_le in E.
    cbn in Htrack'.
    assert (Hidle' : track_state st' = Idle).
    { unfold track_state. rewrite Hsel', Hpaused', Htrack'. reflexivity. }
    split; [intros [H1 H2]; lia|]. split.
    + intros _. split; [exact Hbox|]. split; [exact Hidle'|].
      split; [exact Hhist'|].
      rewrite process_frame_idle by assumption.
      unfold track_state.
      cbn [select_object paused track_object histogram set_original_frame].
      rewrite Hsel', Hpaused', Htrack'. split; [reflexivity | exact Hhist'].
    + rewrite Hbox. cbn. split; [intros [H _]; contradiction | lia].
  - (* the clipped box has a width and a height *)
    apply orb_false_iff in E. rewrite !Z.leb_gt in E.
    cbn [rwidth rheight] in Htrack'.
    replace ((0 <? right - left) && (0 <? bottom - top)) with true in Htrack'
      by (symmetry; apply andb_true_iff; split; apply Z.ltb_lt; lia).
    split; [|split; [intros H; lia|]].
    + intros _. split; [exact Hbox|].
      split; [unfold track_state; rewrite Hsel', Hpaused', Htrack'; reflexivity|].
      destruct (process_frame_learns p f st' Hpaused' Htrack')
        as (Ht & Hh1 & Hs & Hp).
      split; [|rewrite Hh1, Hbox; reflexivity].
      unfold track_state. rewrite Hs, Hsel', Hp, Ht. reflexivity.
    + rewrite Hbox. cbn [rwidth rheight]. lia.
Qed.

(** The theorem from the state before the first frame: the button is
    pressed at (100, 100), a frame of 640 by 480 arrives, the mouse
    moves, and the button is released at (200, 220). *)
Lemma selection_starts_tracking_witness :
  let st' :=
    run (cs := losing_camshift) default_params
      (Mouse EVENT_RBUTTONDOWN 100 100
       :: [@NextFrame losing_camshift (640, 480); Mouse EVENT_MOUSEMOVE 150 160]
       ++ [Mouse EVENT_LBUTTONUP 200 220])
      initial_tracker in
  let cols :=
    fst (frame_size (cs := losing_camshift)
           (last_frame (original_frame (initial_tracker (cs := losing_camshift)))
              [@NextFrame losing_camshift (640, 480);
               Mouse EVENT_MOUSEMOVE 150 160])) in
  let rows :=
    snd (frame_size (cs := losing_camshift)
           (last_frame (original_frame (initial_tracker (cs := losing_camshift)))
              [@NextFrame losing_camshift (640, 480);
               Mouse EVENT_MOUSEMOVE 150 160])) in
  let left := Z.max (Z.min 100 200) 0 in
  let right := Z.min (Z.max 100 200) cols in
  let top := Z.max (Z.min 100 220) 0 in
  let bottom := Z.min (Z.max 100 220) rows in
  (left < right /\ top < bottom ->
   selection st' = mkRect left top (right - left) (bottom - top) /\
   track_state st' = Initializing /\
   track_state (process_frame (cs := losing_camshift) default_params (640, 480) st')
     = Tracking /\
   histogram (process_frame (cs := losing_camshift) default_params (640, 480) st')
     = calcHist (Camshift := losing_camshift) (640, 480) default_params
                (mkRect left top (right - left) (bottom - top))) /\
  (right <= left \/ bottom <= top ->
   selection st' = mkRect 0 0 0 0 /\
   track_state st' = Idle /\ histogram st' = histogram initial_tracker /\
   track_state (process_frame (cs := losing_camshift) default_params (640, 480) st')
     = Idle /\
   histogram (process_frame (cs := losing_camshift) default_params (640, 480) st')
     = histogram initial_tracker) /\
  (rwidth (selection st') <> 0 /\ rheight (selection st') <> 0 <->
   left < right /\ top < bottom).
Proof.
  apply (selection_starts_tracking (cs := losing_camshift) default_params
           initial_tracker 100 100 200 220
           [@NextFrame losing_camshift (640, 480); Mouse EVENT_MOUSEMOVE 150 160]
           (640, 480)).
  - reflexivity.
  - reflexivity.
Defined.

(** The two outcomes on that run, and on a click without a drag. *)
Example drag_then_track :
  let st' :=
    run (cs := losing_camshift) default_params
      [Mouse EVENT_RBUTTONDOWN 100 100; @NextFrame losing_camshift (640, 480);
       Mouse EVENT_MOUSEMOVE 150 160; Mouse EVENT_LBUTTONUP 200 220]
      initial_tracker in
  selection st' = mkRect 100 100 100 120 /\
  track_state st' = Initializing /\
  track_state (process_frame (cs := losing_camshift) default_params (640, 480) st')
    = Tracking.
Proof. repeat split; vm_compute; reflexivity. Qed.

Example click_stays_idle :
  let st' :=
    run (cs := losing_camshift) default_params
      [@NextFrame losing_camshift (640, 480); Mouse EVENT_RBUTTONDOWN 100 100;
       Mouse EVENT_LBUTTONUP 100 100]
      initial_tracker in
  selection st' = mkRect 0 0 0 0 /\
  track_state st' = Idle /\
  track_state (process_frame (cs := losing_camshift) default_params (640, 480) st')
    = Idle.
Proof. repeat split; vm_compute; reflexivity. Qed.

(** The theorem starts from Idle.  A click without a drag while a
    target is tracked leaves the tracker in Tracking, with the histogram
    it had. *)
Example click_while_tracking :
  let st' :=
    run (cs := losing_camshift) default_params
      [Mouse EVENT_RBUTTONDOWN 10 10; Mouse EVENT_LBUTTONUP 10 10]
      tracking_at_100_100 in
  track_state tracking_at_100_100 = Tracking /\
  selection st' = mkRect 0 0 0 0 /\
  track_state st' = Tracking /\
  histogram st' = histogram tracking_at_100_100.
Proof. repeat split; vm_compute; reflexivity. Qed.

(** While the loop is paused and nothing is tracked, a completed
    selection takes two iterations: the first only clears [paused], the
    second learns the histogram. *)
Example selection_while_paused :
  let paused_st :=
    on_key "p" (process_frame (cs := losing_camshift) default_params (640, 480)
                  initial_tracker) in
  let selected :=
    onMouse EVENT_LBUTTONUP 200 220
      (onMouse EVENT_RBUTTONDOWN 100 100 paused_st) in
  track_state paused_st = Paused /\
  track_object selected = -1 /\
  track_object (process_frame (cs := losing_camshift) default_params (640, 480)
                  selected) = -1 /\
  track_state
    (process_frame (cs := losing_camshift) default_params (640, 480)
       (process_frame (cs := losing_camshift) default_params (640, 480)
          selected)) = Tracking.
Proof. repeat split; vm_compute; reflexivity. Qed.

(** ** The mask and its copy *)

Module MatStoreFacts.
Import stdpp.base stdpp.option stdpp.gmap MatStore.

(** Copying into an empty header allocates a buffer that no header of
    the store refers to. *)
Lemma copyTo_empty (a : positive) (img : Mat Z) (h : gmap positive (Mat Z)) :
  h !! a = Some img ->
  copyTo (Some a) None h = (<[fresh (dom h) := img]> h, Some (fresh (dom h))).
Proof. intros H. unfold copyTo. cbn. rewrite H. reflexivity. Qed.

Lemma fresh_unused (h : gmap positive (Mat Z)) : h !! fresh (dom h) = None.
Proof. apply not_elem_of_dom. apply is_fresh. Qed.

(** C9.  Blob selection does not change the mask it is given: the
    contours are extracted from a copy, in a buffer of its own, and it
    is the copy that [findContours] overwrites.  The pixels of the mask
    are the same before and after extraction and selection, and so are
    those of every other buffer of the store. *)
Theorem mask_not_mutated {cv : Vision} (max_blob_area : Z) (a : positive)
  (img : Mat Z) (h : gmap positive (Mat Z)) :
  h !! a = Some img ->
  fst (object_tracking max_blob_area (Some a) h) !! a = Some img /\
  (forall b : positive, is_Some (h !! b) ->
     fst (object_tracking max_blob_area (Some a) h) !! b = h !! b) /\
  fst (object_tracking max_blob_area (Some a) h) !! fresh (dom h)
    = Some (findContours_leaves img) /\
  snd (object_tracking max_blob_area (Some a) h)
    = track_blobs max_blob_area (fst (findContours img)) (snd (findContours img)).
Proof.
  intros Ha. unfold object_tracking. rewrite (copyTo_empty a img h Ha).
  unfold find_contours. rewrite lookup_insert_eq.
  destruct (findContours img) as [contours hierarchy] eqn:E.
  cbn [fst snd].
  assert (Hold : forall b : positive, is_Some (h !! b) ->
            (<[fresh (dom h) := findContours_leaves img]>
               (<[fresh (dom h) := img]> h)) !! b = h !! b).
  { intros b [x Hb].
    assert (b <> fresh (dom h)).
    { intros ->. rewrite fresh_unused in Hb. discriminate. }
    rewrite !lookup_insert_ne by auto. reflexivity. }
  split; [rewrite Hold by eauto; exact Ha|].
  split; [exact Hold|].
  split; [apply lookup_insert_eq | reflexivity].
Qed.

(** The theorem on a store that holds the mask and nothing else. *)
Lemma mask_not_mutated_witness :
  fst (object_tracking (cv := sample_vision) 4 (Some 1%positive)
         {[ 1%positive := checker_mask ]}) !! 1%positive = Some checker_mask /\
  (forall b : positive,
     is_Some (({[ 1%positive := checker_mask ]} : gmap positive (Mat Z)) !! b) ->
     fst (object_tracking (cv := sample_vision) 4 (Some 1%positive)
            {[ 1%positive := checker_mask ]}) !! b
     = ({[ 1%positive := checker_mask ]} : gmap positive (Mat Z)) !! b) /\
  fst (object_tracking (cv := sample_vision) 4 (Some 1%positive)
         {[ 1%positive := checker_mask ]})
    !! fresh (dom ({[ 1%positive := checker_mask ]} : gmap positive (Mat Z)))
    = Some (findContours_leaves (Vision := sample_vision) checker_mask) /\
  snd (object_tracking (cv := sample_vision) 4 (Some 1%positive)
         {[ 1%positive := checker_mask ]})
    = track_blobs (cv := sample_vision) 4
        (fst (findContours (Vision := sample_vision) checker_mask))
        (snd (findContours (Vision := sample_vision) checker_mask)).
Proof.
  apply (mask_not_mutated (cv := sample_vision) 4 1%positive checker_mask
           {[ 1%positive := checker_mask ]}).
  reflexivity.
Defined.

End MatStoreFacts.

(** * Properties of the rest of the code *)

(** ** Settings and frame size *)

Lemma on_trackbar_fixed (p : Params) :
  Z.even (blur_kernel_size p) = false -> erode_size p <> 0 -> dilate_size p <> 0 ->
  on_trackbar p = p.
Proof.
  intros Hb He Hd. unfold on_trackbar. rewrite rem2_even, Hb.
  apply Z.eqb_neq in He, Hd. rewrite He, Hd. reflexivity.
Qed.

(** X1.  Whatever the settings, after [on_trackbar] the blur kernel
    size is odd and the erode and dilate sizes are not 0; running the
    handler again changes nothing. *)
Theorem on_trackbar_idempotent (p : Params) :
  Z.Odd (blur_kernel_size (on_trackbar p)) /\
  erode_size (on_trackbar p) <> 0 /\
  dilate_size (on_trackbar p) <> 0 /\
  on_trackbar (on_trackbar p) = on_trackbar p.
Proof.
  assert (Hb : Z.even (blur_kernel_size (on_trackbar p)) = false).
  { rewrite on_trackbar_blur. destruct (Z.even (blur_kernel_size p)) eqn:E.
    - rewrite Z.even_add, E. reflexivity.
    - exact E. }
  assert (He : erode_size (on_trackbar p) <> 0).
  { rewrite on_trackbar_erode. destruct (erode_size p =? 0) eqn:E.
    - discriminate.
    - apply Z.eqb_neq, E. }
  assert (Hd : dilate_size (on_trackbar p) <> 0).
  { rewrite on_trackbar_dilate. destruct (dilate_size p =? 0) eqn:E.
    - discriminate.
    - apply Z.eqb_neq, E. }
  split; [|split; [exact He | split; [exact Hd|]]].
  - apply Z.odd_spec. rewrite <- Z.negb_even, Hb. reflexivity.
  - apply on_trackbar_fixed; assumption.
Qed.

(** The scaled width as the code computes it: [ratio] rounded to
    [double], the product rounded to [double], the result truncated. *)
Lemma scaled_width (width height : Z) :
  0 <= width <= INT_MAX -> PROCESSING_VIDEO_HEIGHT_LIMIT < height ->
  exists r : Q,
    f_mul binary64 (Finite (inject_Z width))
      (f_div binary64 (Finite (inject_Z PROCESSING_VIDEO_HEIGHT_LIMIT))
                      (Finite (inject_Z height))) = Finite r /\
    (0 <= r)%Q /\ (r <= inject_Z width)%Q /\
    (Qabs (r - inject_Z width * inject_Z PROCESSING_VIDEO_HEIGHT_LIMIT
               / inject_Z height) <= 1 # 2097152)%Q.
Proof.
  unfold PROCESSING_VIDEO_HEIGHT_LIMIT, INT_MAX. intros Hw Hh. cbn [f_div].
  assert (Hh0 : (0 < inject_Z height)%Q) by (rewrite <- (Zlt_Qlt 0); lia).
  assert (Hh1 : (inject_Z 1080 < inject_Z height)%Q) by (rewrite <- Zlt_Qlt; lia).
  assert (Hw0 : (0 <= inject_Z width)%Q) by (rewrite <- (Zle_Qle 0); lia).
  assert (Hw1 : (inject_Z width <= inject_Z (2 ^ 31))%Q) by (rewrite <- Zle_Qle; lia).
  change (inject_Z 1080) with 1080%Q in *.
  change (inject_Z (2 ^ 31)) with 2147483648%Q in Hw1.
  replace (Qeq_bool (inject_Z height) 0) with false
    by (symmetry; apply not_true_iff_false; rewrite Qeq_bool_iff; lra).
  set (q := (1080 / inject_Z height)%Q).
  assert (Hq : (0 <= q)%Q /\ (q <= 1)%Q).
  { unfold q. split.
    - apply Qle_shift_div_l; [exact Hh0 | lra].
    - apply Qle_shift_div_r; [exact Hh0 | lra]. }
  destruct (round_between binary64 q 0 1) as (ratio & Eratio & R0 & R1);
    try format_side.
  { change (inject_Z 0) with 0%Q. lra. }
  { change (inject_Z 1) with 1%Q. lra. }
  change (inject_Z 0) with 0%Q in R0. change (inject_Z 1) with 1%Q in R1.
  pose proof (round_error binary64 q ratio 0
                ltac:(change (pow2 0) with 1%Q; apply Qabs_Qle_condition; lra)
                Eratio) as Rratio.
  eval_pow2 Rratio. apply Qabs_Qle_condition in Rratio.
  rewrite Eratio. cbn [f_mul].
  destruct (round_between binary64 (inject_Z width * ratio) 0 width)
    as (r & Er & P0 & P1); try format_side.
  { change (inject_Z 0) with 0%Q. nra. }
  { nra. }
  change (inject_Z 0) with 0%Q in P0.
  pose proof (round_error binary64 (inject_Z width * ratio) r 31
                ltac:(change (pow2 31) with 2147483648%Q;
                      apply Qabs_Qle_condition; nra) Er) as Rr.
  eval_pow2 Rr. apply Qabs_Qle_condition in Rr.
  exists r. split; [exact Er|]. split; [exact P0|]. split; [exact P1|].
  assert (E : (inject_Z width * 1080 / inject_Z height == inject_Z width * q)%Q).
  { unfold q. field. lra. }
  rewrite E. apply Qabs_Qle_condition.
  assert (Hprod : (- (1 # 4194304) <= inject_Z width * (ratio - q))%Q /\
                  (inject_Z width * (ratio - q) <= 1 # 4194304)%Q).
  { split; nra. }
  split; lra.
Qed.

(** X2.  The processing size never exceeds the size of the input nor
    1080 lines.  An input of at most 1080 lines is left as it is; a
    taller one is brought to 1080 lines, and its width is the width
    scaled by [1080 / height] in [double] and cut to an integer: the
    exact scaled width rounded down, up to an error of [2 ^ -21] before
    the cut. *)
Theorem resize_never_enlarges (width height : Z) :
  0 <= width <= INT_MAX -> 0 < height <= INT_MAX ->
  0 <= fst (resized_video_size (width, height)) <= width /\
  0 < snd (resized_video_size (width, height)) <= height /\
  snd (resized_video_size (width, height)) <= PROCESSING_VIDEO_HEIGHT_LIMIT /\
  (height <= PROCESSING_VIDEO_HEIGHT_LIMIT ->
   resized_video_size (width, height) = (width, height)) /\
  (PROCESSING_VIDEO_HEIGHT_LIMIT < height ->
   snd (resized_video_size (width, height)) = PROCESSING_VIDEO_HEIGHT_LIMIT /\
   (inject_Z (fst (resized_video_size (width, height)))
    <= inject_Z width * inject_Z PROCESSING_VIDEO_HEIGHT_LIMIT / inject_Z height
       + (1 # 2097152))%Q /\
   (inject_Z width * inject_Z PROCESSING_VIDEO_HEIGHT_LIMIT / inject_Z height
    - (1 # 2097152)
    < inject_Z (fst (resized_video_size (width, height))) + 1)%Q).
Proof.
  intros Hw Hh. unfold resized_video_size.
  destruct (PROCESSING_VIDEO_HEIGHT_LIMIT <? height) eqn:E.
  - apply Z.ltb_lt in E.
    destruct (scaled_width width height Hw E) as (r & -> & R0 & R1 & Rerr).
    cbn [fst snd double_to_int].
    pose proof (trunc_between 0 width r R0 R1) as Ht.
    replace (in_int (trunc r)) with true
      by (symmetry; unfold in_int, INT_MIN, INT_MAX in *;
          apply andb_true_iff; split; apply Z.leb_le; lia).
    rewrite trunc_floor in * by exact R0.
    pose proof (Qfloor_le r) as Hlo. pose proof (Qlt_floor r) as Hhi.
    rewrite inject_Z_plus in Hhi. change (inject_Z 1) with 1%Q in Hhi.
    apply Qabs_Qle_condition in Rerr.
    unfold PROCESSING_VIDEO_HEIGHT_LIMIT in *.
    split; [exact Ht|]. split; [lia|]. split; [lia|]. split; [lia|].
    intros _. split; [reflexivity|]. split; lra.
  - apply Z.ltb_ge in E. cbn [fst snd]. unfold PROCESSING_VIDEO_HEIGHT_LIMIT in *.
    repeat split; try lia.
Qed.

(** The theorem on a 4K input, which becomes 1920 by 1080. *)
Lemma resize_never_enlarges_witness :
  0 <= fst (resized_video_size (3840, 2160)) <= 3840 /\
  0 < snd (resized_video_size (3840, 2160)) <= 2160 /\
  snd (resized_video_size (3840, 2160)) <= PROCESSING_VIDEO_HEIGHT_LIMIT /\
  (2160 <= PROCESSING_VIDEO_HEIGHT_LIMIT ->
   resized_video_size (3840, 2160) = (3840, 2160)) /\
  (PROCESSING_VIDEO_HEIGHT_LIMIT < 2160 ->
   snd (resized_video_size (3840, 2160)) = PROCESSING_VIDEO_HEIGHT_LIMIT /\
   (inject_Z (fst (resized_video_size (3840, 2160)%Z))
    <= inject_Z 3840 * inject_Z PROCESSING_VIDEO_HEIGHT_LIMIT / inject_Z 2160
       + (1 # 2097152))%Q /\
   (inject_Z 3840 * inject_Z PROCESSING_VIDEO_HEIGHT_LIMIT / inject_Z 2160
    - (1 # 2097152)
    < inject_Z (fst (resized_video_size (3840, 2160)%Z)) + 1)%Q).
Proof.
  apply (resize_never_enlarges 3840 2160); unfold INT_MAX; lia.
Defined.

(** The rounding shows on an input of 3000 by 1875: the exact scaled
    width is 1728, the ratio 0.576 is no [double], the product comes
    out just below 1728 and is cut to 1727.  A 4K input gives 1920. *)
Example resized_sizes :
  resized_video_size (3000, 1875) = (1727, 1080) /\
  resized_video_size (2816, 1584) = (1919, 1080) /\
  resized_video_size (3840, 2160) = (1920, 1080) /\
  resized_video_size (1280, 720) = (1280, 720).
Proof. repeat split; vm_compute; reflexivity. Qed.

(** ** The masks *)

Lemma zip_with_map {A B C D : Type} (f : B -> C -> D) (g : A -> B) (h : A -> C)
  (l : list A) :
  zip_with f (map g l) (map h l) = map (fun x => f (g x) (h x)) l.
Proof. induction l as [|a l IH]; cbn; [reflexivity | rewrite IH; reflexivity]. Qed.

Lemma threshold_pixelwise (p : Params) (HSV_frame : Mat Pixel) :
  threshold p HSV_frame = mat_map (threshold_pixel p) HSV_frame.
Proof.
  unfold threshold, lower_red_threshold, upper_red_threshold, mat_zip, mat_map.
  rewrite zip_with_map. apply map_ext. intros line.
  rewrite zip_with_map. reflexivity.
Qed.

(** X3.  The combined mask has the dimensions of the frame: as many
    rows, and in each row as many pixels. *)
Theorem threshold_keeps_dimensions (p : Params) (HSV_frame : Mat Pixel) :
  length (threshold p HSV_frame) = length HSV_frame /\
  (forall (row : nat) (line : list Pixel),
     nth_error HSV_frame row = Some line ->
     exists mask_line : list Z,
       nth_error (threshold p HSV_frame) row = Some mask_line /\
       length mask_line = length line).
Proof.
  rewrite threshold_pixelwise. unfold mat_map. split.
  - apply length_map.
  - intros row line H. exists (map (threshold_pixel p) line). split.
    + rewrite nth_error_map, H. reflexivity.
    + apply length_map.
Qed.

(** X4.  The mask of the adaptive pipeline does not constrain the hue:
    on a pixel whose hue is in the range 0..180 of 8-bit HSV it is 255
    exactly when saturation and value are in their ranges.  Every
    foreground pixel of the static mask is a foreground pixel of it. *)
Theorem saturation_value_mask (p : Params) (HSV_frame : Mat Pixel)
  (row col : nat) (h s v : Z) :
  mat_at HSV_frame row col = Some (h, s, v) ->
  0 <= h <= 180 ->
  exists m : Z,
    mat_at (saturation_value_threshold p HSV_frame) row col = Some m /\
    (m = 0 \/ m = 255) /\
    (m = 255 <->
     saturation_min p <= s <= saturation_max p /\
     value_min p <= v <= value_max p) /\
    (forall t : Z,
       mat_at (threshold p HSV_frame) row col = Some t -> t <> 0 -> m = 255).
Proof.
  intros Hpx Hh. eexists. split.
  { unfold saturation_value_threshold. rewrite mat_at_map, Hpx. reflexivity. }
  destruct (inRange_spec 0 (saturation_min p) (value_min p)
              180 (saturation_max p) (value_max p) h s v)
    as [[-> Hin] | [-> Hout]].
  - split; [auto|]. split; [split; [intros _; lia | reflexivity]|].
    reflexivity.
  - split; [auto|]. split; [split; [discriminate | intros H; exfalso; lia]|].
    intros t Ht Hne. exfalso.
    rewrite threshold_pixelwise, mat_at_map, Hpx in Ht. cbn in Ht.
    injection Ht as <-. unfold threshold_pixel in Hne.
    destruct (inRange_spec (hue_1_min p) (saturation_min p) (value_min p)
                (hue_1_max p) (saturation_max p) (value_max p) h s v)
      as [[E1 H1] | [E1 H1]];
    destruct (inRange_spec (hue_2_min p) (saturation_min p) (value_min p)
                (hue_2_max p) (saturation_max p) (value_max p) h s v)
      as [[E2 H2] | [E2 H2]];
    rewrite E1, E2 in Hne; try lia.
    apply Hne. reflexivity.
Qed.

(** The theorem on the second pixel of a two-pixel frame, a green pixel
    that the static mask rejects. *)
Lemma saturation_value_mask_witness :
  exists m : Z,
    mat_at (saturation_value_threshold default_params
              [[(5, 200, 150); (90, 200, 150)]]) 0 1 = Some m /\
    (m = 0 \/ m = 255) /\
    (m = 255 <->
     saturation_min default_params <= 200 <= saturation_max default_params /\
     value_min default_params <= 150 <= value_max default_params) /\
    (forall t : Z,
       mat_at (threshold default_params [[(5, 200, 150); (90, 200, 150)]]) 0 1
         = Some t -> t <> 0 -> m = 255).
Proof.
  apply (saturation_value_mask default_params [[(5, 200, 150); (90, 200, 150)]]
           0 1 90 200 150).
  - reflexivity.
  - lia.
Defined.

(** ** The contour loop, further *)

(** X5.  Regions outside the area bounds never influence the selection:
    the loop ends in the same state as on the qualifying regions
    alone, whatever state it starts from. *)
Theorem select_ignores_rejected {cv : Vision} (max_blob_area : Z)
  (regions : list (Z * Contour)) (b : Blob) :
  select max_blob_area regions b =
  select max_blob_area (filter (qualifies max_blob_area) regions) b.
Proof.
  revert b. induction regions as [|[i c] regions IH]; intros b; [reflexivity|].
  cbn [filter]. destruct (qualifies max_blob_area (i, c)) eqn:Hq.
  - cbn [select fold_left]. apply IH.
  - cbn [select fold_left fst snd].
    unfold qualifies, region_area in Hq. cbn [snd] in Hq.
    unfold blob_step at 2. rewrite Hq. apply IH.
Qed.

(** X6.  "EMILY not found!" is written only when [findContours] found
    no contour at all.  When there are contours, the text is never
    written, also when every one of them fails the area filter. *)
Theorem not_found_text_only_without_contours {cv : Vision}
  (max_blob_area : Z) :
  (forall contours : list Contour,
     track_blobs max_blob_area contours []
       = Some (mkTracked no_blob [NotFoundText])) /\
  (forall (contours : list Contour) (hierarchy : list Vec4i) (t : Tracked),
     hierarchy <> [] ->
     track_blobs max_blob_area contours hierarchy = Some t ->
     ~ In NotFoundText (overlay t)).
Proof.
  split; [reflexivity|].
  intros contours hierarchy t Hne H. unfold track_blobs in H.
  destruct hierarchy as [|h hierarchy]; [contradiction|].
  cbn [length Nat.ltb Nat.leb] in H.
  destruct (blob_loop _ _ _ _ _ _) as [b|]; [|discriminate].
  destruct (object_found b).
  - destruct (nth_error contours _) as [contour|]; [|discriminate].
    unfold draw_pose in H.
    destruct (4 <? length contour)%nat.
    + unfold draw_principal_axis, get_size in H.
      destruct (shortest_axis_index _) as [k|]; [|discriminate].
      injection H as <-. cbn. intros [E | [E | []]]; discriminate.
    + injection H as <-. cbn. auto.
  - injection H as <-. cbn. auto.
Qed.

(** X7.  When the boundary of the selected region has more than 4
    points (and the corners of the fitted ellipse have coordinates of
    at most [2 ^ 126], so that no side overflows), the frame gets
    exactly two drawings: the principal axis of the fitted ellipse, then
    the crosshairs at the centroid of the region, as the loop stored
    it, with the size of the ellipse as radius. *)
Theorem large_boundary_draws_pose {cv : Vision} (max_blob_area : Z)
  (contours : list Contour) (hierarchy : list Vec4i)
  (regions : list (Z * Contour)) (contour : Contour) :
  visits contours hierarchy 0 regions ->
  object_found (select max_blob_area regions no_blob) = true ->
  nth_error contours
    (Z.to_nat (max_area_contour_index (select max_blob_area regions no_blob)))
    = Some contour ->
  (4 < length contour)%nat ->
  rect_within (pow2 126) (fitEllipse contour) = true ->
  exists (k : Z) (size : Float),
    shortest_axis_index (shortest_side (fitEllipse contour)) = Some k /\
    get_size (fitEllipse contour) = Some size /\
    track_blobs max_blob_area contours hierarchy
      = Some (mkTracked (select max_blob_area regions no_blob)
                [Line (shortest_axis_midpoint_1 (fitEllipse contour) k)
                      (shortest_axis_midpoint_2 (fitEllipse contour) k);
                 Crosshairs (fst (centroid (moments contour)))
                            (snd (centroid (moments contour))) size]).
Proof.
  intros Hvisits Hfound Hnth Hlen Hfin.
  destruct (blob_loop_returns max_blob_area _ _ _ Hvisits) as [Hloop Hsize].
  destruct (pose_drawn _ Hfin) as (k & Hk).
  exists k. eexists. split; [exact Hk|].
  split; [unfold get_size; rewrite Hk; reflexivity|].
  unfold track_blobs. rewrite Hsize, Hloop, Hfound, Hnth.
  unfold draw_pose. apply Nat.ltb_lt in Hlen. rewrite Hlen.
  unfold draw_principal_axis, get_size. rewrite Hk. cbn [app].
  destruct (select_spec max_blob_area regions)
    as [[Hnone Hsel] | (before & i & c & after & Hreg & Hfl & Hsel)].
  - rewrite Hsel in Hfound. discriminate.
  - rewrite Hsel in Hnth. cbn [max_area_contour_index] in Hnth.
    assert (Hc : nth_error contours (Z.to_nat i) = Some c).
    { eapply (visits_lookup _ _ _ _ Hvisits). rewrite Hreg. apply in_elt. }
    rewrite Hc in Hnth. injection Hnth as <-.
    rewrite Hsel. reflexivity.
Qed.

(** The theorem on the square given by eight points. *)
Lemma large_boundary_draws_pose_witness :
  exists (k : Z) (size : Float),
    shortest_axis_index
      (shortest_side (fitEllipse (Vision := sample_vision) square_8)) = Some k /\
    get_size (fitEllipse (Vision := sample_vision) square_8) = Some size /\
    track_blobs (cv := sample_vision) 307200 [square_8] alone
      = Some (mkTracked
                (select (cv := sample_vision) 307200 [(0, square_8)] no_blob)
                [Line (shortest_axis_midpoint_1
                         (fitEllipse (Vision := sample_vision) square_8) k)
                      (shortest_axis_midpoint_2
                         (fitEllipse (Vision := sample_vision) square_8) k);
                 Crosshairs
                   (fst (centroid (moments (Vision := sample_vision) square_8)))
                   (snd (centroid (moments (Vision := sample_vision) square_8)))
                   size]).
Proof.
  apply (large_boundary_draws_pose (cv := sample_vision) 307200
           [square_8] alone [(0, square_8)] square_8).
  - eapply visits_next; [lia | reflexivity | reflexivity |].
    apply visits_end. cbn. lia.
  - reflexivity.
  - reflexivity.
  - cbn. lia.
  - vm_compute. reflexivity.
Defined.

(** ** Rectangles *)

(** The intersection holds the pixels of both rectangles, and only
    those. *)
Lemma rect_and_contains (a b : Rect) (p : Point) :
  contains (rect_and a b) p <-> contains a p /\ contains b p.
Proof.
  unfold rect_and, contains.
  match goal with |- context [if ?c then _ else _] => destruct c eqn:E end;
    cbn [rx ry rwidth rheight].
  - apply orb_true_iff in E. rewrite !Z.leb_le in E. lia.
  - apply orb_false_iff in E. rewrite !Z.leb_gt in E. lia.
Qed.

(** Clipping to a frame gives the empty rectangle or a rectangle of
    positive sides within the frame. *)
Lemma rect_and_frame (a : Rect) (cols rows : Z) :
  rect_and a (mkRect 0 0 cols rows) = mkRect 0 0 0 0 \/
  (0 < rwidth (rect_and a (mkRect 0 0 cols rows)) /\
   0 < rheight (rect_and a (mkRect 0 0 cols rows)) /\
   inside cols rows (rect_and a (mkRect 0 0 cols rows))).
Proof.
  unfold rect_and, inside.
  match goal with |- context [if ?c then _ else _] => destruct c eqn:E end;
    cbn [rx ry rwidth rheight] in *; [left; reflexivity | right].
  apply orb_false_iff in E. rewrite !Z.leb_gt in E. lia.
Qed.

(** ** The mouse handler *)

Section MouseFacts.
Context {cs : Camshift}.

(** X8.  While a selection is dragged, after any mouse event but a new
    right-button press the selection holds exactly the pixels that lie
    between the click origin and the mouse position and inside the
    frame, whichever way the mouse was dragged. *)
Theorem dragged_selection (event : MouseEvent) (x y : Z) (st : Tracker)
  (px py : Z) :
  select_object st = true ->
  event <> EVENT_RBUTTONDOWN ->
  contains (selection (onMouse event x y st)) (px, py) <->
  Z.min x (fst (origin st)) <= px < Z.max x (fst (origin st)) /\
  Z.min y (snd (origin st)) <= py < Z.max y (snd (origin st)) /\
  0 <= px < original_cols st /\
  0 <= py < original_rows st.
Proof.
  intros Hsel Hev.
  assert (E : selection (onMouse event x y st) =
              rect_and (mkRect (Z.min x (fst (origin st)))
                               (Z.min y (snd (origin st)))
                               (Z.abs (x - fst (origin st)))
                               (Z.abs (y - snd (origin st))))
                       (mkRect 0 0 (original_cols st) (original_rows st))).
  { unfold onMouse. rewrite Hsel.
    destruct event; try contradiction; try reflexivity.
    cbn [selection set_select_object set_selection].
    match goal with |- context [if ?c then _ else _] => destruct c end;
      reflexivity. }
  rewrite E, rect_and_contains. unfold contains. cbn [rx ry rwidth rheight fst snd].
  lia.
Qed.

End MouseFacts.

(** The theorem on a drag towards the upper left, from (200, 220) to
    (150, 160), ended there. *)
Lemma dragged_selection_witness :
  contains
    (selection
       (onMouse (cs := losing_camshift) EVENT_LBUTTONUP 150 160
          (onMouse EVENT_RBUTTONDOWN 200 220 tracking_at_100_100)))
    (175, 190) <->
  Z.min 150 (fst (origin (onMouse EVENT_RBUTTONDOWN 200 220 tracking_at_100_100)))
    <= 175
    < Z.max 150 (fst (origin (onMouse EVENT_RBUTTONDOWN 200 220 tracking_at_100_100))) /\
  Z.min 160 (snd (origin (onMouse EVENT_RBUTTONDOWN 200 220 tracking_at_100_100)))
    <= 190
    < Z.max 160 (snd (origin (onMouse EVENT_RBUTTONDOWN 200 220 tracking_at_100_100))) /\
  0 <= 175 < original_cols (onMouse EVENT_RBUTTONDOWN 200 220 tracking_at_100_100) /\
  0 <= 190 < original_rows (onMouse EVENT_RBUTTONDOWN 200 220 tracking_at_100_100).
Proof.
  apply (dragged_selection (cs := losing_camshift) EVENT_LBUTTONUP 150 160
           (onMouse EVENT_RBUTTONDOWN 200 220 tracking_at_100_100) 175 190).
  - reflexivity.
  - discriminate.
Defined.

(** ** The adaptive loop *)

Section LoopFacts.
Context {cs : Camshift}.

(** What a frame and a key leave alone. *)
Lemma camshift_branch_fields (p : Params) (st : Tracker) :
  selection (camshift_branch p st) = selection st /\
  original_frame (camshift_branch p st) = original_frame st /\
  select_object (camshift_branch p st) = select_object st /\
  (track_object (camshift_branch p st) = track_object st \/
   (track_object st < 0 /\ track_object (camshift_branch p st) = 1)).
Proof.
  unfold camshift_branch.
  destruct (paused st).
  - cbn [negb]. destruct (track_object st <? 0); cbn; auto.
  - cbn [negb]. destruct (track_object st =? 0); [auto|].
    destruct (original_frame st) as [f|] eqn:Ef; [|rewrite ?Ef; auto].
    unfold track. destruct (track_object st <? 0) eqn:Et; cbn; rewrite ?Ef; auto.
    apply Z.ltb_lt in Et. auto 6.
Qed.

Lemma on_key_fields (character : ascii) (st : Tracker) :
  selection (on_key character st) = selection st /\
  original_frame (on_key character st) = original_frame st /\
  select_object (on_key character st) = select_object st /\
  (track_object (on_key character st) = track_object st \/
   track_object (on_key character st) = 0).
Proof.
  unfold on_key.
  destruct (Ascii.eqb character "b"); [cbn; auto|].
  destruct (Ascii.eqb character "c"); [cbn; auto|].
  destruct (Ascii.eqb character "p"); cbn; auto.
Qed.

Lemma dragged_ok (cols rows : Z) (st : Tracker) (a : Rect) :
  (forall f, original_frame st = Some f ->
     frame_cols f = cols /\ frame_rows f = rows) ->
  selection_ok cols rows
    (rect_and a (mkRect 0 0 (original_cols st) (original_rows st))) /\
  (0 < rwidth (rect_and a (mkRect 0 0 (original_cols st) (original_rows st))) ->
   original_frame st <> None).
Proof.
  intros Hdims. unfold selection_ok.
  destruct (rect_and_frame a (original_cols st) (original_rows st))
    as [-> | (Hw & Hh & Hin)].
  - cbn. split; [left; auto | lia].
  - unfold original_cols, original_rows in *.
    destruct (original_frame st) as [f|].
    + destruct (Hdims f eq_refl) as [Ec Er]. rewrite Ec, Er in *.
      split; [right; auto | intros _; discriminate].
    + unfold inside in Hin. lia.
Qed.

Lemma onMouse_ok (cols rows : Z) (event : MouseEvent) (x y : Z) (st : Tracker) :
  tracker_ok cols rows st -> tracker_ok cols rows (onMouse event x y st).
Proof.
  intros Hok. unfold onMouse.
  set (st1 := if select_object st then _ else st).
  assert (H1 : tracker_ok cols rows st1).
  { unfold st1. destruct (select_object st); [|exact Hok].
    destruct Hok as (Ht & Hs & Hd & Hw & Hf).
    match goal with |- context [rect_and ?a _] =>
      destruct (dragged_ok cols rows st a Hd) as [Hs1 Hw1] end.
    exact (conj Ht (conj Hs1 (conj Hd (conj Hw1 Hf)))). }
  clearbody st1. destruct H1 as (Ht1 & Hs1 & Hd1 & Hw1 & Hf1).
  assert (Hok1 : tracker_ok cols rows st1)
    by exact (conj Ht1 (conj Hs1 (conj Hd1 (conj Hw1 Hf1)))).
  destruct event; try exact Hok1.
  - (* right button pressed *)
    unfold tracker_ok. cbn.
    split; [exact Ht1|]. split; [left; auto|]. split; [exact Hd1|].
    split; [lia | exact Hf1].
  - (* left button released *)
    cbn [selection set_select_object].
    destruct ((0 <? rwidth (selection st1)) && (0 <? rheight (selection st1)))
      eqn:E.
    + apply andb_true_iff in E. destruct E as [E _]. apply Z.ltb_lt in E.
      unfold tracker_ok. cbn.
      split; [auto|]. split; [exact Hs1|]. split; [exact Hd1|].
      split; [exact Hw1 | intros _; apply Hw1, E].
    + exact Hok1.
Qed.

Lemma frame_read_ok (cols rows : Z) (f : Frame) (st : Tracker) :
  frame_cols f = cols -> frame_rows f = rows ->
  tracker_ok cols rows st ->
  tracker_ok cols rows (if paused st then st else set_original_frame st f).
Proof.
  intros Hc Hr Hok. destruct (paused st); [exact Hok|].
  destruct Hok as (Ht & Hs & Hd & Hw & Hf).
  unfold tracker_ok. cbn.
  split; [exact Ht|]. split; [exact Hs|].
  split; [intros f0 E; injection E as <-; auto|].
  split; intros _; discriminate.
Qed.

Lemma iteration_ok (cols rows : Z) (p : Params) (character : ascii)
  (st : Tracker) :
  tracker_ok cols rows st ->
  tracker_ok cols rows (on_key character (camshift_branch p st)).
Proof.
  intros (Ht & Hs & Hd & Hw & Hf).
  destruct (camshift_branch_fields p st) as (Es & Eo & _ & Et).
  destruct (on_key_fields character (camshift_branch p st)) as (Es' & Eo' & _ & Et').
  unfold tracker_ok. rewrite Es', Eo', Es, Eo.
  split; [lia|]. split; [exact Hs|]. split; [exact Hd|].
  split; [exact Hw|]. intros Hne. apply Hf. lia.
Qed.

(** X9.  In every state the loop can reach, on a video whose frames all
    have the same size: [track_object] is -1, 0 or 1; the selection is
    empty or a rectangle of positive sides within the frame; and
    tracking is on, or a selection non-empty, only once a frame has
    been read. *)
Theorem reachable_ok (cols rows : Z) (st : Tracker) :
  reachable cols rows st -> tracker_ok cols rows st.
Proof.
  induction 1 as [| st event x y Hreach IH
                  | st st' p next character Hreach IH Hframes Hbody].
  - unfold tracker_ok. cbn.
    split; [auto|]. split; [left; auto|]. split; [discriminate|].
    split; [lia | intros H; contradiction].
  - apply onMouse_ok, IH.
  - unfold loop_body in Hbody.
    destruct next as [f|].
    + destruct (Hframes f eq_refl) as [Hc Hr].
      assert (E : st' = on_key character (process_frame p f st)).
      { destruct (paused st);
          destruct (Ascii.eqb character (ascii_of_nat 27));
          congruence. }
      rewrite E. unfold process_frame.
      apply iteration_ok, frame_read_ok; assumption.
    + destruct (paused st); [|discriminate].
      destruct (Ascii.eqb character (ascii_of_nat 27)); [discriminate|].
      injection Hbody as <-. apply iteration_ok, IH.
Qed.

End LoopFacts.

(** The theorem on the state after a first frame of 640 by 480 and a
    right-button press. *)
Lemma reachable_ok_witness :
  tracker_ok (cs := losing_camshift) 640 480
    (onMouse EVENT_RBUTTONDOWN 100 100
       (on_key "a" (process_frame (cs := losing_camshift) default_params
                      (640, 480) initial_tracker))).
Proof.
  apply (reachable_ok (cs := losing_camshift) 640 480).
  apply reach_mouse.
  apply (reach_iteration (cs := losing_camshift) 640 480 initial_tracker _
           default_params (Some (640, 480)) "a").
  - apply reach_start.
  - intros f E. injection E as <-. split; reflexivity.
  - reflexivity.
Defined.

Section SessionFacts.
Context {cs : Camshift}.
Variable p : Params.

(** X10.  A right-button press that arrives after a selection has been
    completed and before the next frame replaces the selection by the
    empty rectangle at the mouse position; the next frame then learns
    the histogram from that empty rectangle and starts tracking, while
    the new selection is still being dragged. *)
Theorem press_before_next_frame (f : Frame) (x y : Z) (st : Tracker) :
  track_object st = -1 ->
  paused st = false ->
  selection (onMouse EVENT_RBUTTONDOWN x y st) = mkRect x y 0 0 /\
  track_object (process_frame p f (onMouse EVENT_RBUTTONDOWN x y st)) = 1 /\
  select_object (process_frame p f (onMouse EVENT_RBUTTONDOWN x y st)) = true /\
  histogram (process_frame p f (onMouse EVENT_RBUTTONDOWN x y st))
    = calcHist f p (mkRect x y 0 0).
Proof.
  intros Ht Hp.
  assert (Hsel : selection (onMouse EVENT_RBUTTONDOWN x y st) = mkRect x y 0 0).
  { unfold onMouse. destruct (select_object st); reflexivity. }
  assert (Ht' : track_object (onMouse EVENT_RBUTTONDOWN x y st) = -1).
  { unfold onMouse. destruct (select_object st); exact Ht. }
  assert (Hp' : paused (onMouse EVENT_RBUTTONDOWN x y st) = false).
  { unfold onMouse. destruct (select_object st); exact Hp. }
  assert (Hs' : select_object (onMouse EVENT_RBUTTONDOWN x y st) = true).
  { unfold onMouse. destruct (select_object st); reflexivity. }
  destruct (process_frame_learns p f _ Hp' Ht') as (H1 & H2 & H3 & _).
  rewrite Hsel in H2. rewrite Hs' in H3. auto.
Qed.

(** X11.  The key 'c' stops tracking and nothing else: the histogram,
    the search window and the selection stay as they are, and from then
    on an unpaused loop only stores each frame, until a new selection
    is made. *)
Theorem stop_keeps_histogram (st : Tracker) :
  track_object (on_key "c" st) = 0 /\
  histogram (on_key "c" st) = histogram st /\
  object_of_interest (on_key "c" st) = object_of_interest st /\
  selection (on_key "c" st) = selection st /\
  (paused st = false ->
   forall frames : list Frame,
     histogram (fold_left (fun s f => process_frame p f s) frames (on_key "c" st))
       = histogram st /\
     object_of_interest
       (fold_left (fun s f => process_frame p f s) frames (on_key "c" st))
       = object_of_interest st /\
     track_object
       (fold_left (fun s f => process_frame p f s) frames (on_key "c" st)) = 0).
Proof.
  repeat (split; [reflexivity|]).
  intros Hp frames.
  assert (H : forall s : Tracker,
            paused s = false -> track_object s = 0 ->
            histogram (fold_left (fun s f => process_frame p f s) frames s)
              = histogram s /\
            object_of_interest (fold_left (fun s f => process_frame p f s) frames s)
              = object_of_interest s /\
            track_object (fold_left (fun s f => process_frame p f s) frames s) = 0).
  { induction frames as [|f frames IH]; intros s Hps Hts; [auto|].
    cbn [fold_left]. rewrite process_frame_idle by assumption.
    apply (IH (set_original_frame s f)); assumption. }
  apply (H (on_key "c" st)); [exact Hp | reflexivity].
Qed.

(** X12.  While the loop is paused no frame is read, whatever key is
    pressed: an iteration ends the same whether the capture has a frame
    to deliver or is exhausted, and an exhausted capture does not end
    the loop; the size of the frame held, the histogram, the search
    window and the selection are left as they were. *)
Theorem paused_iteration (next : option Frame) (character : ascii)
  (st : Tracker) :
  paused st = true ->
  character <> ascii_of_nat 27 ->
  exists st' : Tracker,
    loop_body p next character st = Some st' /\
    loop_body p None character st = Some st' /\
    original_cols st' = original_cols st /\
    original_rows st' = original_rows st /\
    histogram st' = histogram st /\
    object_of_interest st' = object_of_interest st /\
    selection st' = selection st.
Proof.
  intros Hp Hc. apply Ascii.eqb_neq in Hc.
  assert (E : forall n : option Frame,
            loop_body p n character st
            = Some (on_key character (camshift_branch p st))).
  { intros n. unfold loop_body, process_frame. rewrite Hp, Hc.
    destruct n; reflexivity. }
  eexists. split; [apply E|]. split; [apply E|].
  assert (Hb : camshift_branch p st = st \/
               camshift_branch p st = set_paused st false).
  { unfold camshift_branch. rewrite Hp. cbn [negb].
    destruct (track_object st <? 0); auto. }
  unfold on_key, original_cols, original_rows.
  destruct (Ascii.eqb character "b"), (Ascii.eqb character "c"),
    (Ascii.eqb character "p"); destruct Hb as [-> | ->]; cbn; auto 10.
Qed.

(** X13.  The keys 'b' and 'p' are toggles: pressed twice, they leave
    the tracker exactly as it was. *)
Theorem toggle_keys_twice (st : Tracker) :
  on_key "b" (on_key "b" st) = st /\ on_key "p" (on_key "p" st) = st.
Proof.
  destruct st as [b s t o sel fr w h pa].
  split; cbn; rewrite negb_involutive; reflexivity.
Qed.

End SessionFacts.

(** The theorems on concrete sessions of [losing_camshift]. *)
Lemma press_before_next_frame_witness :
  let st := onMouse (cs := losing_camshift) EVENT_LBUTTONUP 200 220
              (onMouse EVENT_RBUTTONDOWN 100 100
                 (set_track_object tracking_at_100_100 0)) in
  selection (onMouse EVENT_RBUTTONDOWN 300 310 st) = mkRect 300 310 0 0 /\
  track_object (process_frame (cs := losing_camshift) default_params (640, 480)
                  (onMouse EVENT_RBUTTONDOWN 300 310 st)) = 1 /\
  select_object (process_frame (cs := losing_camshift) default_params (640, 480)
                   (onMouse EVENT_RBUTTONDOWN 300 310 st)) = true /\
  histogram (process_frame (cs := losing_camshift) default_params (640, 480)
               (onMouse EVENT_RBUTTONDOWN 300 310 st))
    = calcHist (Camshift := losing_camshift) (640, 480) default_params
               (mkRect 300 310 0 0).
Proof.
  apply (press_before_next_frame (cs := losing_camshift) default_params
           (640, 480) 300 310
           (onMouse (cs := losing_camshift) EVENT_LBUTTONUP 200 220
              (onMouse EVENT_RBUTTONDOWN 100 100
                 (set_track_object tracking_at_100_100 0)))).
  - reflexivity.
  - reflexivity.
Defined.

Lemma paused_iteration_witness :
  exists st' : Tracker,
    loop_body (cs := losing_camshift) default_params (Some (1280, 720)) "x"
      (set_paused tracking_at_100_100 true) = Some st' /\
    loop_body (cs := losing_camshift) default_params None "x"
      (set_paused tracking_at_100_100 true) = Some st' /\
    original_cols st' = original_cols (set_paused tracking_at_100_100 true) /\
    original_rows st' = original_rows (set_paused tracking_at_100_100 true) /\
    histogram st' = histogram (set_paused tracking_at_100_100 true) /\
    object_of_interest st'
      = object_of_interest (set_paused tracking_at_100_100 true) /\
    selection st' = selection (set_paused tracking_at_100_100 true).
Proof.
  apply (paused_iteration (cs := losing_camshift) default_params
           (Some (1280, 720)) "x" (set_paused tracking_at_100_100 true)).
  - reflexivity.
  - discriminate.
Defined.

(** ** The collapsed search window, further *)

Lemma half_extent_positive (cols rows : Z) :
  2 <= cols -> 2 <= rows -> 1 <= Z.quot (Z.min cols rows + 5) 6.
Proof.
  intros Hc Hr. apply Z.quot_le_lower_bound; lia.
Qed.

Lemma half_extent_nonneg (cols rows : Z) :
  0 <= cols -> 0 <= rows -> 0 <= Z.quot (Z.min cols rows + 5) 6.
Proof. intros Hc Hr. apply Z.quot_pos; lia. Qed.

(** X14.  The window that replaces a collapsed one always lies within
    the frame.  When the collapsed window sits strictly inside the
    frame, the new window contains its position and covers more than
    one pixel, so the next frame starts from a usable window. *)
Theorem inflate_recovers_inside (cols rows : Z) (w : Rect) :
  0 <= cols -> 0 <= rows ->
  inside cols rows (inflate cols rows w) /\
  (0 < rx w < cols -> 0 < ry w < rows ->
   contains (inflate cols rows w) (rx w, ry w) /\
   1 < area (inflate cols rows w)).
Proof.
  intros Hc Hr. unfold inflate.
  set (s := Z.quot (Z.min cols rows + 5) 6).
  split.
  - match goal with |- context [rect_and ?a _] =>
      destruct (rect_and_frame a cols rows) as [-> | (_ & _ & H)] end.
    + unfold inside. cbn. lia.
    + exact H.
  - intros Hx Hy.
    assert (Hs : 1 <= s) by (apply half_extent_positive; lia).
    assert (Hin : contains
              (rect_and (mkRect (rx w - s) (ry w - s) (rx w + s) (ry w + s))
                        (mkRect 0 0 cols rows)) (rx w, ry w)).
    { apply rect_and_contains. unfold contains. cbn. lia. }
    split; [exact Hin|].
    assert (Hin2 : contains
              (rect_and (mkRect (rx w - s) (ry w - s) (rx w + s) (ry w + s))
                        (mkRect 0 0 cols rows)) (rx w - 1, ry w - 1)).
    { apply rect_and_contains. unfold contains. cbn. lia. }
    unfold contains in Hin, Hin2. cbn [fst snd] in Hin, Hin2.
    unfold area. nia.
Qed.

Section BorderFacts.
Context {cs : Camshift}.

(** X15.  A window that collapses on the left or the top border of the
    frame is not recovered: the window that replaces it is the empty
    rectangle at (0, 0), which the same step maps to itself.  So once
    CamShift leaves such a window while tracking, the search window is
    empty after the frame. *)
Theorem inflate_at_border (p : Params) (f : Frame) (st : Tracker) (w : Rect) :
  rx w <= 0 \/ ry w <= 0 ->
  inflate (frame_cols f) (frame_rows f) w = mkRect 0 0 0 0 /\
  inflate (frame_cols f) (frame_rows f) (mkRect 0 0 0 0) = mkRect 0 0 0 0 /\
  (paused st = false -> track_object st = 1 ->
   snd (CamShift f p (histogram st) (object_of_interest st)) = w ->
   area w <= 1 ->
   object_of_interest (process_frame p f st) = mkRect 0 0 0 0).
Proof.
  intros Hb.
  assert (H : forall w0 : Rect, rx w0 <= 0 \/ ry w0 <= 0 ->
            inflate (frame_cols f) (frame_rows f) w0 = mkRect 0 0 0 0).
  { intros w0 H0. unfold inflate, rect_and. cbn [rx ry rwidth rheight].
    match goal with |- (if ?c then _ else _) = _ => destruct c eqn:E end;
      [reflexivity|].
    apply orb_false_iff in E. rewrite !Z.leb_gt in E. lia. }
  split; [apply H, Hb|]. split; [apply H; cbn; lia|].
  intros Hp Ht Hw Ha.
  unfold process_frame. rewrite Hp. unfold camshift_branch.
  cbn [paused set_original_frame track_object original_frame negb].
  rewrite Hp, Ht. cbn [negb Z.eqb]. unfold track.
  cbn [track_object set_original_frame histogram object_of_interest].
  rewrite Ht. cbn [Z.ltb Z.compare].
  change (histogram (set_original_frame st f)) with (histogram st).
  change (object_of_interest (set_original_frame st f))
    with (object_of_interest st).
  rewrite Hw. apply Z.leb_le in Ha. rewrite Ha.
  cbn [object_of_interest set_object_of_interest]. apply H, Hb.
Qed.

End BorderFacts.

(** The theorem on a window collapsed at the top border. *)
Lemma inflate_at_border_witness :
  inflate (frame_cols (Camshift := losing_camshift) (640, 480))
          (frame_rows (Camshift := losing_camshift) (640, 480))
          (mkRect 100 0 0 0) = mkRect 0 0 0 0 /\
  inflate (frame_cols (Camshift := losing_camshift) (640, 480))
          (frame_rows (Camshift := losing_camshift) (640, 480))
          (mkRect 0 0 0 0) = mkRect 0 0 0 0 /\
  (paused tracking_at_top_border = false ->
   track_object tracking_at_top_border = 1 ->
   snd (CamShift (Camshift := losing_camshift) (640, 480) default_params
          (histogram tracking_at_top_border)
          (object_of_interest tracking_at_top_border)) = mkRect 100 0 0 0 ->
   area (mkRect 100 0 0 0) <= 1 ->
   object_of_interest
     (process_frame (cs := losing_camshift) default_params (640, 480)
        tracking_at_top_border) = mkRect 0 0 0 0).
Proof.
  apply (inflate_at_border (cs := losing_camshift) default_params (640, 480)
           tracking_at_top_border (mkRect 100 0 0 0)).
  right. cbn. lia.
Defined.

(** The theorem on a 640 by 480 frame. *)
Lemma inflate_recovers_inside_witness :
  inside 640 480 (inflate 640 480 (mkRect 100 100 0 0)) /\
  (0 < rx (mkRect 100 100 0 0) < 640 -> 0 < ry (mkRect 100 100 0 0) < 480 ->
   contains (inflate 640 480 (mkRect 100 100 0 0))
            (rx (mkRect 100 100 0 0), ry (mkRect 100 100 0 0)) /\
   1 < area (inflate 640 480 (mkRect 100 100 0 0))).
Proof. apply (inflate_recovers_inside 640 480 (mkRect 100 100 0 0)); lia. Defined.

(** ** The crosshairs *)

Lemma trunc_bounds (q : Q) :
  (0 <= q)%Q ->
  0 <= trunc q /\ (inject_Z (trunc q) <= q)%Q /\ (q < inject_Z (trunc q) + 1)%Q.
Proof.
  intros H. rewrite trunc_floor by exact H.
  pose proof (Qfloor_le q) as Hlo. pose proof (Qlt_floor q) as Hhi.
  rewrite inject_Z_plus in Hhi. change (inject_Z 1) with 1%Q in Hhi.
  split; [|auto].
  change 0 with (Qfloor 0). apply Qfloor_resp_le, H.
Qed.

(** The arm towards the origin of an axis: it stops at 0. *)
Lemma arm_low (c : Z) (radius : Q) :
  0 <= c -> (0 <= radius)%Q ->
  let e := if Qltb 0 (inject_Z c - radius)
           then trunc (inject_Z c - radius) else 0 in
  0 <= e <= c /\ (inject_Z (c - e) < radius + 1)%Q.
Proof.
  intros Hc Hr e. unfold e. clear e.
  assert (Hc' : (0 <= inject_Z c)%Q) by (rewrite <- (Zle_Qle 0); exact Hc).
  destruct (Qltb 0 (inject_Z c - radius)) eqn:E.
  - apply Qltb_lt in E.
    destruct (trunc_bounds (inject_Z c - radius)) as (H0 & Hlo & Hhi); [lra|].
    set (t := trunc (inject_Z c - radius)) in *.
    assert (t <= c) by (rewrite Zle_Qle; lra).
    split; [lia|]. unfold Zminus. rewrite inject_Z_plus, inject_Z_opp. lra.
  - apply Qltb_ge in E. split; [lia|].
    rewrite Z.sub_0_r. lra.
Qed.

(** The arm away from the origin: it stops at the width or height. *)
Lemma arm_high (c limit : Z) (radius : Q) :
  0 <= c <= limit -> (0 <= radius)%Q ->
  let e := if Qltb (inject_Z c + radius) (inject_Z limit)
           then trunc (inject_Z c + radius) else limit in
  c <= e <= limit /\ (inject_Z (e - c) < radius + 1)%Q.
Proof.
  intros Hc Hr e. unfold e. clear e.
  assert (Hc' : (0 <= inject_Z c)%Q) by (rewrite <- (Zle_Qle 0); lia).
  assert (Hl : (inject_Z c <= inject_Z limit)%Q) by (rewrite <- Zle_Qle; lia).
  destruct (Qltb (inject_Z c + radius) (inject_Z limit)) eqn:E.
  - apply Qltb_lt in E.
    destruct (trunc_bounds (inject_Z c + radius)) as (H0 & Hlo & Hhi); [lra|].
    set (t := trunc (inject_Z c + radius)) in *.
    assert (t <= limit) by (rewrite Zle_Qle; lra).
    assert (c < t + 1).
    { rewrite Zlt_Qlt, inject_Z_plus. change (inject_Z 1) with 1%Q. lra. }
    split; [lia|]. unfold Zminus. rewrite inject_Z_plus, inject_Z_opp. lra.
  - apply Qltb_ge in E. split; [lia|].
    unfold Zminus. rewrite inject_Z_plus, inject_Z_opp. lra.
Qed.

(** X16.  For a position within the frame and a radius that is not
    negative, [draw_object_position] draws four arms from the position,
    one along each direction of the axes; every arm ends within the
    frame (the borders 0, width and height included) and is shorter
    than radius + 1. *)
Theorem crosshair_arms_clipped (with_circle : bool) (width height x y : Z)
  (radius : Q) :
  0 <= x <= width -> 0 <= y <= height -> (0 <= radius)%Q ->
  exists up down left right : Z,
    arm_ends (draw_object_position with_circle (width, height) x y radius)
      = [(x, up); (x, down); (left, y); (right, y)] /\
    0 <= up <= y /\ y <= down <= height /\
    0 <= left <= x /\ x <= right <= width /\
    (inject_Z (y - up) < radius + 1)%Q /\
    (inject_Z (down - y) < radius + 1)%Q /\
    (inject_Z (x - left) < radius + 1)%Q /\
    (inject_Z (right - x) < radius + 1)%Q.
Proof.
  intros Hx Hy Hr.
  destruct (arm_low y radius) as [U1 U2]; [lia | exact Hr |].
  destruct (arm_high y height radius) as [D1 D2]; [lia | exact Hr |].
  destruct (arm_low x radius) as [L1 L2]; [lia | exact Hr |].
  destruct (arm_high x width radius) as [R1 R2]; [lia | exact Hr |].
  exists (if Qltb 0 (inject_Z y - radius)
          then trunc (inject_Z y - radius) else 0),
         (if Qltb (inject_Z y + radius) (inject_Z height)
          then trunc (inject_Z y + radius) else height),
         (if Qltb 0 (inject_Z x - radius)
          then trunc (inject_Z x - radius) else 0),
         (if Qltb (inject_Z x + radius) (inject_Z width)
          then trunc (inject_Z x + radius) else width).
  split.
  - unfold draw_object_position. cbn [fst snd].
    destruct with_circle; cbn [app arm_ends flat_map];
      destruct (Qltb 0 (inject_Z y - radius)),
               (Qltb (inject_Z y + radius) (inject_Z height)),
               (Qltb 0 (inject_Z x - radius)),
               (Qltb (inject_Z x + radius) (inject_Z width));
      reflexivity.
  - cbv zeta in U1, U2, D1, D2, L1, L2, R1, R2. auto 10.
Qed.

(** The theorem near the upper left corner of a 640 by 480 frame, with
    a radius of 12.5. *)
Lemma crosshair_arms_clipped_witness :
  exists up down left right : Z,
    arm_ends (draw_object_position true (640, 480) 10 5 (25 # 2))
      = [(10, up); (10, down); (left, 5); (right, 5)] /\
    0 <= up <= 5 /\ 5 <= down <= 480 /\
    0 <= left <= 10 /\ 10 <= right <= 640 /\
    (inject_Z (5 - up) < (25 # 2) + 1)%Q /\
    (inject_Z (down - 5) < (25 # 2) + 1)%Q /\
    (inject_Z (10 - left) < (25 # 2) + 1)%Q /\
    (inject_Z (right - 10) < (25 # 2) + 1)%Q.
Proof.
  apply (crosshair_arms_clipped true 640 480 10 5 (25 # 2)); [lia | lia |].
  unfold Qle. cbn. lia.
Defined.

(** What is drawn there: the circle, the four arms and the text. *)
Example crosshairs_near_corner :
  draw_object_position true (640, 480) 10 5 (25 # 2)
  = [ Circle (10, 5) 12;
      Segment (10, 5) (10, 0); Segment (10, 5) (10, 17);
      Segment (10, 5) (0, 5); Segment (10, 5) (22, 5);
      Text (coordinates_text 10 5) (10, 37) ] /\
  coordinates_text 10 5
  = String.String "[" (String.String "1" (String.String "0"
      (String.String "," (String.String "5"
         (String.String "]" String.EmptyString))))).
Proof. split; vm_compute; reflexivity. Qed.

(** ** The panels of the main window *)

(** X17.  In the four frame mode, with the four frames of one size,
    every panel lies within the output frame, no two panels share a
    pixel, and every pixel of the output frame belongs to a panel.  The
    same holds for the two panels of the two frame mode. *)
Theorem panels_tile_output (w h : Z) :
  0 <= w -> 0 <= h ->
  Forall (inside (fst (four_frame_output (w, h) (w, h) (w, h)))
                 (snd (four_frame_output (w, h) (w, h) (w, h))))
         (four_frame_panels (w, h) (w, h) (w, h) (w, h)) /\
  ForallOrdPairs disjoint (four_frame_panels (w, h) (w, h) (w, h) (w, h)) /\
  (forall px py : Z,
     0 <= px < fst (four_frame_output (w, h) (w, h) (w, h)) ->
     0 <= py < snd (four_frame_output (w, h) (w, h) (w, h)) ->
     Exists (fun r => contains r (px, py))
            (four_frame_panels (w, h) (w, h) (w, h) (w, h))) /\
  Forall (inside (fst (two_frame_output (w, h) (w, h)))
                 (snd (two_frame_output (w, h) (w, h))))
         (two_frame_panels (w, h) (w, h)) /\
  ForallOrdPairs disjoint (two_frame_panels (w, h) (w, h)) /\
  (forall px py : Z,
     0 <= px < fst (two_frame_output (w, h) (w, h)) ->
     0 <= py < snd (two_frame_output (w, h) (w, h)) ->
     Exists (fun r => contains r (px, py)) (two_frame_panels (w, h) (w, h))).
Proof.
  intros Hw Hh.
  unfold four_frame_output, four_frame_panels, two_frame_output,
    two_frame_panels. cbn [fst snd].
  split; [repeat constructor; cbn; lia|].
  split.
  { repeat constructor; intros [px py]; unfold contains; cbn; lia. }
  split.
  { intros px py Hx Hy.
    destruct (Z.lt_ge_cases px w), (Z.lt_ge_cases py h).
    - apply Exists_cons_hd. unfold contains. cbn. lia.
    - do 2 apply Exists_cons_tl. apply Exists_cons_hd. unfold contains. cbn. lia.
    - apply Exists_cons_tl, Exists_cons_hd. unfold contains. cbn. lia.
    - do 3 apply Exists_cons_tl. apply Exists_cons_hd. unfold contains. cbn. lia. }
  split; [repeat constructor; cbn; lia|].
  split.
  { repeat constructor; intros [px py]; unfold contains; cbn; lia. }
  intros px py Hx Hy.
  destruct (Z.lt_ge_cases px w).
  - apply Exists_cons_hd. unfold contains. cbn. lia.
  - apply Exists_cons_tl, Exists_cons_hd. unfold contains. cbn. lia.
Qed.

(** The theorem on frames of 640 by 480. *)
Lemma panels_tile_output_witness :
  Forall (inside (fst (four_frame_output (640, 480) (640, 480) (640, 480)))
                 (snd (four_frame_output (640, 480) (640, 480) (640, 480))))
         (four_frame_panels (640, 480) (640, 480) (640, 480) (640, 480)) /\
  ForallOrdPairs disjoint
    (four_frame_panels (640, 480) (640, 480) (640, 480) (640, 480)) /\
  (forall px py : Z,
     0 <= px < fst (four_frame_output (640, 480) (640, 480) (640, 480)) ->
     0 <= py < snd (four_frame_output (640, 480) (640, 480) (640, 480)) ->
     Exists (fun r => contains r (px, py))
            (four_frame_panels (640, 480) (640, 480) (640, 480) (640, 480))) /\
  Forall (inside (fst (two_frame_output (640, 480) (640, 480)))
                 (snd (two_frame_output (640, 480) (640, 480))))
         (two_frame_panels (640, 480) (640, 480)) /\
  ForallOrdPairs disjoint (two_frame_panels (640, 480) (640, 480)) /\
  (forall px py : Z,
     0 <= px < fst (two_frame_output (640, 480) (640, 480)) ->
     0 <= py < snd (two_frame_output (640, 480) (640, 480)) ->
     Exists (fun r => contains r (px, py))
            (two_frame_panels (640, 480) (640, 480))).
Proof. apply (panels_tile_output 640 480); lia. Defined.
(** ** When the loop assigns the index *)

(** X18.  For a rectangle whose corners have coordinates of magnitude
    at most [2 ^ 126], no difference of two corners overflows [float]:
    the computed length of every side is finite, at most [2 ^ 128], and
    below [DBL_MAX].  The first iteration assigns index 0, the loop ends
    with an index from 0 to 3, and neither [draw_principal_axis] nor
    [get_size] reads the index unassigned. *)
Theorem shortest_axis_index_assigned (r : RotatedRect) :
  rect_within (pow2 126) r = true ->
  (forall j, 0 <= j < 4 ->
     exists l : Q,
       line_length r j = Finite l /\ (0 <= l)%Q /\ (l <= pow2 128)%Q /\
       f_lt (line_length r j) (Finite DBL_MAX) = true) /\
  shortest_axis_index (shortest_step r (mkShortest (Finite DBL_MAX) None) 0)
    = Some 0 /\
  (exists k : Z, 0 <= k < 4 /\ shortest_axis_index (shortest_side r) = Some k) /\
  draw_principal_axis r <> None /\
  get_size r <> None.
Proof.
  intros Hr.
  assert (Hlen : forall j, 0 <= j < 4 ->
            exists l : Q,
              line_length r j = Finite l /\ (0 <= l)%Q /\ (l <= pow2 128)%Q /\
              f_lt (line_length r j) (Finite DBL_MAX) = true).
  { intros j Hj.
    destruct (line_length_finite r j 126 ltac:(lia) Hr) as (l & El & L0 & LB).
    exists l. rewrite El. cbn [f_lt]. repeat split; try assumption.
    apply Qltb_lt. eapply Qle_lt_trans; [exact LB|]. vm_compute. reflexivity. }
  split; [exact Hlen|].
  split.
  { destruct (Hlen 0 ltac:(lia)) as (l & _ & _ & _ & Hlt).
    unfold shortest_step. cbn [shortest_axis]. rewrite Hlt. reflexivity. }
  assert (Hfin : forall j, 0 <= j < 4 -> exists l : Q, line_length r j = Finite l).
  { intros j Hj. destruct (Hlen j Hj) as (l & El & _). exists l. exact El. }
  assert (Hfirst : (value (line_length r 0) < DBL_MAX)%Q).
  { destruct (Hlen 0 ltac:(lia)) as (l & El & _ & _ & Hlt).
    rewrite El in Hlt |- *. cbn [f_lt value] in *. apply Qltb_lt, Hlt. }
  destruct (shortest_side_spec r Hfin Hfirst) as (k & Hk & Hrange & _).
  split; [exists k; auto|].
  unfold draw_principal_axis, get_size. rewrite Hk. split; discriminate.
Qed.

(** The theorem on [tilted_rect]. *)
Lemma shortest_axis_index_assigned_witness :
  (forall j, 0 <= j < 4 ->
     exists l : Q,
       line_length tilted_rect j = Finite l /\ (0 <= l)%Q /\ (l <= pow2 128)%Q /\
       f_lt (line_length tilted_rect j) (Finite DBL_MAX) = true) /\
  shortest_axis_index
    (shortest_step tilted_rect (mkShortest (Finite DBL_MAX) None) 0) = Some 0 /\
  (exists k : Z,
     0 <= k < 4 /\ shortest_axis_index (shortest_side tilted_rect) = Some k) /\
  draw_principal_axis tilted_rect <> None /\
  get_size tilted_rect <> None.
Proof. apply (shortest_axis_index_assigned tilted_rect). vm_compute. reflexivity. Defined.

(** ** The histogram window *)

Lemma cvRound_between (a b : Z) (q : Q) :
  (inject_Z a <= q)%Q -> (q <= inject_Z b)%Q -> a <= cvRound q <= b.
Proof.
  intros Ha Hb. pose proof (cvRound_near q) as H.
  apply Qabs_Qle_condition in H. set (z := cvRound q) in *.
  split.
  - assert (a < z + 1); [|lia].
    rewrite Zlt_Qlt, inject_Z_plus. change (inject_Z 1) with 1%Q. lra.
  - assert (z < b + 1); [|lia].
    rewrite Zlt_Qlt, inject_Z_plus. change (inject_Z 1) with 1%Q. lra.
Qed.

(** The height of a bar, computed in [float], between two integers
    that bound it. *)
Lemma bar_height (h : Q) (plo phi vlo vhi : Z) :
  - 2 ^ 24 < plo -> phi < 2 ^ 24 -> - 2 ^ 24 < vlo -> vhi < 2 ^ 24 ->
  (inject_Z plo <= h * inject_Z 200)%Q -> (h * inject_Z 200 <= inject_Z phi)%Q ->
  255 * vlo <= plo -> phi <= 255 * vhi ->
  vlo <= saturate_int
           (f_div binary32 (f_mul binary32 (Finite h) (Finite (inject_Z 200)))
                           (Finite 255)) <= vhi.
Proof.
  intros Hplo Hphi Hvlo Hvhi Hp1 Hp2 Hv1 Hv2. cbn [f_mul].
  destruct (round_between binary32 (h * inject_Z 200) plo phi)
    as (r1 & -> & A1 & A2); try format_side; try assumption.
  cbn [f_div]. change (Qeq_bool 255 0) with false. cbv iota.
  assert (B1 : (inject_Z vlo <= r1 / 255)%Q).
  { apply Qle_shift_div_l; [reflexivity|].
    apply (Qle_trans _ (inject_Z plo)); [|exact A1].
    change 255%Q with (inject_Z 255). rewrite <- inject_Z_mult, <- Zle_Qle. lia. }
  assert (B2 : (r1 / 255 <= inject_Z vhi)%Q).
  { apply Qle_shift_div_r; [reflexivity|].
    apply (Qle_trans _ (inject_Z phi)); [exact A2|].
    change 255%Q with (inject_Z 255). rewrite <- inject_Z_mult, <- Zle_Qle. lia. }
  destruct (round_between binary32 (r1 / 255) vlo vhi)
    as (r2 & -> & C1 & C2); try format_side; try assumption.
  cbn [saturate_int].
  pose proof (cvRound_between vlo vhi r2 C1 C2) as Hz.
  replace (in_int (cvRound r2)) with true; [exact Hz|].
  symmetry. unfold in_int, INT_MIN, INT_MAX.
  apply andb_true_iff. split; apply Z.leb_le; lia.
Qed.

(** X19.  For a histogram of 16 values normalised to the range 0..255,
    the histogram window gets 16 bars: the bar of bin [i] starts on the
    bottom row at column [20 i], is 20 columns wide, rises to a row
    between 0 and 200, and has a hue below 180; all its corners lie
    within the 320 by 200 image.  A bin of value 255 reaches the top
    row and a bin of value 0 stays on the bottom row. *)
Theorem histogram_bars_inside (histogram : list Q) :
  length histogram = 16%nat ->
  Forall (fun h => (0 <= h)%Q /\ (h <= 255)%Q) histogram ->
  length (histogram_bars histogram) = 16%nat /\
  (forall (i : nat) (b : Bar),
     nth_error (histogram_bars histogram) i = Some b ->
     bar_from b = (20 * Z.of_nat i, 200) /\
     fst (bar_to b) = 20 * Z.of_nat i + 20 /\
     0 <= fst (bar_from b) /\ fst (bar_to b) <= 320 /\
     0 <= snd (bar_to b) <= 200 /\
     0 <= bar_hue b < 180 /\
     ((nth i histogram 0 == 255)%Q -> snd (bar_to b) = 0) /\
     ((nth i histogram 0 == 0)%Q -> snd (bar_to b) = 200)).
Proof.
  intros Hlen Hall. unfold histogram_bars.
  change (Z.to_nat histogram_size) with 16%nat.
  split; [rewrite length_map, length_seq; reflexivity|].
  intros i b Hb. rewrite nth_error_map in Hb.
  destruct (nth_error (seq 0 16) i) as [j|] eqn:Ej; [|discriminate].
  assert (Hi : (i < length (seq 0 16))%nat)
    by (apply nth_error_Some; rewrite Ej; discriminate).
  rewrite length_seq in Hi.
  assert (j = i).
  { apply nth_error_nth with (d := 0%nat) in Ej. rewrite seq_nth in Ej by exact Hi.
    lia. }
  subst j. cbn in Hb. injection Hb as <-.
  assert (Hh : (0 <= nth i histogram 0)%Q /\ (nth i histogram 0 <= 255)%Q).
  { rewrite Forall_forall in Hall. apply Hall. apply nth_In. lia. }
  destruct Hh as [H0 H255]. set (h := nth i histogram 0%Q) in *.
  unfold histogram_bar. cbn [bar_from bar_to bar_hue fst snd histogram_image_size].
  change (Z.quot 320 histogram_size) with 20.
  assert (Hval : 0 <= saturate_int
                        (f_div binary32
                           (f_mul binary32 (Finite h) (Finite (inject_Z 200)))
                           (Finite 255)) <= 200).
  { apply (bar_height h 0 51000); try lia.
    - change (inject_Z 0) with 0%Q. change (inject_Z 200) with 200%Q. lra.
    - change (inject_Z 51000) with 51000%Q. change (inject_Z 200) with 200%Q. lra. }
  assert (Hhue : 0 <= bin_hue (Z.of_nat i) < 180).
  { do 16 (destruct i as [|i]; [vm_compute; split; [discriminate | reflexivity]|]).
    lia. }
  split; [f_equal; lia|]. split; [lia|]. split; [lia|]. split; [lia|].
  split; [lia|]. split; [exact Hhue|].
  split; intros E.
  - destruct (bar_height h 51000 51000 200 200); try lia.
    + change (inject_Z 51000) with 51000%Q. change (inject_Z 200) with 200%Q. lra.
    + change (inject_Z 51000) with 51000%Q. change (inject_Z 200) with 200%Q. lra.
  - destruct (bar_height h 0 0 0 0); try lia.
    + change (inject_Z 0) with 0%Q. change (inject_Z 200) with 200%Q. lra.
    + change (inject_Z 0) with 0%Q. change (inject_Z 200) with 200%Q. lra.
Qed.

(** The theorem on a histogram with a single full bin. *)
Lemma histogram_bars_inside_witness :
  length (histogram_bars (255 :: repeat 0 15)%Q) = 16%nat /\
  (forall (i : nat) (b : Bar),
     nth_error (histogram_bars (255 :: repeat 0 15)%Q) i = Some b ->
     bar_from b = (20 * Z.of_nat i, 200) /\
     fst (bar_to b) = 20 * Z.of_nat i + 20 /\
     0 <= fst (bar_from b) /\ fst (bar_to b) <= 320 /\
     0 <= snd (bar_to b) <= 200 /\
     0 <= bar_hue b < 180 /\
     ((nth i (255 :: repeat 0 15)%Q 0 == 255)%Q -> snd (bar_to b) = 0) /\
     ((nth i (255 :: repeat 0 15)%Q 0 == 0)%Q -> snd (bar_to b) = 200)).
Proof.
  apply (histogram_bars_inside (255 :: repeat 0 15)%Q).
  - reflexivity.
  - repeat constructor; unfold Qle; cbn; lia.
Defined.
